(** * The ADF volume engine of amiga-fuse: model and verification

    A shallow embedding of [AdfImage] (src/amiga-fuse.cpp): the mapped image
    is a byte memory, on-disk fields are big-endian 32-bit words read and
    written through the [endian] helpers, the free and used block sets are
    finite sets of block numbers, and every member function is a function on
    the [AdfImage] record. *)

From Stdlib Require Import ZArith Lia List Bool Ascii String.
From Stdlib Require Strings.Byte.
From stdpp Require Import gmap strings list.

Local Open Scope Z_scope.

(** ** Bytes and 32-bit words *)

Abbreviation byte := Byte.byte.

Definition byte_val (b : byte) : Z := Z.of_N (Byte.to_N b).

Definition byte_of (z : Z) : byte :=
  match Byte.of_N (Z.to_N (z mod 256)) with
  | Some b => b
  | None => Byte.x00
  end.

(** [uint32_t] arithmetic wraps modulo 2^32. *)
Definition wrap32 (z : Z) : Z := z mod 4294967296.

(** [size_t] arithmetic wraps modulo 2^64. *)
Definition wrap64 (z : Z) : Z := z mod 18446744073709551616.

(** ** Constants *)

Definition BLOCK_SIZE : Z := 512.
Definition BCPL_STRING_MAX : Z := 30.
Definition HASH_TABLE_SIZE : Z := 72.

Definition T_HEADER : Z := 2.
Definition T_DATA : Z := 8.
Definition ST_ROOT : Z := 1.
Definition ST_DIR : Z := 2.
Definition ST_FILE : Z := -3.

Definition DOS_OFS : Z := 0x444F5300.
Definition DOS_FFS : Z := 0x444F5301.
Definition DOS_FFS_INTL : Z := 0x444F5303.
Definition DOS_FFS_DC : Z := 0x444F5305.

(** errno values returned (negated) by the operations *)
Definition ENOENT : Z := 2.
Definition EIO : Z := 5.
Definition EEXIST : Z := 17.
Definition EISDIR : Z := 21.
Definition ENOSPC : Z := 28.
Definition EROFS : Z := 30.
Definition ENAMETOOLONG : Z := 36.

(** ** The mapped image as a byte memory *)

Definition mem := Z -> byte.

Definition store8 (m : mem) (a : Z) (b : byte) : mem :=
  fun x => if x =? a then b else m x.

(** [std::memset(dst, b, n)] *)
Definition memset (m : mem) (dst : Z) (b : byte) (n : Z) : mem :=
  fun x => if (dst <=? x) && (x <? dst + n) then b else m x.

(** [std::memcpy(dst, src + from, n)] out of a host buffer [src] *)
Definition memcpy_from (m : mem) (dst : Z) (src : list byte) (from n : Z) : mem :=
  fun x => if (dst <=? x) && (x <? dst + n)
           then nth (Z.to_nat (from + (x - dst))) src Byte.x00
           else m x.

(** Native (little-endian host) 32-bit load and store. *)
Definition load32 (m : mem) (a : Z) : Z :=
  byte_val (m a) + 256 * byte_val (m (a + 1))
  + 65536 * byte_val (m (a + 2)) + 16777216 * byte_val (m (a + 3)).

Definition store32 (m : mem) (a : Z) (v : Z) : mem :=
  store8 (store8 (store8 (store8 m a (byte_of v))
                         (a + 1) (byte_of (v / 256)))
                 (a + 2) (byte_of (v / 65536)))
         (a + 3) (byte_of (v / 16777216)).

Module endian.

(** [__builtin_bswap32] *)
Definition byteswap (v : Z) : Z :=
    (v mod 256) * 16777216 + ((v / 256) mod 256) * 65536
    + ((v / 65536) mod 256) * 256 + ((v / 16777216) mod 256).

(** The host is little-endian, so the conversion is the byte swap. *)
Definition from_big_endian (v : Z) : Z := byteswap v.

Definition to_big_endian (v : Z) : Z := from_big_endian v.

End endian.

(** Reading and writing a big-endian [uint32_t] field of a block:
    [endian::from_big_endian(p->f)] and [p->f = endian::to_big_endian(v)]. *)
Definition rd32 (m : mem) (a : Z) : Z := endian.from_big_endian (load32 m a).

Definition wr32 (m : mem) (a : Z) (v : Z) : mem :=
  store32 m a (endian.to_big_endian v).

(** The same for an [int32_t] field ([sec_type]). *)
Definition rds32 (m : mem) (a : Z) : Z :=
  let v := rd32 m a in if v <? 2147483648 then v else v - 4294967296.

(** ** Block layouts (byte offsets of the packed structs) *)

Module RootBlock.
Definition type : Z := 0.
Definition checksum : Z := 20.
Definition hash_table (i : Z) : Z := 24 + 4 * i.
Definition bm_pages (i : Z) : Z := 316 + 4 * i.
Definition days : Z := 420.
Definition mins : Z := 424.
Definition ticks : Z := 428.
Definition name : Z := 432.
Definition sec_type : Z := 508.
End RootBlock.

Module FileBlock.
Definition type : Z := 0.
Definition header_key : Z := 4.
Definition first_data : Z := 16.
Definition checksum : Z := 20.
Definition data_blocks (i : Z) : Z := 24 + 4 * i.
Definition file_size : Z := 324.
Definition days : Z := 408.
Definition mins : Z := 412.
Definition ticks : Z := 416.
Definition filename : Z := 432.
Definition hash_chain : Z := 496.
Definition parent : Z := 500.
Definition sec_type : Z := 508.
End FileBlock.

Module DataBlock.
Definition type : Z := 0.
Definition header_key : Z := 4.
Definition seq_num : Z := 8.
Definition data_size : Z := 12.
Definition next_data : Z := 16.
Definition checksum : Z := 20.
Definition data : Z := 24.
End DataBlock.

Module BitmapBlock.
Definition checksum : Z := 0.
Definition map (j : Z) : Z := 4 + 4 * j.
End BitmapBlock.

Module BootBlock.
Definition disk_type : Z := 0.
End BootBlock.

(** ** Directory entries and the image handler *)

Record Entry := mkEntry {
  name : string;
  is_directory : bool;
  size : Z;
  mtime : Z;
  block_num : Z
}.

Record AdfImage := mkAdfImage {
  (** [fd_ != -1 && mapped_data_ != nullptr] *)
  mapped : bool;
  mapped_data_ : mem;
  file_size_ : Z;
  dos_type_ : Z;
  root_block_num_ : Z;
  volume_name_ : string;
  is_ffs_ : bool;
  read_only_ : bool;
  dir_cache_ : gmap string (list Entry);
  free_blocks_ : gset Z;
  used_blocks_ : gset Z
}.

Definition set_mem (st : AdfImage) (m : mem) : AdfImage :=
  mkAdfImage (mapped st) m (file_size_ st) (dos_type_ st) (root_block_num_ st)
    (volume_name_ st) (is_ffs_ st) (read_only_ st) (dir_cache_ st)
    (free_blocks_ st) (used_blocks_ st).

Definition set_sets (st : AdfImage) (f u : gset Z) : AdfImage :=
  mkAdfImage (mapped st) (mapped_data_ st) (file_size_ st) (dos_type_ st)
    (root_block_num_ st) (volume_name_ st) (is_ffs_ st) (read_only_ st)
    (dir_cache_ st) f u.

Definition set_cache (st : AdfImage) (c : gmap string (list Entry)) : AdfImage :=
  mkAdfImage (mapped st) (mapped_data_ st) (file_size_ st) (dos_type_ st)
    (root_block_num_ st) (volume_name_ st) (is_ffs_ st) (read_only_ st)
    c (free_blocks_ st) (used_blocks_ st).

Definition is_valid (st : AdfImage) : bool :=
  mapped st && (BLOCK_SIZE * 2 <=? file_size_ st).

Definition is_read_only (st : AdfImage) : bool := read_only_ st.

(** [get_block<T>]: the offset of the block in the mapping, or [None] for the
    null pointer. *)
Definition get_block (st : AdfImage) (block_num : Z) : option Z :=
  if negb (is_valid st) || (file_size_ st <? (block_num + 1) * BLOCK_SIZE)
  then None
  else Some (block_num * BLOCK_SIZE).

Definition get_block_writable (st : AdfImage) (block_num : Z) : option Z :=
  if negb (is_valid st) || read_only_ st
     || (file_size_ st <? (block_num + 1) * BLOCK_SIZE)
  then None
  else Some (block_num * BLOCK_SIZE).

(** ** Checksums *)

Definition calculate_checksum (m : mem) (block : Z) (checksum_offset : Z) : Z :=
  let sum :=
    fold_left
      (fun sum i =>
         if negb (i =? checksum_offset)
         then wrap32 (sum + rd32 m (block + 4 * i))
         else sum)
      (seqZ 0 128) 0 in
  wrap32 (- sum).

Definition update_checksum (m : mem) (block : Z) (checksum_offset : Z) : mem :=
  let m1 := store32 m (block + 4 * checksum_offset) 0 in
  let checksum := calculate_checksum m1 block checksum_offset in
  wr32 m1 (block + 4 * checksum_offset) checksum.

Definition update_bitmap_checksum (m : mem) (bitmap : Z) : mem :=
  update_checksum m bitmap 0.

(** ** BCPL strings *)

Module BcplString.

(** The [len] bytes that follow address [a]. *)
Definition bytes_at (m : mem) (a : Z) (len : Z) : list byte :=
  List.map (fun i => m (a + i)) (seqZ 0 len).

Definition read (m : mem) (data : Z) (max_len : Z) : string :=
  if byte_val (m data) =? 0 then EmptyString
  else
    let len := Z.min (byte_val (m data)) max_len in
    string_of_list_byte (bytes_at m (data + 1) len).

Definition write (m : mem) (data : Z) (str : string) (max_len : Z) : mem :=
  let len := Z.min (Z.of_nat (String.length str)) max_len in
  let m1 := store8 m data (byte_of len) in
  let m2 := if 0 <? len
            then memcpy_from m1 (data + 1) (list_byte_of_string str) 0 len
            else m1 in
  if len <? max_len then memset m2 (data + 1 + len) Byte.x00 (max_len - len)
  else m2.

End BcplString.

(** ** Amiga time *)

Definition AMIGA_EPOCH_OFFSET : Z := 2922 * 24 * 60 * 60.

(** [days], [mins] and [ticks] are [uint32_t]: the products wrap before they
    are widened to [time_t]. *)
Definition amiga_to_unix_time (days mins ticks : Z) : Z :=
  let seconds := wrap32 (days * 24 * 60 * 60) in
  let seconds := seconds + wrap32 (mins * 60) in
  let seconds := seconds + ticks / 50 in
  seconds + AMIGA_EPOCH_OFFSET.

Definition unix_to_amiga_time (unix_time : Z) : Z * Z * Z :=
  let amiga_time := unix_time - AMIGA_EPOCH_OFFSET in
  let days := wrap32 (Z.quot amiga_time (24 * 60 * 60)) in
  let amiga_time := Z.rem amiga_time (24 * 60 * 60) in
  let mins := wrap32 (Z.quot amiga_time 60) in
  let amiga_time := Z.rem amiga_time 60 in
  let ticks := wrap32 (amiga_time * 50) in
  (days, mins, ticks).

Definition touch_fileblock (m : mem) (fb : Z) (t : Z) : mem :=
  let '(d, mi, ticks) := unix_to_amiga_time t in
  let m := wr32 m (fb + FileBlock.days) d in
  let m := wr32 m (fb + FileBlock.mins) mi in
  wr32 m (fb + FileBlock.ticks) ticks.

Definition touch_rootblock (m : mem) (rb : Z) (t : Z) : mem :=
  let '(d, mi, ticks) := unix_to_amiga_time t in
  let m := wr32 m (rb + RootBlock.days) d in
  let m := wr32 m (rb + RootBlock.mins) mi in
  wr32 m (rb + RootBlock.ticks) ticks.

(** ** The free and used block sets *)

(** [*s.begin()] of a [std::set<uint32_t>]: its least element. *)
Definition set_begin (s : gset Z) : option Z :=
  match elements s with
  | [] => None
  | x :: l => Some (fold_right Z.min x l)
  end.

(** [used_blocks_.insert(b); free_blocks_.erase(b);] *)
Definition mark_used (st : AdfImage) (b : Z) : AdfImage :=
  set_sets st (free_blocks_ st ∖ {[b]}) ({[b]} ∪ used_blocks_ st).

(** [uint32_t total_blocks = file_size_ / BLOCK_SIZE] *)
Definition total_blocks (st : AdfImage) : Z := wrap32 (file_size_ st / BLOCK_SIZE).

(** ** The bitmap *)

Definition update_bitmap_for_block (st : AdfImage) (block : Z) (is_free : bool)
  : AdfImage :=
  if total_blocks st <=? block then st else
  let bitmap_index := block / 4064 in
  let bit_offset := block mod 4064 in
  let word_index := bit_offset / 32 in
  let bit_index := bit_offset mod 32 in
  if 25 <=? bitmap_index then st else
  match get_block st (root_block_num_ st) with
  | None => st
  | Some root =>
    let m := mapped_data_ st in
    let bm_block := rd32 m (root + RootBlock.bm_pages bitmap_index) in
    if bm_block =? 0 then st else
    match get_block_writable st bm_block with
    | None => st
    | Some bitmap =>
      let map_word := rd32 m (bitmap + BitmapBlock.map word_index) in
      let map_word :=
        if is_free then Z.lor map_word (Z.shiftl 1 bit_index)
        else Z.land map_word (wrap32 (Z.lnot (Z.shiftl 1 bit_index))) in
      let m := wr32 m (bitmap + BitmapBlock.map word_index) map_word in
      set_mem st (update_bitmap_checksum m bitmap)
    end
  end.

Definition allocate_block (st : AdfImage) : Z * AdfImage :=
  match set_begin (free_blocks_ st) with
  | None => (0, st)
  | Some block =>
    let bitmap_index := block / 4064 in
    if 25 <=? bitmap_index then (0, st) else
    match get_block st (root_block_num_ st) with
    | None => (0, st)
    | Some root =>
      let bm_block :=
        rd32 (mapped_data_ st) (root + RootBlock.bm_pages bitmap_index) in
      if bm_block =? 0 then (0, st) else
      let st := set_sets st (free_blocks_ st ∖ {[block]})
                            ({[block]} ∪ used_blocks_ st) in
      let st := update_bitmap_for_block st block false in
      let st := match get_block_writable st block with
                | Some data =>
                  set_mem st (memset (mapped_data_ st) data Byte.x00 BLOCK_SIZE)
                | None => st
                end in
      (block, st)
    end
  end.

Definition free_block (st : AdfImage) (block : Z) : AdfImage :=
  if (block <? 2) || (block =? root_block_num_ st) then st else
  let st := set_sets st ({[block]} ∪ free_blocks_ st)
                        (used_blocks_ st ∖ {[block]}) in
  update_bitmap_for_block st block true.

(** ** Volume open: the used-block scan *)

(** The [while (data_block != 0)] loop of [scan_used_blocks]; a cyclic chain
    keeps it running, so the model takes fuel. *)
Fixpoint scan_data_chain (fuel : nat) (st : AdfImage) (data_block : Z)
  : option AdfImage :=
  match fuel with
  | O => None
  | S fuel =>
    if data_block =? 0 then Some st else
    let st := mark_used st data_block in
    match get_block st data_block with
    | None => Some st
    | Some data =>
      scan_data_chain fuel st
        (rd32 (mapped_data_ st) (data + DataBlock.next_data))
    end
  end.

Fixpoint scan_used_blocks (fuel : nat) (st : AdfImage) (block_num : Z)
  : option AdfImage :=
  match fuel with
  | O => None
  | S fuel =>
    if (block_num =? 0) || bool_decide (block_num ∈ used_blocks_ st)
    then Some st else
    let st := mark_used st block_num in
    match get_block st block_num with
    | None => Some st
    | Some block =>
      let sec_type := rds32 (mapped_data_ st) (block + FileBlock.sec_type) in
      let scan_table (st : AdfImage) (table : Z) : option AdfImage :=
        fold_left
          (fun acc i =>
             match acc with
             | None => None
             | Some st =>
               let hash_block := rd32 (mapped_data_ st) (table + 4 * i) in
               if negb (hash_block =? 0)
               then scan_used_blocks fuel st hash_block
               else Some st
             end)
          (seqZ 0 HASH_TABLE_SIZE) (Some st) in
      let after_table :=
        if (sec_type =? ST_ROOT) || (sec_type =? 0) || (sec_type =? ST_DIR)
        then
          if block_num =? root_block_num_ st
          then match get_block st block_num with
               | Some root => scan_table st (root + RootBlock.hash_table 0)
               | None => Some st
               end
          else scan_table st (block + FileBlock.data_blocks 0)
        else Some st in
      match after_table with
      | None => None
      | Some st =>
        let after_data :=
          if sec_type =? ST_FILE
          then scan_data_chain fuel st
                 (rd32 (mapped_data_ st) (block + FileBlock.first_data))
          else Some st in
        match after_data with
        | None => None
        | Some st =>
          let next := rd32 (mapped_data_ st) (block + FileBlock.hash_chain) in
          if negb (next =? 0) then scan_used_blocks fuel st next else Some st
        end
      end
    end
  end.

(** The [for (bit ...)] loop over one bitmap word, with its [break]. *)
Fixpoint parse_bitmap_bits (bits : list Z) (st : AdfImage)
    (base_block j map_word total : Z) : AdfImage :=
  match bits with
  | [] => st
  | bit :: bits =>
    let block_num := base_block + j * 32 + bit in
    if total <=? block_num then st else
    let st := if negb (Z.testbit map_word bit)
              then mark_used st block_num else st in
    parse_bitmap_bits bits st base_block j map_word total
  end.

Definition parse_bitmap_words (st : AdfImage) (bitmap base_block total : Z)
  : AdfImage :=
  fold_left
    (fun st j =>
       let map_word := rd32 (mapped_data_ st) (bitmap + BitmapBlock.map j) in
       parse_bitmap_bits (seqZ 0 32) st base_block j map_word total)
    (seqZ 0 127) st.

(** The [for (i ...)] loop over [bm_pages], with its [break] and [continue]. *)
Fixpoint parse_bitmap_pages (pages : list Z) (st : AdfImage) (root total : Z)
  : AdfImage :=
  match pages with
  | [] => st
  | i :: pages =>
    let bm_block := rd32 (mapped_data_ st) (root + RootBlock.bm_pages i) in
    if bm_block =? 0 then st else
    let st := mark_used st bm_block in
    match get_block st bm_block with
    | None => parse_bitmap_pages pages st root total
    | Some bitmap =>
      let base_block := i * 4064 in
      parse_bitmap_pages pages
        (parse_bitmap_words st bitmap base_block total) root total
    end
  end.

Definition parse_bitmap (fuel : nat) (st : AdfImage) : option AdfImage :=
  let total := total_blocks st in
  let free := fold_left (fun f i => {[i]} ∪ f) (seqZ 2 (total - 2)) ∅ in
  let used : gset Z := {[1]} ∪ ({[0]} ∪ ∅) in
  let free := free ∖ {[0]} ∖ {[1]} in
  let st := set_sets st free used in
  match get_block st (root_block_num_ st) with
  | None => Some st
  | Some root =>
    let st := parse_bitmap_pages (seqZ 0 25) st root total in
    let st := mark_used st (root_block_num_ st) in
    match get_block st (root_block_num_ st) with
    | None => Some st
    | Some root2 =>
      fold_left
        (fun acc i =>
           match acc with
           | None => None
           | Some st =>
             let hb := rd32 (mapped_data_ st) (root2 + RootBlock.hash_table i) in
             if negb (hb =? 0) then scan_used_blocks fuel st hb else Some st
           end)
        (seqZ 0 HASH_TABLE_SIZE) (Some st)
    end
  end.

Definition parse_filesystem (fuel : nat) (st : AdfImage)
  : option (bool * AdfImage) :=
  match get_block st 0 with
  | None => Some (false, st)
  | Some boot =>
    let dos_type := rd32 (mapped_data_ st) (boot + BootBlock.disk_type) in
    let is_ffs := (dos_type =? DOS_FFS) || (dos_type =? DOS_FFS_INTL)
                  || (dos_type =? DOS_FFS_DC) in
    let st := mkAdfImage (mapped st) (mapped_data_ st) (file_size_ st)
                dos_type 880 (volume_name_ st) is_ffs (read_only_ st)
                (dir_cache_ st) (free_blocks_ st) (used_blocks_ st) in
    match get_block st (root_block_num_ st) with
    | None => Some (false, st)
    | Some root =>
      let root_type := rd32 (mapped_data_ st) (root + RootBlock.type) in
      let root_sec_type := rds32 (mapped_data_ st) (root + RootBlock.sec_type) in
      if negb (root_type =? T_HEADER) then Some (false, st) else
      if negb (root_sec_type =? ST_ROOT) && negb (root_sec_type =? 0)
      then Some (false, st) else
      let st := mkAdfImage (mapped st) (mapped_data_ st) (file_size_ st)
                  (dos_type_ st) (root_block_num_ st)
                  (BcplString.read (mapped_data_ st) (root + RootBlock.name)
                     BCPL_STRING_MAX)
                  (is_ffs_ st) (read_only_ st)
                  (dir_cache_ st) (free_blocks_ st) (used_blocks_ st) in
      match parse_bitmap fuel st with
      | None => None
      | Some st => Some (true, st)
      end
    end
  end.

(** ** Directories *)

Definition toupper (c : Z) : Z := if (97 <=? c) && (c <=? 122) then c - 32 else c.

Definition hash_name (name : string) : Z :=
  let hash :=
    fold_left (fun hash c => wrap32 (hash * 13 + toupper (byte_val c)))
      (list_byte_of_string name) (wrap32 (Z.of_nat (String.length name))) in
  hash mod HASH_TABLE_SIZE.

(** [std::string] helpers used on paths. *)
Fixpoint find_last_of_from (s : string) (c : ascii) (i : nat) (found : option nat)
  : option nat :=
  match s with
  | EmptyString => found
  | String a s =>
    find_last_of_from s c (S i) (if Ascii.eqb a c then Some i else found)
  end.

(** [path.find_last_of(c)]; [None] is [npos]. *)
Definition find_last_of (s : string) (c : ascii) : option nat :=
  find_last_of_from s c O None.

(** [(last_slash == 0) ? "/" : path.substr(0, last_slash)] *)
Definition parent_path_of (path : string) : string :=
  match find_last_of path "/"%char with
  | Some O => "/"%string
  | Some k => substring 0 k path
  | None => path
  end.

(** [path.substr(last_slash + 1)]; [npos + 1] wraps to 0. *)
Definition entry_name_of (path : string) : string :=
  match find_last_of path "/"%char with
  | Some k => substring (S k) (String.length path - S k) path
  | None => path
  end.

Definition is_root_path (path : string) : bool :=
  String.eqb path "/" || String.eqb path "".

(** The entry [list_directory] builds for the header at [block]. *)
Definition entry_of (m : mem) (block block_num : Z) (name : string) : Entry :=
  let sec_type := rds32 m (block + FileBlock.sec_type) in
  let is_dir := sec_type =? ST_DIR in
  mkEntry name is_dir
    (if is_dir then 0 else rd32 m (block + FileBlock.file_size))
    (amiga_to_unix_time (rd32 m (block + FileBlock.days))
       (rd32 m (block + FileBlock.mins)) (rd32 m (block + FileBlock.ticks)))
    block_num.

(** The [while (block_num != 0)] walk of one hash chain in [list_directory]. *)
Fixpoint list_chain (fuel : nat) (st : AdfImage) (block_num : Z)
    (entries : list Entry) : option (list Entry) :=
  match fuel with
  | O => None
  | S fuel =>
    if block_num =? 0 then Some entries else
    match get_block st block_num with
    | None => Some entries
    | Some block =>
      let m := mapped_data_ st in
      let name := BcplString.read m (block + FileBlock.filename) BCPL_STRING_MAX in
      if String.eqb name "" then
        list_chain fuel st (rd32 m (block + FileBlock.hash_chain)) entries
      else
        list_chain fuel st (rd32 m (block + FileBlock.hash_chain))
          (entries ++ [entry_of m block block_num name])
    end
  end.

(** The [for] loop over the hash table in [list_directory]. *)
Definition list_slots (fuel : nat) (st : AdfImage) (dir_block dir : Z)
  : option (list Entry) :=
  fold_left
    (fun acc i =>
       match acc with
       | None => None
       | Some entries =>
         let block_num :=
           rd32 (mapped_data_ st)
             (if dir_block =? root_block_num_ st
              then dir + RootBlock.hash_table i
              else dir + FileBlock.data_blocks i) in
         list_chain fuel st block_num entries
       end)
    (seqZ 0 HASH_TABLE_SIZE) (Some []).

Definition get_cached_dir (st : AdfImage) (path : string) : option (list Entry) :=
  dir_cache_ st !! path.

Definition cache_directory (st : AdfImage) (path : string) (entries : list Entry)
  : AdfImage :=
  set_cache st (<[path := entries]> (dir_cache_ st)).

Definition clear_cache (st : AdfImage) : AdfImage := set_cache st ∅.

(** [list_directory], [get_entry] and [find_directory_block] call each other
    along the path; [now] is the reading of [time(nullptr)]. *)
Fixpoint list_directory (fuel : nat) (now : Z) (st : AdfImage) (path : string)
  {struct fuel} : option (option (list Entry) * AdfImage) :=
  match fuel with
  | O => None
  | S fuel =>
    match get_cached_dir st path with
    | Some cached => Some (Some cached, st)
    | None =>
      match find_directory_block fuel now st path with
      | None => None
      | Some (dir_block, st) =>
        if dir_block =? 0 then Some (None, st) else
        match get_block st dir_block with
        | None => Some (None, st)
        | Some dir =>
          match list_slots (S fuel) st dir_block dir with
          | None => None
          | Some entries => Some (Some entries, cache_directory st path entries)
          end
        end
      end
    end
  end
with get_entry (fuel : nat) (now : Z) (st : AdfImage) (path : string)
  {struct fuel} : option (option Entry * AdfImage) :=
  match fuel with
  | O => None
  | S fuel =>
    if is_root_path path
    then Some (Some (mkEntry "" true 0 now (root_block_num_ st)), st)
    else
      match list_directory fuel now st (parent_path_of path) with
      | None => None
      | Some (None, st) => Some (None, st)
      | Some (Some entries, st) =>
        Some (List.find (fun e => String.eqb (name e) (entry_name_of path)) entries,
              st)
      end
  end
with find_directory_block (fuel : nat) (now : Z) (st : AdfImage) (path : string)
  {struct fuel} : option (Z * AdfImage) :=
  match fuel with
  | O => None
  | S fuel =>
    if is_root_path path then Some (root_block_num_ st, st) else
    match get_entry fuel now st path with
    | None => None
    | Some (Some entry, st) =>
      if is_directory entry then Some (block_num entry, st) else Some (0, st)
    | Some (None, st) => Some (0, st)
    end
  end.

(** ** Reading a file *)

(** The seek loop of [read_file]: at most [want_idx] steps. *)
Fixpoint read_seek (steps : nat) (st : AdfImage) (cur : Z) : Z :=
  match steps with
  | O => cur
  | S steps =>
    if cur =? 0 then cur else
    match get_block st cur with
    | None => 0
    | Some db => read_seek steps st (rd32 (mapped_data_ st) (db + DataBlock.next_data))
    end
  end.

(** The copy loop of [read_file].  [out] is the written prefix of the result
    vector; every iteration appends at least one byte, so [fuel = size] lets
    the loop run to its exit. *)
Fixpoint read_loop (fuel : nat) (st : AdfImage) (size : Z) (cur pos_in_block : Z)
    (out : list byte) : list byte :=
  let produced := Z.of_nat (length out) in
  if size <=? produced then out else
  match fuel with
  | O => out
  | S fuel =>
    if cur =? 0 then
      let can := Z.min (size - produced) (488 - pos_in_block) in
      let out := out ++ repeat Byte.x00 (Z.to_nat can) in
      let pos_in_block := pos_in_block + can in
      if 488 <=? pos_in_block
      then read_loop fuel st size cur 0 out
      else read_loop fuel st size cur pos_in_block out
    else
      match get_block st cur with
      | None => out
      | Some db =>
        let m := mapped_data_ st in
        let db_size := Z.min 488 (rd32 m (db + DataBlock.data_size)) in
        let need := Z.min (size - produced) (488 - pos_in_block) in
        let take := if pos_in_block <? db_size
                    then Z.min need (db_size - pos_in_block) else 0 in
        let out := out ++ BcplString.bytes_at m (db + DataBlock.data + pos_in_block) take in
        let pos_in_block := pos_in_block + take in
        let need := need - take in
        let out := out ++ repeat Byte.x00 (Z.to_nat need) in
        let pos_in_block := pos_in_block + need in
        if 488 <=? pos_in_block
        then read_loop fuel st size (rd32 m (db + DataBlock.next_data)) 0 out
        else read_loop fuel st size cur pos_in_block out
      end
  end.

(** [read_file]: the vector [out(size)] starts as zeros, so what the loop has
    not written when it stops is zero. *)
Definition read_file (st : AdfImage) (file_block_num offset size : Z) : list byte :=
  if file_block_num =? 0 then [] else
  match get_block st file_block_num with
  | None => []
  | Some file_block =>
    let m := mapped_data_ st in
    let fsize := rd32 m (file_block + FileBlock.file_size) in
    if fsize <=? offset then [] else
    let size := Z.min size (fsize - offset) in
    let first := rd32 m (file_block + FileBlock.first_data) in
    let want_idx := offset / 488 in
    let pos_in_block := offset mod 488 in
    let cur := read_seek (Z.to_nat want_idx) st first in
    let out := read_loop (Z.to_nat size) st size cur pos_in_block [] in
    out ++ repeat Byte.x00 (Z.to_nat size - length out)
  end.

(** ** Writing a file *)

(** The initialisation both allocation sites of [write_file] give a fresh
    data block [new_data] at logical position [current_pos]. *)
Definition init_data_block (m : mem) (new_data file_block_num current_pos : Z)
  : mem :=
  let m := wr32 m (new_data + DataBlock.type) T_DATA in
  let m := wr32 m (new_data + DataBlock.header_key) file_block_num in
  let m := wr32 m (new_data + DataBlock.seq_num) (wrap32 (current_pos / 488 + 1)) in
  let m := store32 m (new_data + DataBlock.data_size) 0 in
  let m := store32 m (new_data + DataBlock.next_data) 0 in
  memset m (new_data + DataBlock.data) Byte.x00 488.

(** Linking [new_block] behind [prev_block], or as [first_data] of the header. *)
Definition link_data_block (st : AdfImage) (file_block prev_block new_block : Z)
  : AdfImage :=
  if negb (prev_block =? 0) then
    match get_block_writable st prev_block with
    | Some prev_data =>
      let m := wr32 (mapped_data_ st) (prev_data + DataBlock.next_data) new_block in
      set_mem st (update_checksum m prev_data 5)
    | None => st
    end
  else
    let m := wr32 (mapped_data_ st) (file_block + FileBlock.first_data) new_block in
    set_mem st (update_checksum m file_block 5).

(** Walking the existing chain towards [target_offset]; [None] is the
    [return -EIO]. The position grows by 488 per step, so the fuel
    [target_offset / 488 + 2] is never used up. *)
Fixpoint write_walk (fuel : nat) (st : AdfImage) (target_offset : Z)
    (current_block prev_block current_pos : Z) : option (Z * Z * Z) :=
  if current_block =? 0 then Some (current_block, prev_block, current_pos) else
  match fuel with
  | O => Some (current_block, prev_block, current_pos)
  | S fuel =>
    match get_block st current_block with
    | None => None
    | Some data_block =>
      if target_offset <? current_pos + 488
      then Some (current_block, prev_block, current_pos)
      else write_walk fuel st target_offset
             (rd32 (mapped_data_ st) (data_block + DataBlock.next_data))
             current_block (current_pos + 488)
    end
  end.

(** Bridging the gap with zero-filled blocks; [inl e] is [return e]. *)
Fixpoint write_bridge (fuel : nat) (st : AdfImage) (file_block_num file_block : Z)
    (target_offset : Z) (current_block prev_block current_pos : Z)
  : (Z * AdfImage) + (AdfImage * Z * Z * Z) :=
  if target_offset <? current_pos + 488
  then inr (st, current_block, prev_block, current_pos) else
  match fuel with
  | O => inr (st, current_block, prev_block, current_pos)
  | S fuel =>
    let '(new_block, st) := allocate_block st in
    if new_block =? 0 then inl (- ENOSPC, st) else
    match get_block_writable st new_block with
    | None => inl (- EIO, st)
    | Some new_data =>
      let st := set_mem st (init_data_block (mapped_data_ st) new_data
                              file_block_num current_pos) in
      let st := link_data_block st file_block prev_block new_block in
      let st := set_mem st (update_checksum (mapped_data_ st) new_data 5) in
      write_bridge fuel st file_block_num file_block target_offset
        new_block new_block (current_pos + 488)
    end
  end.

(** The copy loop of [write_file]; every iteration writes at least one byte. *)
Fixpoint write_loop (fuel : nat) (st : AdfImage) (now : Z)
    (file_block_num file_block : Z) (data : list byte) (size : Z)
    (current_block prev_block current_pos bytes_written write_pos : Z)
  : Z * AdfImage :=
  if size <=? bytes_written then
    let m := touch_fileblock (mapped_data_ st) file_block now in
    (bytes_written, set_mem st (update_checksum m file_block 5))
  else
  match fuel with
  | O => (bytes_written, st)
  | S fuel =>
    let alloc :=
      if current_block =? 0 then
        let '(current_block, st) := allocate_block st in
        if current_block =? 0 then inl (bytes_written, st) else
        match get_block_writable st current_block with
        | None => inl (- EIO, st)
        | Some new_data =>
          let st := set_mem st (init_data_block (mapped_data_ st) new_data
                                  file_block_num current_pos) in
          let st := link_data_block st file_block prev_block current_block in
          let st := set_mem st (update_checksum (mapped_data_ st) new_data 5) in
          inr (st, current_block)
        end
      else inr (st, current_block) in
    match alloc with
    | inl r => r
    | inr (st, current_block) =>
      match get_block_writable st current_block with
      | None => (- EIO, st)
      | Some data_block =>
        let block_start := (current_pos / 488) * 488 in
        let block_offset := wrap64 (write_pos - block_start) in
        let write_size :=
          Z.min (size - bytes_written) (wrap64 (488 - block_offset)) in
        if 488 <=? block_offset then (- EIO, st) else
        let m := memcpy_from (mapped_data_ st)
                   (data_block + DataBlock.data + block_offset)
                   data bytes_written write_size in
        let old_size := rd32 m (data_block + DataBlock.data_size) in
        let new_size := Z.max old_size (wrap32 (block_offset + write_size)) in
        let m := wr32 m (data_block + DataBlock.data_size) new_size in
        let m := update_checksum m data_block 5 in
        let st := set_mem st m in
        let bytes_written := bytes_written + write_size in
        let write_pos := write_pos + write_size in
        if 488 <=? block_offset + write_size then
          write_loop fuel st now file_block_num file_block data size
            (rd32 m (data_block + DataBlock.next_data)) current_block
            ((current_pos / 488 + 1) * 488) bytes_written write_pos
        else
          write_loop fuel st now file_block_num file_block data size
            current_block prev_block current_pos bytes_written write_pos
      end
    end
  end.

(** [write_file(file_block_num, buf, size, offset)]; [data] holds the [size]
    bytes of [buf]. *)
Definition write_file (st : AdfImage) (now : Z) (file_block_num : Z)
    (data : list byte) (size offset : Z) : Z * AdfImage :=
  if read_only_ st then (- EROFS, st) else
  if file_block_num =? 0 then (- ENOENT, st) else
  match get_block_writable st file_block_num with
  | None => (- EIO, st)
  | Some file_block =>
    let m := mapped_data_ st in
    let current_size := rd32 m (file_block + FileBlock.file_size) in
    let new_size := Z.max current_size (wrap32 (offset + size)) in
    let st :=
      if negb (new_size =? current_size) then
        let m := wr32 m (file_block + FileBlock.file_size) new_size in
        set_mem st (update_checksum m file_block 5)
      else st in
    let first_data_block :=
      rd32 (mapped_data_ st) (file_block + FileBlock.first_data) in
    let first :=
      if (first_data_block =? 0) && (0 <? size) then
        let '(first_data_block, st) := allocate_block st in
        if first_data_block =? 0 then inl (- ENOSPC, st) else
        let m := wr32 (mapped_data_ st) (file_block + FileBlock.first_data)
                   first_data_block in
        let st := set_mem st (update_checksum m file_block 5) in
        let st :=
          match get_block_writable st first_data_block with
          | Some data_block =>
            let m := mapped_data_ st in
            let m := wr32 m (data_block + DataBlock.type) T_DATA in
            let m := wr32 m (data_block + DataBlock.header_key) file_block_num in
            let m := wr32 m (data_block + DataBlock.seq_num) 1 in
            set_mem st (store32 m (data_block + DataBlock.next_data) 0)
          | None => st
          end in
        inr (st, first_data_block)
      else inr (st, first_data_block) in
    match first with
    | inl r => r
    | inr (st, first_data_block) =>
      let target_offset := offset in
      match write_walk (Z.to_nat (target_offset / 488 + 2)) st target_offset
              first_data_block 0 0 with
      | None => (- EIO, st)
      | Some (current_block, prev_block, current_pos) =>
        match write_bridge (Z.to_nat (target_offset / 488 + 1)) st
                file_block_num file_block target_offset
                current_block prev_block current_pos with
        | inl r => r
        | inr (st, current_block, prev_block, current_pos) =>
          write_loop (Z.to_nat size) st now file_block_num file_block data size
            current_block prev_block current_pos 0 target_offset
        end
      end
    end
  end.

(** ** Directory updates *)

Definition add_to_directory (st : AdfImage) (now : Z) (dir_block file_block : Z)
    (name : string) : AdfImage :=
  let hash := hash_name name in
  if dir_block =? root_block_num_ st then
    match get_block_writable st dir_block with
    | None => st
    | Some root =>
      let m := mapped_data_ st in
      let existing := rd32 m (root + RootBlock.hash_table hash) in
      let m := wr32 m (root + RootBlock.hash_table hash) file_block in
      let m :=
        match get_block_writable st file_block with
        | Some file =>
          update_checksum (wr32 m (file + FileBlock.hash_chain) existing) file 5
        | None => m
        end in
      let m := touch_rootblock m root now in
      set_mem st (update_checksum m root 5)
    end
  else
    match get_block_writable st dir_block with
    | None => st
    | Some dir =>
      let m := mapped_data_ st in
      let existing := rd32 m (dir + FileBlock.data_blocks hash) in
      let m := wr32 m (dir + FileBlock.data_blocks hash) file_block in
      let m :=
        match get_block_writable st file_block with
        | Some file =>
          update_checksum (wr32 m (file + FileBlock.hash_chain) existing) file 5
        | None => m
        end in
      let m := touch_fileblock m dir now in
      set_mem st (update_checksum m dir 5)
    end.

(** The chain search of [remove_from_directory]; a cyclic chain without the
    target keeps it running. *)
Fixpoint remove_from_chain (fuel : nat) (st : AdfImage) (start_block target_block : Z)
  : option (bool * AdfImage) :=
  match fuel with
  | O => None
  | S fuel =>
    let current := start_block in
    if current =? 0 then Some (false, st) else
    match get_block_writable st current with
    | None => Some (false, st)
    | Some block =>
      let m := mapped_data_ st in
      let next := rd32 m (block + FileBlock.hash_chain) in
      if next =? target_block then
        let next2 :=
          match get_block st target_block with
          | Some target => rd32 m (target + FileBlock.hash_chain)
          | None => 0
          end in
        let m := wr32 m (block + FileBlock.hash_chain) next2 in
        Some (true, set_mem st (update_checksum m block 5))
      else remove_from_chain fuel st next target_block
    end
  end.

Definition remove_from_directory (fuel : nat) (st : AdfImage) (now : Z)
    (dir_block file_block : Z) (name : string) : option AdfImage :=
  let hash := hash_name name in
  if dir_block =? root_block_num_ st then
    match get_block_writable st dir_block with
    | None => Some st
    | Some root =>
      let m := mapped_data_ st in
      let current := rd32 m (root + RootBlock.hash_table hash) in
      if current =? file_block then
        let m :=
          match get_block st file_block with
          | Some file =>
            wr32 m (root + RootBlock.hash_table hash)
              (rd32 m (file + FileBlock.hash_chain))
          | None => store32 m (root + RootBlock.hash_table hash) 0
          end in
        let m := touch_rootblock m root now in
        Some (set_mem st (update_checksum m root 5))
      else
        match remove_from_chain fuel st current file_block with
        | None => None
        | Some (true, st) =>
          let m := touch_rootblock (mapped_data_ st) root now in
          Some (set_mem st (update_checksum m root 5))
        | Some (false, st) => Some st
        end
    end
  else
    match get_block_writable st dir_block with
    | None => Some st
    | Some dir =>
      let m := mapped_data_ st in
      let current := rd32 m (dir + FileBlock.data_blocks hash) in
      if current =? file_block then
        let m :=
          match get_block st file_block with
          | Some file =>
            wr32 m (dir + FileBlock.data_blocks hash)
              (rd32 m (file + FileBlock.hash_chain))
          | None => store32 m (dir + FileBlock.data_blocks hash) 0
          end in
        let m := touch_fileblock m dir now in
        Some (set_mem st (update_checksum m dir 5))
      else
        match remove_from_chain fuel st current file_block with
        | None => None
        | Some (true, st) =>
          let m := touch_fileblock (mapped_data_ st) dir now in
          Some (set_mem st (update_checksum m dir 5))
        | Some (false, st) => Some st
        end
    end.

(** ** Create, unlink, truncate *)

Definition create_file (fuel : nat) (st : AdfImage) (now : Z) (path : string)
  : option (Z * AdfImage) :=
  if read_only_ st then Some (- EROFS, st) else
  let parent_path := parent_path_of path in
  let filename := entry_name_of path in
  if BCPL_STRING_MAX <? Z.of_nat (String.length filename)
  then Some (- ENAMETOOLONG, st) else
  match get_entry fuel now st path with
  | None => None
  | Some (Some _, st) => Some (- EEXIST, st)
  | Some (None, st) =>
    match find_directory_block fuel now st parent_path with
    | None => None
    | Some (parent_block, st) =>
      if parent_block =? 0 then Some (- ENOENT, st) else
      let '(file_block, st) := allocate_block st in
      if file_block =? 0 then Some (- ENOSPC, st) else
      match get_block_writable st file_block with
      | None => Some (- EIO, free_block st file_block)
      | Some file =>
        let m := memset (mapped_data_ st) file Byte.x00 BLOCK_SIZE in
        let m := wr32 m (file + FileBlock.type) T_HEADER in
        let m := wr32 m (file + FileBlock.header_key) file_block in
        let m := wr32 m (file + FileBlock.parent) parent_block in
        let m := wr32 m (file + FileBlock.sec_type) (wrap32 ST_FILE) in
        let m := store32 m (file + FileBlock.file_size) 0 in
        let m := store32 m (file + FileBlock.first_data) 0 in
        let m := BcplString.write m (file + FileBlock.filename) filename
                   BCPL_STRING_MAX in
        let '(days, mins, ticks) := unix_to_amiga_time now in
        let m := wr32 m (file + FileBlock.days) days in
        let m := wr32 m (file + FileBlock.mins) mins in
        let m := wr32 m (file + FileBlock.ticks) ticks in
        let m := update_checksum m file 5 in
        let st := set_mem st m in
        let st := add_to_directory st now parent_block file_block filename in
        Some (0, clear_cache st)
      end
    end
  end.

(** The [while (data_block != 0)] loop that frees a data chain, shared by
    [delete_file] and [truncate_file]. *)
Fixpoint free_chain (fuel : nat) (st : AdfImage) (data_block : Z)
  : option AdfImage :=
  match fuel with
  | O => None
  | S fuel =>
    if data_block =? 0 then Some st else
    let next :=
      match get_block st data_block with
      | Some data => rd32 (mapped_data_ st) (data + DataBlock.next_data)
      | None => 0
      end in
    free_chain fuel (free_block st data_block) next
  end.

Definition delete_file (fuel : nat) (st : AdfImage) (now : Z) (path : string)
  : option (Z * AdfImage) :=
  if read_only_ st then Some (- EROFS, st) else
  match get_entry fuel now st path with
  | None => None
  | Some (None, st) => Some (- ENOENT, st)
  | Some (Some entry, st) =>
    if is_directory entry then Some (- EISDIR, st) else
    match find_directory_block fuel now st (parent_path_of path) with
    | None => None
    | Some (parent_block, st) =>
      match remove_from_directory fuel st now parent_block (block_num entry)
              (name entry) with
      | None => None
      | Some st =>
        let freed :=
          match get_block st (block_num entry) with
          | Some file =>
            free_chain fuel st
              (rd32 (mapped_data_ st) (file + FileBlock.first_data))
          | None => Some st
          end in
        match freed with
        | None => None
        | Some st => Some (0, clear_cache (free_block st (block_num entry)))
        end
      end
    end
  end.

(** The first loop of [truncate_file]: at most [blocks_needed] steps along the
    chain, returning [(data_block, prev_block)]. *)
Fixpoint truncate_walk (steps : nat) (st : AdfImage) (data_block prev_block : Z)
  : Z * Z :=
  match steps with
  | O => (data_block, prev_block)
  | S steps =>
    if data_block =? 0 then (data_block, prev_block) else
    let next :=
      match get_block st data_block with
      | Some data => rd32 (mapped_data_ st) (data + DataBlock.next_data)
      | None => 0
      end in
    truncate_walk steps st next data_block
  end.

Definition truncate_file (fuel : nat) (st : AdfImage) (now : Z) (path : string)
    (size : Z) : option (Z * AdfImage) :=
  if read_only_ st then Some (- EROFS, st) else
  match get_entry fuel now st path with
  | None => None
  | Some (None, st) => Some (- ENOENT, st)
  | Some (Some entry, st) =>
    if is_directory entry then Some (- EISDIR, st) else
    match get_block_writable st (block_num entry) with
    | None => Some (- EIO, st)
    | Some file =>
      let current_size := rd32 (mapped_data_ st) (file + FileBlock.file_size) in
      if size =? current_size then Some (0, st) else
      let shrunk :=
        if size <? current_size then
          let blocks_needed := wrap32 (Z.quot (size + 487) 488) in
          let current_blocks := wrap32 (Z.quot (current_size + 487) 488) in
          if blocks_needed <? current_blocks then
            let '(data_block, prev_block) :=
              truncate_walk (Z.to_nat blocks_needed) st
                (rd32 (mapped_data_ st) (file + FileBlock.first_data)) 0 in
            match free_chain fuel st data_block with
            | None => None
            | Some st =>
              if negb (prev_block =? 0) then
                match get_block_writable st prev_block with
                | Some data =>
                  let m := wr32 (mapped_data_ st) (data + DataBlock.next_data) 0 in
                  let remainder := wrap32 (Z.rem size 488) in
                  let remainder :=
                    if (remainder =? 0) && (0 <? size) then 488 else remainder in
                  let m := wr32 m (data + DataBlock.data_size) remainder in
                  Some (set_mem st (update_checksum m data 5))
                | None => Some st
                end
              else if size =? 0 then
                Some (set_mem st
                        (wr32 (mapped_data_ st) (file + FileBlock.first_data) 0))
              else Some st
            end
          else Some st
        else Some st in
      match shrunk with
      | None => None
      | Some st =>
        let m := wr32 (mapped_data_ st) (file + FileBlock.file_size) (wrap32 size) in
        let m := touch_fileblock m file now in
        Some (0, set_mem st (update_checksum m file 5))
      end
    end
  end.

Definition ENOTDIR : Z := 20.
Definition EINVAL : Z := 22.
Definition ENOTEMPTY : Z := 39.

Definition create_directory (fuel : nat) (st : AdfImage) (now : Z) (path : string)
  : option (Z * AdfImage) :=
  if read_only_ st then Some (- EROFS, st) else
  let parent_path := parent_path_of path in
  let dirname := entry_name_of path in
  if BCPL_STRING_MAX <? Z.of_nat (String.length dirname)
  then Some (- ENAMETOOLONG, st) else
  match get_entry fuel now st path with
  | None => None
  | Some (Some _, st) => Some (- EEXIST, st)
  | Some (None, st) =>
    match find_directory_block fuel now st parent_path with
    | None => None
    | Some (parent_block, st) =>
      if parent_block =? 0 then Some (- ENOENT, st) else
      let '(dir_block, st) := allocate_block st in
      if dir_block =? 0 then Some (- ENOSPC, st) else
      match get_block_writable st dir_block with
      | None => Some (- EIO, free_block st dir_block)
      | Some dir =>
        let m := memset (mapped_data_ st) dir Byte.x00 BLOCK_SIZE in
        let m := wr32 m (dir + FileBlock.type) T_HEADER in
        let m := wr32 m (dir + FileBlock.header_key) dir_block in
        let m := wr32 m (dir + FileBlock.parent) parent_block in
        let m := wr32 m (dir + FileBlock.sec_type) ST_DIR in
        let m := BcplString.write m (dir + FileBlock.filename) dirname
                   BCPL_STRING_MAX in
        let '(days, mins, ticks) := unix_to_amiga_time now in
        let m := wr32 m (dir + FileBlock.days) days in
        let m := wr32 m (dir + FileBlock.mins) mins in
        let m := wr32 m (dir + FileBlock.ticks) ticks in
        let m := update_checksum m dir 5 in
        let st := set_mem st m in
        let st := add_to_directory st now parent_block dir_block dirname in
        Some (0, clear_cache st)
      end
    end
  end.

Definition delete_directory (fuel : nat) (st : AdfImage) (now : Z) (path : string)
  : option (Z * AdfImage) :=
  if read_only_ st then Some (- EROFS, st) else
  if is_root_path path then Some (- EINVAL, st) else
  match get_entry fuel now st path with
  | None => None
  | Some (None, st) => Some (- ENOENT, st)
  | Some (Some entry, st) =>
    if negb (is_directory entry) then Some (- ENOTDIR, st) else
    match list_directory fuel now st path with
    | None => None
    | Some (contents, st) =>
      let not_empty :=
        match contents with
        | Some (_ :: _) => true
        | _ => false
        end in
      if not_empty then Some (- ENOTEMPTY, st) else
      match find_directory_block fuel now st (parent_path_of path) with
      | None => None
      | Some (parent_block, st) =>
        match remove_from_directory fuel st now parent_block (block_num entry)
                (name entry) with
        | None => None
        | Some st => Some (0, clear_cache (free_block st (block_num entry)))
        end
      end
    end
  end.

(** The façade clears the directory cache after a successful truncate and a
    successful write ([fuse_ops::truncate], [fuse_ops::write]). *)
Definition fuse_truncate (fuel : nat) (st : AdfImage) (now : Z) (path : string)
    (size : Z) : option (Z * AdfImage) :=
  match truncate_file fuel st now path size with
  | None => None
  | Some (result, st) =>
    Some (result, if result =? 0 then clear_cache st else st)
  end.

(** ** The FUSE operations on an open file *)






(** * Specification vocabulary *)

Definition sumZ (l : list Z) : Z := fold_right Z.add 0 l.

(** The 128 big-endian words of the block at [block]. *)
Definition block_words (m : mem) (block : Z) : list Z :=
  List.map (fun i => rd32 m (block + 4 * i)) (seqZ 0 128).

(** The same with the word at index [off] taken as zero. *)
Definition block_words_without (m : mem) (block off : Z) : list Z :=
  List.map (fun i => if i =? off then 0 else rd32 m (block + 4 * i)) (seqZ 0 128).

(** ** Example images *)

Definition zero_mem : mem := fun _ => Byte.x00.

(** A freshly formatted 880 KiB FFS volume named "Empty": root block 880,
    one bitmap page at block 881, every other block from 2 on free. *)
Definition fresh_mem : mem :=
  let root := 880 * 512 in
  let bitmap := 881 * 512 in
  let m := wr32 zero_mem (0 + BootBlock.disk_type) DOS_FFS in
  let m := wr32 m (root + RootBlock.type) T_HEADER in
  let m := wr32 m (root + 12) HASH_TABLE_SIZE in
  let m := wr32 m (root + 312) 4294967295 in
  let m := wr32 m (root + RootBlock.bm_pages 0) 881 in
  let m := BcplString.write m (root + RootBlock.name) "Empty" BCPL_STRING_MAX in
  let m := wr32 m (root + RootBlock.sec_type) ST_ROOT in
  let m := update_checksum m root 5 in
  let m := memset m (bitmap + 4) Byte.xff 508 in
  let m := wr32 m (bitmap + BitmapBlock.map 0) 4294967292 in
  let m := wr32 m (bitmap + BitmapBlock.map 27) 4294770687 in
  update_bitmap_checksum m bitmap.

(** The handler right after [mmap]: nothing parsed yet. *)
Definition unparsed (m : mem) (file_size : Z) (read_only : bool) : AdfImage :=
  mkAdfImage true m file_size 0 0 "" false read_only ∅ ∅ ∅.

Definition fresh_image : AdfImage := unparsed fresh_mem 901120 false.

(** What an option-returning operation gives, or [dflt] when the fuel runs out. *)
Definition run {A : Type} (dflt : A) (r : option A) : A :=
  match r with Some a => a | None => dflt end.

(** The mounted fresh volume. *)
Definition fresh_volume : AdfImage :=
  snd (run (false, fresh_image) (parse_filesystem 8 fresh_image)).

(** An FFS volume of the same size whose bitmap marks the blocks 2 to 9 free
    and every other block used. *)
Definition small_mem : mem :=
  let root := 880 * 512 in
  let bitmap := 881 * 512 in
  let m := wr32 zero_mem (0 + BootBlock.disk_type) DOS_FFS in
  let m := wr32 m (root + RootBlock.type) T_HEADER in
  let m := wr32 m (root + 12) HASH_TABLE_SIZE in
  let m := wr32 m (root + 312) 4294967295 in
  let m := wr32 m (root + RootBlock.bm_pages 0) 881 in
  let m := BcplString.write m (root + RootBlock.name) "Empty" BCPL_STRING_MAX in
  let m := wr32 m (root + RootBlock.sec_type) ST_ROOT in
  let m := update_checksum m root 5 in
  let m := wr32 m (bitmap + BitmapBlock.map 0) 1020 in
  update_bitmap_checksum m bitmap.

(** The handler of an open FFS image of 901120 bytes named "Empty", with the
    given memory and block sets and an empty directory cache. *)
Definition mounted (m : mem) (free used : gset Z) : AdfImage :=
  mkAdfImage true m 901120 DOS_FFS 880 "Empty" true false ∅ free used.

Definition small_free : gset Z := list_to_set (seqZ 2 8).

Definition small_used : gset Z :=
  list_to_set (seqZ 0 2) ∪ list_to_set (seqZ 10 1750).

Definition small_volume : AdfImage := mounted small_mem small_free small_used.

(** A volume like the fresh one whose DOS type is 0x00000001: the low byte
    says FFS, the three-byte prefix is not "DOS". *)
Definition odd_dos_image : AdfImage :=
  unparsed (wr32 fresh_mem (0 + BootBlock.disk_type) 1) 901120 false.

(** Two handler states that differ at most in the two block sets. *)
Definition same_volume (st st' : AdfImage) : Prop :=
  mapped st' = mapped st /\ mapped_data_ st' = mapped_data_ st
  /\ file_size_ st' = file_size_ st /\ dos_type_ st' = dos_type_ st
  /\ root_block_num_ st' = root_block_num_ st
  /\ volume_name_ st' = volume_name_ st /\ is_ffs_ st' = is_ffs_ st
  /\ read_only_ st' = read_only_ st /\ dir_cache_ st' = dir_cache_ st.

(** ** The free/used partition *)

(** On a mounted volume (root block 880) the two sets are disjoint, between
    them they hold every block of the image, and the boot blocks and the root
    block are used. *)
Definition partition_inv (st : AdfImage) : Prop :=
  root_block_num_ st = 880
  /\ free_blocks_ st ## used_blocks_ st
  /\ (forall b, 0 <= b < total_blocks st ->
        b ∈ free_blocks_ st ∪ used_blocks_ st)
  /\ 0 ∈ used_blocks_ st /\ 1 ∈ used_blocks_ st /\ 880 ∈ used_blocks_ st.



(** ** Hash chains and data chains *)

(** The headers of one hash chain in walking order: from [b] along the
    [hash_chain] pointers down to the terminator 0.  A pointer that leaves
    the image ends the chain as well: there is no header to visit. *)
Inductive hash_chain_from (st : AdfImage) : Z -> list Z -> Prop :=
| hash_chain_end (b : Z) :
    b = 0 \/ get_block st b = None -> hash_chain_from st b []
| hash_chain_step (b block : Z) (l : list Z) :
    b <> 0 ->
    get_block st b = Some block ->
    hash_chain_from st (rd32 (mapped_data_ st) (block + FileBlock.hash_chain)) l ->
    hash_chain_from st b (b :: l).

(** The address of hash slot [i] of the directory at [dir]. *)
Definition slot_addr (st : AdfImage) (dir_block dir i : Z) : Z :=
  if dir_block =? root_block_num_ st
  then dir + RootBlock.hash_table i
  else dir + FileBlock.data_blocks i.

(** What one header contributes to a listing: its entry, or nothing when its
    name is empty. *)
Definition header_entries (st : AdfImage) (b : Z) : list Entry :=
  match get_block st b with
  | Some block =>
    let name :=
      BcplString.read (mapped_data_ st) (block + FileBlock.filename)
        BCPL_STRING_MAX in
    if String.eqb name "" then []
    else [entry_of (mapped_data_ st) block b name]
  | None => []
  end.

(** The listing of a directory whose 72 hash chains are [chains 0], ...,
    [chains 71]: every header of every chain, slot by slot. *)
Definition listing_of (st : AdfImage) (chains : Z -> list Z) : list Entry :=
  flat_map (fun i => flat_map (header_entries st) (chains i))
    (seqZ 0 HASH_TABLE_SIZE).

(** A computable walk of a hash chain, for checking concrete volumes. *)
Fixpoint hash_chain_list (fuel : nat) (st : AdfImage) (b : Z) : option (list Z) :=
  match fuel with
  | O => None
  | S fuel =>
    if b =? 0 then Some [] else
    match get_block st b with
    | None => Some []
    | Some block =>
      match hash_chain_list fuel st
              (rd32 (mapped_data_ st) (block + FileBlock.hash_chain)) with
      | Some l => Some (b :: l)
      | None => None
      end
    end
  end.

(** ** The logical content of a file *)

(** The address of the data block at chain index [k] behind block number [b],
    when the chain reaches that far inside the image. *)
Fixpoint data_block_at (st : AdfImage) (b : Z) (k : nat) : option Z :=
  if b =? 0 then None else
  match get_block st b with
  | None => None
  | Some db =>
    match k with
    | O => Some db
    | S k =>
      data_block_at st (rd32 (mapped_data_ st) (db + DataBlock.next_data)) k
    end
  end.

(** The byte at logical position [p] of the file whose chain starts at
    [first]: payload byte [p mod 488] of block [p / 488] below that block's
    [data_size], zero above it and zero where the chain has no block. *)
Definition file_byte (st : AdfImage) (first : Z) (p : Z) : byte :=
  match data_block_at st first (Z.to_nat (p / 488)) with
  | Some db =>
    if p mod 488 <? rd32 (mapped_data_ st) (db + DataBlock.data_size)
    then mapped_data_ st (db + DataBlock.data + p mod 488)
    else Byte.x00
  | None => Byte.x00
  end.

(** ** More example volumes *)

(** A header block with the given name, secondary type and chain pointer. *)
Definition put_header (m : mem) (b : Z) (nm : string) (sec_type next : Z) : mem :=
  let p := b * 512 in
  let m := wr32 m (p + FileBlock.type) T_HEADER in
  let m := wr32 m (p + FileBlock.header_key) b in
  let m := BcplString.write m (p + FileBlock.filename) nm BCPL_STRING_MAX in
  let m := wr32 m (p + FileBlock.hash_chain) next in
  let m := wr32 m (p + FileBlock.parent) 880 in
  let m := wr32 m (p + FileBlock.sec_type) (wrap32 sec_type) in
  update_checksum m p 5.

(** A root directory whose hash slot 5 chains three headers, the middle one
    with an empty name. *)
Definition nameless_volume : AdfImage :=
  let m := put_header small_mem 882 "first" ST_FILE 883 in
  let m := put_header m 883 "" ST_FILE 884 in
  let m := put_header m 884 "third" ST_FILE 0 in
  let m := wr32 m (880 * 512 + RootBlock.hash_table 5) 882 in
  mounted (update_checksum m (880 * 512) 5) small_free small_used.

Definition nameless_chains (i : Z) : list Z :=
  if i =? 5 then [882; 883; 884] else [].

(** The small volume after [create("/hello.txt")] and a write of 13 bytes. *)
Definition hello_bytes : list byte := list_byte_of_string "Hello, Amiga!".

Definition hello_created : AdfImage :=
  snd (run (0, small_volume) (create_file 4 small_volume 1000000000 "/hello.txt")).

Definition hello_volume : AdfImage :=
  snd (write_file hello_created 1000000000 2 hello_bytes 13 0).

(** ** Memory footprints *)

(** Address [a] lies in block [x]. *)
Definition in_block (x a : Z) : Prop := x * 512 <= a < x * 512 + 512.

(** [m'] differs from [m] inside [lo, hi) at most. *)
Definition unchanged_outside (lo hi : Z) (m m' : mem) : Prop :=
  forall a, a < lo \/ hi <= a -> m' a = m a.

(** Block [x] is one of the bitmap pages the root block names. *)
Definition bitmap_page (st : AdfImage) (x : Z) : Prop :=
  exists rp i,
    get_block st (root_block_num_ st) = Some rp /\ 0 <= i < 25
    /\ x = rd32 (mapped_data_ st) (rp + RootBlock.bm_pages i) /\ x <> 0.

(** The handler fields no operation changes after open. *)
Definition same_geometry (st st' : AdfImage) : Prop :=
  mapped st' = mapped st /\ file_size_ st' = file_size_ st
  /\ read_only_ st' = read_only_ st /\ root_block_num_ st' = root_block_num_ st.

(** The header [h] of a file and the blocks [D] of its data chain are kept
    apart from everything else the allocator and the file operations write:
    the free blocks are positive 32-bit block numbers; the header is not the root,
    not free and not on the chain; the root is neither free nor on the chain;
    no bitmap page is the header, the root, free or on the chain; and [D]
    holds the first data block and is closed under [next_data]. *)
Record file_separated (st : AdfImage) (h : Z) (D : gset Z) : Prop := {
  fs_free_pos : forall x, x ∈ free_blocks_ st -> 0 < x < 4294967296;
  fs_header : h <> root_block_num_ st /\ (h ∉ free_blocks_ st) /\ (h ∉ D);
  fs_root : (root_block_num_ st ∉ free_blocks_ st) /\ (root_block_num_ st ∉ D);
  fs_pages : forall x, bitmap_page st x ->
             x <> h /\ x <> root_block_num_ st
             /\ (x ∉ free_blocks_ st) /\ (x ∉ D);
  fs_first : forall hp, get_block st h = Some hp ->
             rd32 (mapped_data_ st) (hp + FileBlock.first_data) = 0
             \/ rd32 (mapped_data_ st) (hp + FileBlock.first_data) ∈ D;
  fs_chain : forall d p, d ∈ D -> get_block st d = Some p ->
             rd32 (mapped_data_ st) (p + DataBlock.next_data) = 0
             \/ rd32 (mapped_data_ st) (p + DataBlock.next_data) ∈ D
}.

(** The stored checksum of the block at [p] is the computed one. *)
Definition checksum_ok (m : mem) (p : Z) : Prop :=
  calculate_checksum m p 5 = rd32 m (p + 20).

(** What [write_file] keeps true from the moment it has stored the new file
    size [V] in the header [h]: the geometry, the separation of the header
    and its chain, the stored size, and the header checksum if it was right
    at that moment. *)
Definition write_inv (st0 : AdfImage) (h V : Z) (D : gset Z) (st : AdfImage)
  : Prop :=
  same_geometry st0 st
  /\ file_separated st h D
  /\ forall hp, get_block st0 h = Some hp ->
       rd32 (mapped_data_ st) (hp + FileBlock.file_size) = V
       /\ (checksum_ok (mapped_data_ st0) hp -> checksum_ok (mapped_data_ st) hp).

(** A decision procedure for [file_separated], used on concrete volumes. *)
Definition on_chain (D : list Z) (x : Z) : bool := existsb (Z.eqb x) D.

Definition file_separated_check (st : AdfImage) (h : Z) (D : list Z) : bool :=
  let m := mapped_data_ st in
  let root := root_block_num_ st in
  let free := free_blocks_ st in
  forallb (fun x => (0 <? x) && (x <? 4294967296)) (elements free)
  && negb (h =? root) && negb (bool_decide (h ∈ free)) && negb (on_chain D h)
  && negb (bool_decide (root ∈ free)) && negb (on_chain D root)
  && (match get_block st root with
      | None => true
      | Some rp =>
        forallb
          (fun i =>
             let x := rd32 m (rp + RootBlock.bm_pages i) in
             (x =? 0)
             || (negb (x =? h) && negb (x =? root)
                 && negb (bool_decide (x ∈ free)) && negb (on_chain D x)))
          (seqZ 0 25)
      end)
  && (match get_block st h with
      | None => true
      | Some hp =>
        let f := rd32 m (hp + FileBlock.first_data) in (f =? 0) || on_chain D f
      end)
  && forallb
       (fun d =>
          match get_block st d with
          | None => true
          | Some p =>
            let nx := rd32 m (p + DataBlock.next_data) in
            (nx =? 0) || on_chain D nx
          end) D.

(** The volume with "/hello.txt" after the blocks 5 to 9 got used as well:
    block 4 is the single free block. *)
Definition cramped_volume : AdfImage :=
  let bitmap := 881 * 512 in
  let m := wr32 (mapped_data_ hello_volume) (bitmap + BitmapBlock.map 0) 16 in
  set_sets (set_mem hello_volume (update_bitmap_checksum m bitmap))
    {[4]} (list_to_set [5; 6; 7; 8; 9] ∪ used_blocks_ hello_volume).

Definition thousand_bytes : list byte := repeat Byte.x41 1000.

(** The volume with "/hello.txt" grown to 5000 bytes by [truncate]: the size
    in the header grows, the data chain keeps its single block. *)
Definition sparse_volume : AdfImage :=
  snd (run (0, hello_volume)
         (truncate_file 4 hello_volume 1000000000 "/hello.txt" 5000)).


(** ** Data chains *)



(** [st'] is [st] with another directory cache. *)
Definition only_cache (st st' : AdfImage) : Prop :=
  exists c, st' = set_cache st c.

(** Block [x] is none of the bitmap pages. *)
Definition not_bitmap_page_check (st : AdfImage) (x : Z) : bool :=
  match get_block st (root_block_num_ st) with
  | None => true
  | Some rp =>
    forallb
      (fun i =>
         let y := rd32 (mapped_data_ st) (rp + RootBlock.bm_pages i) in
         (y =? 0) || negb (y =? x))
      (seqZ 0 25)
  end.




(** ** Create and unlink *)

(** [m'] has the [first_data] word of every block as [m] has it. *)
Definition keeps_first_data (m m' : mem) : Prop :=
  forall x, rd32 m' (x * 512 + FileBlock.first_data)
            = rd32 m (x * 512 + FileBlock.first_data).

(** The volume with "/hello.txt" created and unlinked again, both at the
    same time of day. *)
Definition unlinked_volume : AdfImage :=
  snd (run (0, hello_created)
         (delete_file 4 hello_created 1000000000 "/hello.txt")).

(** ** Names *)

(** A name with its ASCII letters in upper case. *)
Definition upper_byte (c : byte) : byte := byte_of (toupper (byte_val c)).

Definition upper_string (s : string) : string :=
  string_of_list_byte (List.map upper_byte (list_byte_of_string s)).

(** The character [c] occurs in [s]. *)
Fixpoint has_char (c : ascii) (s : string) : bool :=
  match s with
  | EmptyString => false
  | String a s => Ascii.eqb a c || has_char c s
  end.



(** ** Directories with several names *)







(** The free set holds 32-bit block numbers only. *)
Definition free_range_check (st : AdfImage) : bool :=
  forallb (fun x => (0 <=? x) && (x <? 4294967296)) (elements (free_blocks_ st)).



(** ** A file created, written and read through the FUSE operations *)



(** * Verification *)

(** ** Bytes, words and memory *)

Lemma byte_val_range (b : byte) : 0 <= byte_val b < 256.
Proof.
  unfold byte_val. pose proof (Byte.to_N_bounded b). lia.
Qed.

Lemma byte_val_of (z : Z) : byte_val (byte_of z) = z mod 256.
Proof.
  unfold byte_val, byte_of.
  assert (Hr : 0 <= z mod 256 < 256) by (apply Z.mod_pos_bound; lia).
  destruct (Byte.of_N (Z.to_N (z mod 256))) as [b|] eqn:E.
  - apply Byte.to_of_N in E. rewrite E. lia.
  - apply Byte.of_N_None_iff in E. lia.
Qed.

Lemma byte_of_val (b : byte) : byte_of (byte_val b) = b.
Proof.
  unfold byte_of, byte_val.
  pose proof (Byte.to_N_bounded b) as Hb.
  rewrite Z.mod_small by lia.
  rewrite N2Z.id, Byte.of_to_N. reflexivity.
Qed.

Lemma byte_val_inj (b c : byte) : byte_val b = byte_val c -> b = c.
Proof.
  intros H. rewrite <- (byte_of_val b), <- (byte_of_val c). congruence.
Qed.

Lemma byteswap_bytes (b0 b1 b2 b3 : Z) :
  0 <= b0 < 256 -> 0 <= b1 < 256 -> 0 <= b2 < 256 -> 0 <= b3 < 256 ->
  endian.byteswap (b0 + 256 * b1 + 65536 * b2 + 16777216 * b3)
  = 16777216 * b0 + 65536 * b1 + 256 * b2 + b3.
Proof.
  intros. unfold endian.byteswap.
  Z.div_mod_to_equations. lia.
Qed.

Lemma rd32_bytes (m : mem) (a : Z) :
  rd32 m a = 16777216 * byte_val (m a) + 65536 * byte_val (m (a + 1))
             + 256 * byte_val (m (a + 2)) + byte_val (m (a + 3)).
Proof.
  unfold rd32, endian.from_big_endian, load32.
  apply byteswap_bytes; apply byte_val_range.
Qed.

Lemma rd32_range (m : mem) (a : Z) : 0 <= rd32 m a < 4294967296.
Proof.
  rewrite rd32_bytes.
  pose proof (byte_val_range (m a)). pose proof (byte_val_range (m (a + 1))).
  pose proof (byte_val_range (m (a + 2))). pose proof (byte_val_range (m (a + 3))).
  lia.
Qed.

Lemma rd32_ext (m1 m2 : mem) (a : Z) :
  (forall x, a <= x < a + 4 -> m1 x = m2 x) -> rd32 m1 a = rd32 m2 a.
Proof.
  intros H. rewrite !rd32_bytes.
  rewrite (H a), (H (a + 1)), (H (a + 2)), (H (a + 3)) by lia. reflexivity.
Qed.

Lemma store8_same m a b : store8 m a b a = b.
Proof. unfold store8. rewrite Z.eqb_refl. reflexivity. Qed.

Lemma store8_other m a b x : x <> a -> store8 m a b x = m x.
Proof. unfold store8. intros H. destruct (Z.eqb_spec x a); congruence. Qed.

Lemma store32_other m a v x : x < a \/ a + 4 <= x -> store32 m a v x = m x.
Proof.
  intros H. unfold store32. rewrite !store8_other by lia. reflexivity.
Qed.

Lemma wr32_other m a v x : x < a \/ a + 4 <= x -> wr32 m a v x = m x.
Proof. apply store32_other. Qed.

Lemma load32_store32 m a v : load32 (store32 m a v) a = v mod 4294967296.
Proof.
  unfold load32, store32, store8.
  repeat match goal with
         | |- context [Z.eqb ?x ?y] => destruct (Z.eqb_spec x y); try lia
         end.
  rewrite !byte_val_of.
  Z.div_mod_to_equations. lia.
Qed.

Lemma byteswap_range v : 0 <= endian.byteswap v < 4294967296.
Proof. unfold endian.byteswap. Z.div_mod_to_equations. lia. Qed.

Lemma byteswap_involutive v : endian.byteswap (endian.byteswap v) = v mod 4294967296.
Proof. unfold endian.byteswap. Z.div_mod_to_equations. lia. Qed.

Lemma rd32_wr32_same m a v : rd32 (wr32 m a v) a = wrap32 v.
Proof.
  unfold rd32, wr32, endian.to_big_endian, endian.from_big_endian, wrap32.
  rewrite load32_store32.
  rewrite (Z.mod_small (endian.byteswap v)) by apply byteswap_range.
  apply byteswap_involutive.
Qed.

Lemma rd32_wr32_other m a v a' :
  a' + 4 <= a \/ a + 4 <= a' -> rd32 (wr32 m a v) a' = rd32 m a'.
Proof.
  intros H. apply rd32_ext. intros x Hx. apply wr32_other. lia.
Qed.

Lemma rd32_store32_zero m a : rd32 (store32 m a 0) a = 0.
Proof.
  unfold rd32, endian.from_big_endian. rewrite load32_store32. reflexivity.
Qed.

Lemma rd32_store32_other m a v a' :
  a' + 4 <= a \/ a + 4 <= a' -> rd32 (store32 m a v) a' = rd32 m a'.
Proof.
  intros H. apply rd32_ext. intros x Hx. apply store32_other. lia.
Qed.

(** ** Checksums *)

Lemma wrap32_range z : 0 <= wrap32 z < 4294967296.
Proof. unfold wrap32. apply Z.mod_pos_bound. lia. Qed.

Lemma wrap32_small z : 0 <= z < 4294967296 -> wrap32 z = z.
Proof. unfold wrap32. apply Z.mod_small. Qed.

Lemma wrap32_idem z : wrap32 (wrap32 z) = wrap32 z.
Proof. apply wrap32_small, wrap32_range. Qed.

Lemma wrap32_add_l a b : wrap32 (wrap32 a + b) = wrap32 (a + b).
Proof. unfold wrap32. apply Zplus_mod_idemp_l. Qed.

Lemma wrap32_opp a : wrap32 (- wrap32 a) = wrap32 (- a).
Proof.
  unfold wrap32.
  rewrite <- (Z.sub_0_l (a mod _)), <- (Z.sub_0_l a).
  apply Zminus_mod_idemp_r.
Qed.

Lemma checksum_fold (f : Z -> Z) (off : Z) (l : list Z) (s : Z) :
  wrap32
    (fold_left (fun sum i => if negb (i =? off) then wrap32 (sum + f i) else sum)
       l s)
  = wrap32 (s + sumZ (List.map (fun i => if i =? off then 0 else f i) l)).
Proof.
  revert s. induction l as [|i l IH]; intros s; simpl.
  - f_equal. lia.
  - rewrite IH. destruct (i =? off); simpl.
    + f_equal; lia.
    + rewrite wrap32_add_l. f_equal; lia.
Qed.

Lemma checksum_fold_range (f : Z -> Z) (off : Z) (l : list Z) (s : Z) :
  0 <= s < 4294967296 ->
  0 <= fold_left (fun sum i => if negb (i =? off) then wrap32 (sum + f i) else sum)
         l s < 4294967296.
Proof.
  revert s. induction l as [|i l IH]; intros s Hs; simpl; [exact Hs|].
  apply IH. destruct (i =? off); simpl; [exact Hs | apply wrap32_range].
Qed.

Lemma calculate_checksum_spec (m : mem) (block off : Z) :
  calculate_checksum m block off = wrap32 (- sumZ (block_words_without m block off)).
Proof.
  unfold calculate_checksum, block_words_without.
  set (s := fold_left _ _ _).
  assert (Hs : s = wrap32 s).
  { symmetry. apply wrap32_small. apply checksum_fold_range. lia. }
  rewrite Hs. unfold s.
  rewrite (checksum_fold (fun i => rd32 m (block + 4 * i))).
  rewrite wrap32_opp, Z.add_0_l. reflexivity.
Qed.

Lemma sumZ_split (g : Z -> Z) (off : Z) (l : list Z) :
  NoDup l -> off ∈ l ->
  sumZ (List.map g l)
  = sumZ (List.map (fun i => if i =? off then 0 else g i) l) + g off.
Proof.
  induction 1 as [|i l Hni Hnd IH]; intros Hin.
  - inversion Hin.
  - simpl. destruct (Z.eqb_spec i off) as [->|Hne].
    + assert (E : List.map (fun i => if i =? off then 0 else g i) l = List.map g l).
      { apply map_ext_in. intros j Hj. destruct (Z.eqb_spec j off) as [->|]; [|done].
        exfalso. apply Hni. by apply list_elem_of_In. }
      rewrite E. lia.
    + apply elem_of_cons in Hin as [?|Hin]; [congruence|].
      rewrite IH by assumption. lia.
Qed.

Lemma update_checksum_other_word (m : mem) (block off : Z) (i : Z) :
  i <> off ->
  rd32 (update_checksum m block off) (block + 4 * i) = rd32 m (block + 4 * i).
Proof.
  intros Hne. unfold update_checksum.
  rewrite rd32_wr32_other, rd32_store32_other by lia. reflexivity.
Qed.

Lemma update_checksum_other (m : mem) (block off : Z) (x : Z) :
  x < block + 4 * off \/ block + 4 * off + 4 <= x ->
  update_checksum m block off x = m x.
Proof.
  intros H. unfold update_checksum.
  rewrite wr32_other, store32_other by lia. reflexivity.
Qed.

Lemma block_words_without_update (m : mem) (block off : Z) :
  block_words_without (update_checksum m block off) block off
  = block_words_without m block off.
Proof.
  unfold block_words_without. apply map_ext. intros i.
  destruct (Z.eqb_spec i off); [done|].
  by apply update_checksum_other_word.
Qed.

Lemma update_checksum_word (m : mem) (block off : Z) :
  rd32 (update_checksum m block off) (block + 4 * off)
  = wrap32 (- sumZ (block_words_without m block off)).
Proof.
  unfold update_checksum. rewrite rd32_wr32_same, calculate_checksum_spec.
  rewrite wrap32_idem. f_equal. f_equal. f_equal.
  unfold block_words_without. apply map_ext. intros i.
  destruct (Z.eqb_spec i off); [done|].
  apply rd32_store32_other. lia.
Qed.

(** C2 *)
Theorem checksum_discipline (m : mem) (block off : Z) :
  calculate_checksum m block off
  = wrap32 (- sumZ (block_words_without m block off))
  /\ (0 <= off < 128 ->
      wrap32 (sumZ (block_words (update_checksum m block off) block)) = 0
      /\ calculate_checksum (update_checksum m block off) block off
         = rd32 (update_checksum m block off) (block + 4 * off)).
Proof.
  split; [apply calculate_checksum_spec|]. intros Hoff.
  set (m' := update_checksum m block off).
  assert (Hsplit : sumZ (block_words m' block)
                   = sumZ (block_words_without m' block off)
                     + rd32 m' (block + 4 * off)).
  { unfold block_words, block_words_without.
    apply (sumZ_split (fun i => rd32 m' (block + 4 * i))).
    - apply NoDup_seqZ.
    - apply elem_of_seqZ. lia. }
  split.
  - rewrite Hsplit. subst m'.
    rewrite block_words_without_update, update_checksum_word.
    unfold wrap32. rewrite Zplus_mod_idemp_r.
    rewrite Z.add_opp_diag_r. reflexivity.
  - subst m'. rewrite calculate_checksum_spec, block_words_without_update,
      update_checksum_word. reflexivity.
Qed.

Lemma checksum_discipline_witness :
  let m : mem := fun a => byte_of a in
  wrap32 (sumZ (block_words (update_checksum m 1024 5) 1024)) = 0.
Proof.
  intros m. apply (checksum_discipline m 1024 5). lia.
Defined.

(** ** Block access *)

Lemma get_block_Some (st : AdfImage) (b p : Z) :
  get_block st b = Some p ->
  p = b * BLOCK_SIZE /\ (b + 1) * BLOCK_SIZE <= file_size_ st /\ is_valid st = true.
Proof.
  unfold get_block. destruct (is_valid st); simpl; [|discriminate].
  destruct (Z.ltb_spec (file_size_ st) ((b + 1) * BLOCK_SIZE)); [discriminate|].
  intros [= <-]. auto.
Qed.

Lemma get_block_writable_Some (st : AdfImage) (b p : Z) :
  get_block_writable st b = Some p ->
  get_block st b = Some p /\ read_only_ st = false.
Proof.
  unfold get_block_writable, get_block.
  destruct (is_valid st); simpl; [|discriminate].
  destruct (read_only_ st); simpl; [discriminate|].
  destruct (_ <? _); [discriminate|]. auto.
Qed.

Lemma get_block_writable_rw (st : AdfImage) (b : Z) :
  read_only_ st = false -> get_block_writable st b = get_block st b.
Proof.
  intros H. unfold get_block_writable, get_block. rewrite H.
  destruct (is_valid st); reflexivity.
Qed.





(** ** Volume open *)

#[local] Arguments seqZ : simpl never.

Lemma fold_left_option_preserves {A B : Type} (P : A -> Prop)
    (f : A -> B -> option A) (l : list B) :
  (forall a b a', P a -> f a b = Some a' -> P a') ->
  forall acc a',
    (forall a, acc = Some a -> P a) ->
    fold_left (fun acc b => match acc with None => None | Some a => f a b end)
      l acc = Some a' ->
    P a'.
Proof.
  intros Hf. induction l as [|b l IH]; intros acc a' Hacc; simpl.
  - intros ->. by apply Hacc.
  - apply IH. intros a Ha. destruct acc as [a0|]; [|discriminate].
    eapply Hf; [|exact Ha]. by apply Hacc.
Qed.

Lemma fold_left_preserves {A B : Type} (P : A -> Prop) (f : A -> B -> A)
    (l : list B) :
  (forall a b, P a -> P (f a b)) -> forall a, P a -> P (fold_left f l a).
Proof.
  intros Hf. induction l as [|b l IH]; intros a Ha; simpl; auto.
Qed.

(** Whatever [mark_used] preserves, the whole scan of volume open preserves:
    the scan touches the handler through [mark_used] only. *)
Section MarkClosed.

Variable P : AdfImage -> Prop.
Hypothesis P_mark : forall st b, P st -> P (mark_used st b).

Lemma scan_data_chain_preserves fuel : forall st b st',
  P st -> scan_data_chain fuel st b = Some st' -> P st'.
Proof.
  induction fuel as [|fuel IH]; intros st b st' HP; cbn [scan_data_chain];
    [discriminate|].
  destruct (b =? 0); [by intros [= <-]|].
  destruct (get_block _ b); [|intros [= <-]; by apply P_mark].
  apply IH. by apply P_mark.
Qed.

Lemma scan_used_blocks_preserves fuel : forall st b st',
  P st -> scan_used_blocks fuel st b = Some st' -> P st'.
Proof.
  induction fuel as [|fuel IH]; intros st b st' HP; cbn [scan_used_blocks];
    [discriminate|].
  destruct (_ || _); [by intros [= <-]|].
  assert (HP1 := P_mark st b HP).
  set (st1 := mark_used st b) in *. clearbody st1.
  destruct (get_block st1 b) as [block|]; [|by intros [= <-]].
  set (sec := rds32 _ _). clearbody sec.
  assert (Htable : forall table st2 st3, P st2 ->
             fold_left
               (fun acc i =>
                  match acc with
                  | None => None
                  | Some st =>
                    if negb (rd32 (mapped_data_ st) (table + 4 * i) =? 0)
                    then scan_used_blocks fuel st
                           (rd32 (mapped_data_ st) (table + 4 * i))
                    else Some st
                  end) (seqZ 0 HASH_TABLE_SIZE) (Some st2) = Some st3 ->
             P st3).
  { intros table st2 st3 HP2.
    apply (fold_left_option_preserves P
             (fun st i => if negb (rd32 (mapped_data_ st) (table + 4 * i) =? 0)
                          then scan_used_blocks fuel st
                                 (rd32 (mapped_data_ st) (table + 4 * i))
                          else Some st)).
    - intros a i a' Ha. destruct (negb _); [by apply IH|by intros [= <-]].
    - by intros a [= <-]. }
  match goal with
  | |- match ?t with _ => _ end = _ -> _ => destruct t as [st2|] eqn:E2
  end; [|discriminate].
  assert (HP2 : P st2).
  { destruct (_ || _); [|by injection E2 as <-].
    destruct (b =? root_block_num_ st1); by eapply Htable. }
  match goal with
  | |- match ?t with _ => _ end = _ -> _ => destruct t as [st3|] eqn:E3
  end; [|discriminate].
  assert (HP3 : P st3).
  { destruct (sec =? ST_FILE); [|by injection E3 as <-].
    by eapply scan_data_chain_preserves. }
  destruct (negb _); [by apply IH|by intros [= <-]].
Qed.

Lemma parse_bitmap_bits_preserves bits : forall st base j w total,
  P st -> P (parse_bitmap_bits bits st base j w total).
Proof.
  induction bits as [|bit bits IH]; intros st base j w total HP;
    cbn [parse_bitmap_bits]; [done|].
  destruct (_ <=? _); [done|]. apply IH.
  destruct (negb _); [by apply P_mark|done].
Qed.

Lemma parse_bitmap_words_preserves st bitmap base total :
  P st -> P (parse_bitmap_words st bitmap base total).
Proof.
  unfold parse_bitmap_words. apply fold_left_preserves.
  intros a j. apply parse_bitmap_bits_preserves.
Qed.

Lemma parse_bitmap_pages_preserves pages : forall st root total,
  P st -> P (parse_bitmap_pages pages st root total).
Proof.
  induction pages as [|i pages IH]; intros st root total HP;
    cbn [parse_bitmap_pages]; [done|].
  destruct (_ =? 0); [done|].
  destruct (get_block _ _).
  - apply IH, parse_bitmap_words_preserves. by apply P_mark.
  - apply IH. by apply P_mark.
Qed.

End MarkClosed.

Lemma same_volume_refl st : same_volume st st.
Proof. by repeat split. Qed.

Lemma same_volume_trans st1 st2 st3 :
  same_volume st1 st2 -> same_volume st2 st3 -> same_volume st1 st3.
Proof.
  unfold same_volume. intros (?&?&?&?&?&?&?&?&?) (?&?&?&?&?&?&?&?&?).
  repeat split; congruence.
Qed.

Lemma same_volume_set_sets st f u : same_volume st (set_sets st f u).
Proof. by repeat split. Qed.

Lemma same_volume_mark st0 st b :
  same_volume st0 st -> same_volume st0 (mark_used st b).
Proof. intros H. eapply same_volume_trans; [exact H|apply same_volume_set_sets]. Qed.

Lemma same_volume_get_block st st' b :
  same_volume st st' -> get_block st' b = get_block st b.
Proof.
  intros (Hm&_&Hf&_). unfold get_block, is_valid. by rewrite Hm, Hf.
Qed.


(** The state [parse_bitmap] starts its scan from. *)
Lemma parse_bitmap_preserves (P : AdfImage -> Prop) fuel st st' :
  (forall st b, P st -> P (mark_used st b)) ->
  P (set_sets st
       (fold_left (fun f i => {[i]} ∪ f) (seqZ 2 (total_blocks st - 2)) ∅
          ∖ {[0]} ∖ {[1]})
       ({[1]} ∪ ({[0]} ∪ ∅))) ->
  parse_bitmap fuel st = Some st' ->
  P st' /\ (get_block st (root_block_num_ st) <> None ->
            root_block_num_ st ∈ used_blocks_ st').
Proof.
  intros Hmark. unfold parse_bitmap.
  set (st0 := set_sets st _ _). intros HP0.
  assert (Hsv0 : same_volume st st0) by apply same_volume_set_sets.
  rewrite (same_volume_get_block st st0) by done.
  change (root_block_num_ st0) with (root_block_num_ st).
  destruct (get_block st (root_block_num_ st)) as [root|] eqn:Hroot;
    [|intros [= <-]; by split].
  set (st1 := parse_bitmap_pages _ _ _ _).
  assert (HP1 : P st1 /\ same_volume st st1).
  { apply (parse_bitmap_pages_preserves (fun s => P s /\ same_volume st s)).
    - intros s b [? ?]. split; [by apply Hmark|by apply same_volume_mark].
    - by split. }
  destruct HP1 as [HP1 Hsv1]. clearbody st1. clearbody st0.
  set (st2 := mark_used st1 (root_block_num_ st1)).
  assert (HP2 : P st2) by by apply Hmark.
  assert (Hsv2 : same_volume st st2) by by apply same_volume_mark.
  assert (Hin2 : root_block_num_ st ∈ used_blocks_ st2).
  { destruct Hsv1 as (_&_&_&_&Hr&_). unfold st2. rewrite Hr.
    unfold mark_used, set_sets. cbn [used_blocks_]. set_solver. }
  clearbody st2.
  rewrite (same_volume_get_block st st2) by done.
  assert (Hr2 : root_block_num_ st2 = root_block_num_ st)
    by (by destruct Hsv2 as (_&_&_&_&Hr&_)).
  rewrite Hr2, Hroot. intros Hfold.
  pose (Q := fun s => P s /\ root_block_num_ st ∈ used_blocks_ s).
  assert (HQ : Q st').
  { revert Hfold.
    apply (fold_left_option_preserves Q
             (fun s i =>
                if negb (rd32 (mapped_data_ s) (root + RootBlock.hash_table i) =? 0)
                then scan_used_blocks fuel s
                       (rd32 (mapped_data_ s) (root + RootBlock.hash_table i))
                else Some s)).
    - intros a i a' Ha. destruct (negb _); [|by intros [= <-]].
      apply (scan_used_blocks_preserves Q); [|done].
      intros s b [? ?]. split; [by apply Hmark|].
      unfold mark_used, set_sets. cbn [used_blocks_]. set_solver.
    - intros a [= <-]. by split. }
  destruct HQ. by split.
Qed.

Lemma parse_filesystem_fields fuel st ok st' boot :
  get_block st 0 = Some boot ->
  parse_filesystem fuel st = Some (ok, st') ->
  dos_type_ st' = rd32 (mapped_data_ st) (boot + BootBlock.disk_type)
  /\ root_block_num_ st' = 880
  /\ is_ffs_ st'
     = ((dos_type_ st' =? DOS_FFS) || (dos_type_ st' =? DOS_FFS_INTL)
        || (dos_type_ st' =? DOS_FFS_DC))
  /\ mapped_data_ st' = mapped_data_ st
  /\ file_size_ st' = file_size_ st
  /\ (ok = true <->
      exists root,
        get_block st 880 = Some root
        /\ rd32 (mapped_data_ st) (root + RootBlock.type) = T_HEADER
        /\ (rds32 (mapped_data_ st) (root + RootBlock.sec_type) = ST_ROOT
            \/ rds32 (mapped_data_ st) (root + RootBlock.sec_type) = 0)).
Proof.
  intros Hboot. unfold parse_filesystem. rewrite Hboot.
  set (dos := rd32 _ _).
  set (st1 := mkAdfImage _ _ _ _ _ _ _ _ _ _ _).
  assert (Hg : forall b, get_block st1 b = get_block st b) by done.
  rewrite Hg. change (root_block_num_ st1) with 880.
  change (mapped_data_ st1) with (mapped_data_ st).
  destruct (get_block st 880) as [root|] eqn:Hroot.
  2:{ intros [= <- <-]. repeat split; try done. by intros (?&?&_). }
  destruct (Z.eqb_spec (rd32 (mapped_data_ st) (root + RootBlock.type)) T_HEADER)
    as [Ht|Ht]; cbn [negb].
  2:{ intros [= <- <-]. repeat split; try done. intros (r&[= <-]&?&_). done. }
  destruct (Z.eqb_spec (rds32 (mapped_data_ st) (root + RootBlock.sec_type)) ST_ROOT)
    as [Hs|Hs]; cbn [negb andb].
  2: destruct (Z.eqb_spec (rds32 (mapped_data_ st) (root + RootBlock.sec_type)) 0)
    as [Hz|Hz]; cbn [negb].
  3:{ intros [= <- <-]. repeat split; try done.
      intros (r&[= <-]&_&[?|?]); done. }
  all: match goal with
       | |- match parse_bitmap ?f ?s with _ => _ end = _ -> _ =>
         destruct (parse_bitmap f s) as [st2|] eqn:Hpb; [|discriminate];
         apply (parse_bitmap_preserves (same_volume s)) in Hpb as [Hsv _];
         [|by intros; apply same_volume_mark|apply same_volume_set_sets]
       end.
  all: intros [= <- <-].
  all: destruct Hsv as (?&Hm&Hf&Hd&Hr&?&Hffs&?&?).
  all: rewrite ?Hm, ?Hf, ?Hd, ?Hr, ?Hffs; repeat split; try done.
  all: intros _; exists root; auto.
Qed.

(** ** Running the model on concrete volumes *)

Lemma run_Some {A : Type} (d : A) (r : option A) :
  (match r with Some _ => true | None => false end) = true ->
  r = Some (run d r).
Proof. destruct r; [reflexivity|discriminate]. Qed.

Lemma run_pair {A B : Type} (d : A * B) (r : option (A * B)) (a : A) :
  (match r with Some _ => true | None => false end) = true ->
  fst (run d r) = a ->
  r = Some (a, snd (run d r)).
Proof. destruct r as [[? ?]|]; [|discriminate]. simpl. by intros _ ->. Qed.

Lemma fresh_volume_parse :
  parse_filesystem 8 fresh_image = Some (true, fresh_volume).
Proof. apply run_pair; vm_compute; reflexivity. Qed.

(** C8 (as amended): the FFS flag is set exactly when the whole 32-bit DOS
    type is one of the three FFS tags, that is when the low byte is 1, 3 or 5
    and the upper three bytes spell "DOS"; the root block is 880 whatever
    the DOS type is, and the DOS type plays no part in accepting the image. *)
Theorem ffs_flag_from_dos_type (fuel : nat) (st st' : AdfImage) (ok : bool)
    (boot : Z) :
  get_block st 0 = Some boot ->
  parse_filesystem fuel st = Some (ok, st') ->
  let dos := rd32 (mapped_data_ st) (boot + BootBlock.disk_type) in
  (is_ffs_ st' = true <->
     dos / 256 = 0x444F53 /\ (dos mod 256 = 1 \/ dos mod 256 = 3 \/ dos mod 256 = 5))
  /\ root_block_num_ st' = 880
  /\ (ok = true <->
      exists root,
        get_block st 880 = Some root
        /\ rd32 (mapped_data_ st) (root + RootBlock.type) = T_HEADER
        /\ (rds32 (mapped_data_ st) (root + RootBlock.sec_type) = ST_ROOT
            \/ rds32 (mapped_data_ st) (root + RootBlock.sec_type) = 0)).
Proof.
  intros Hboot Hparse dos.
  destruct (parse_filesystem_fields _ _ _ _ _ Hboot Hparse)
    as (Hdos & Hroot & Hffs & _ & _ & Hok).
  fold dos in Hdos. rewrite Hdos in Hffs.
  split; [|by split].
  rewrite Hffs. unfold DOS_FFS, DOS_FFS_INTL, DOS_FFS_DC.
  rewrite !orb_true_iff, !Z.eqb_eq.
  split.
  - intros [[->| ->]| ->]; by vm_compute; auto.
  - intros [Hhi Hlo]. pose proof (Z.div_mod dos 256). lia.
Qed.

Lemma ffs_flag_from_dos_type_witness :
  is_ffs_ fresh_volume = true <->
  rd32 fresh_mem 0 / 256 = 0x444F53
  /\ (rd32 fresh_mem 0 mod 256 = 1 \/ rd32 fresh_mem 0 mod 256 = 3
      \/ rd32 fresh_mem 0 mod 256 = 5).
Proof.
  apply (ffs_flag_from_dos_type 8 fresh_image fresh_volume true 0).
  - vm_compute. reflexivity.
  - apply fresh_volume_parse.
Defined.

(** C8, as the specification words it, fails: this image has the low DOS
    byte 1 and is accepted with root block 880, yet the FFS flag stays off
    because the prefix is not "DOS". *)
Lemma ffs_flag_low_byte_counterexample :
  let r := run (false, odd_dos_image) (parse_filesystem 8 odd_dos_image) in
  fst r = true
  /\ root_block_num_ (snd r) = 880
  /\ rd32 (mapped_data_ odd_dos_image) (0 + BootBlock.disk_type) mod 256 = 1
  /\ is_ffs_ (snd r) = false.
Proof. vm_compute. auto. Qed.


(** ** The block allocator *)

Lemma fold_right_min_le (x : Z) (l : list Z) :
  fold_right Z.min x l <= x /\ Forall (fun y => fold_right Z.min x l <= y) l.
Proof.
  induction l as [|y l [IH1 IH2]]; simpl; [split; [lia|constructor]|].
  split; [lia|]. constructor; [lia|].
  eapply Forall_impl; [exact IH2|]. simpl. intros; lia.
Qed.

Lemma fold_right_min_in (x : Z) (l : list Z) :
  fold_right Z.min x l ∈ x :: l.
Proof.
  induction l as [|y l IH]; simpl; [by left|].
  destruct (Z.min_spec y (fold_right Z.min x l)) as [[_ ->]|[_ ->]].
  - right. by left.
  - apply elem_of_cons in IH as [->|IH]; [by left|by do 2 right].
Qed.

Lemma set_begin_Some (s : gset Z) (b : Z) :
  set_begin s = Some b -> b ∈ s /\ forall x, x ∈ s -> b <= x.
Proof.
  unfold set_begin. destruct (elements s) as [|x l] eqn:E; [discriminate|].
  intros [= <-]. split.
  - apply elem_of_elements. rewrite E. apply fold_right_min_in.
  - intros y Hy. apply elem_of_elements in Hy. rewrite E in Hy.
    destruct (fold_right_min_le x l) as [H1 H2].
    apply elem_of_cons in Hy as [->|Hy]; [done|].
    rewrite Forall_forall in H2. by apply H2.
Qed.

Lemma set_begin_None (s : gset Z) : set_begin s = None -> s = ∅.
Proof.
  unfold set_begin. destruct (elements s) eqn:E; [|discriminate].
  intros _. by apply elements_empty_inv in E as ->%leibniz_equiv.
Qed.

Lemma update_bitmap_same_volume st b is_free :
  exists m, update_bitmap_for_block st b is_free = set_mem st m.
Proof.
  unfold update_bitmap_for_block.
  assert (Hid : set_mem st (mapped_data_ st) = st) by by destruct st.
  repeat match goal with
         | |- context [if ?c then _ else _] => destruct c
         | |- context [match ?c with Some _ => _ | None => _ end] => destruct c
         end; eauto.
Qed.

(** [allocate_block] either fails and leaves the handler alone, or moves the
    least free block to the used set and rewrites memory. *)
Lemma allocate_block_cases (st : AdfImage) :
  allocate_block st = (0, st)
  \/ exists b m,
       set_begin (free_blocks_ st) = Some b
       /\ allocate_block st
          = (b, set_mem (set_sets st (free_blocks_ st ∖ {[b]})
                           ({[b]} ∪ used_blocks_ st)) m).
Proof.
  unfold allocate_block.
  destruct (set_begin (free_blocks_ st)) as [b|]; [|by left].
  destruct (25 <=? b / 4064); [by left|].
  destruct (get_block st (root_block_num_ st)) as [root|]; [|by left].
  destruct (_ =? 0); [by left|]. right.
  set (st1 := set_sets st _ _).
  destruct (update_bitmap_same_volume st1 b false) as [m1 ->].
  destruct (get_block_writable _ b); eauto.
Qed.

Lemma free_block_cases (st : AdfImage) (b : Z) :
  (((b <? 2) || (b =? root_block_num_ st)) = true /\ free_block st b = st)
  \/ (((b <? 2) || (b =? root_block_num_ st)) = false
      /\ exists m,
          free_block st b
          = set_mem (set_sets st ({[b]} ∪ free_blocks_ st)
                       (used_blocks_ st ∖ {[b]})) m).
Proof.
  unfold free_block. destruct (_ || _); [by left|]. right. split; [done|].
  apply update_bitmap_same_volume.
Qed.













(** ** What every operation preserves

    The operations change the handler through four primitives only: a memory
    write, a cache update, [allocate_block] and [free_block].  A predicate
    closed under the four holds after every operation. *)

#[local] Arguments seqZ : simpl never.

Section OpClosed.

Variable P : AdfImage -> Prop.
Hypothesis P_mem : forall st m, P st -> P (set_mem st m).
Hypothesis P_cache : forall st c, P st -> P (set_cache st c).
Hypothesis P_alloc : forall st, P st -> P (snd (allocate_block st)).
Hypothesis P_free : forall st b, P st -> P (free_block st b).

Lemma lookup_preserves fuel :
  (forall now st path r st',
     P st -> list_directory fuel now st path = Some (r, st') -> P st')
  /\ (forall now st path r st',
        P st -> get_entry fuel now st path = Some (r, st') -> P st')
  /\ (forall now st path r st',
        P st -> find_directory_block fuel now st path = Some (r, st') -> P st').
Proof.
  induction fuel as [|fuel (IHl & IHg & IHf)];
    [repeat split; intros; discriminate|].
  repeat split; intros now st path r st' HP.
  - cbn [list_directory].
    destruct (get_cached_dir st path); [by intros [= <- <-]|].
    destruct (find_directory_block fuel now st path) as [[d st1]|] eqn:E;
      [|discriminate].
    apply IHf in E; [|done].
    destruct (d =? 0); [by intros [= <- <-]|].
    destruct (get_block st1 d); [|by intros [= <- <-]].
    destruct (list_slots _ _ _ _); [|discriminate].
    intros [= <- <-]. by apply P_cache.
  - cbn [get_entry].
    destruct (is_root_path path); [by intros [= <- <-]|].
    destruct (list_directory fuel now st _) as [[[l|] st1]|] eqn:E;
      [| |discriminate]; apply IHl in E; try done; by intros [= <- <-].
  - cbn [find_directory_block].
    destruct (is_root_path path); [by intros [= <- <-]|].
    destruct (get_entry fuel now st path) as [[[e|] st1]|] eqn:E;
      [| |discriminate]; apply IHg in E; try done.
    + destruct (is_directory e); by intros [= <- <-].
    + by intros [= <- <-].
Qed.

Lemma get_entry_preserves fuel now st path r st' :
  P st -> get_entry fuel now st path = Some (r, st') -> P st'.
Proof. apply lookup_preserves. Qed.

Lemma find_directory_block_preserves fuel now st path r st' :
  P st -> find_directory_block fuel now st path = Some (r, st') -> P st'.
Proof. apply lookup_preserves. Qed.

Lemma list_directory_preserves fuel now st path r st' :
  P st -> list_directory fuel now st path = Some (r, st') -> P st'.
Proof. apply lookup_preserves. Qed.

Lemma link_data_block_preserves st fb prev nb :
  P st -> P (link_data_block st fb prev nb).
Proof.
  intros HP. unfold link_data_block.
  destruct (negb _); [|by apply P_mem].
  destruct (get_block_writable st prev); [by apply P_mem|done].
Qed.

Lemma write_bridge_preserves fuel : forall st fbn fb target cur prev pos,
  P st ->
  match write_bridge fuel st fbn fb target cur prev pos with
  | inl (_, st') => P st'
  | inr (st', _, _, _) => P st'
  end.
Proof.
  induction fuel as [|fuel IH]; intros st fbn fb target cur prev pos HP;
    cbn [write_bridge]; (destruct (target <? pos + 488); [done|]); [done|].
  pose proof (P_alloc st HP) as HPa.
  destruct (allocate_block st) as [nb st1]. cbn [snd] in HPa.
  destruct (nb =? 0); [done|].
  destruct (get_block_writable st1 nb) as [nd|]; [|done].
  apply IH. apply P_mem. apply link_data_block_preserves. by apply P_mem.
Qed.

Lemma write_loop_preserves fuel :
  forall st now fbn fb data size cur prev pos written wpos,
  P st ->
  P (snd (write_loop fuel st now fbn fb data size cur prev pos written wpos)).
Proof.
  induction fuel as [|fuel IH];
    intros st now fbn fb data size cur prev pos written wpos HP;
    cbn [write_loop]; (destruct (size <=? written); [by apply P_mem|]); [done|].
  destruct (cur =? 0).
  - pose proof (P_alloc st HP) as HPa.
    destruct (allocate_block st) as [nb st1]. cbn [snd] in HPa.
    destruct (nb =? 0); [done|].
    destruct (get_block_writable st1 nb) as [nd|] eqn:Hnd; [|done].
    set (st2 := set_mem (link_data_block _ _ _ _) _).
    assert (HP2 : P st2).
    { apply P_mem, link_data_block_preserves. by apply P_mem. }
    clearbody st2.
    destruct (get_block_writable st2 nb); [|done].
    destruct (488 <=? _); [done|].
    destruct (488 <=? _); apply IH; by apply P_mem.
  - destruct (get_block_writable st cur); [|done].
    destruct (488 <=? _); [done|].
    destruct (488 <=? _); apply IH; by apply P_mem.
Qed.

Lemma write_file_preserves st now fbn data size offset :
  P st -> P (snd (write_file st now fbn data size offset)).
Proof.
  intros HP. unfold write_file.
  destruct (read_only_ st); [done|]. destruct (fbn =? 0); [done|].
  destruct (get_block_writable st fbn) as [fb|]; [|done].
  set (st1 := if negb _ then _ else st).
  assert (HP1 : P st1).
  { unfold st1. destruct (negb _); [by apply P_mem|done]. }
  clearbody st1.
  set (first := if _ && _ then _ else _).
  assert (Hfirst : match first with
                   | inl (_, s) => P s
                   | inr (s, _) => P s
                   end).
  { unfold first. destruct (_ && _); [|done].
    pose proof (P_alloc st1 HP1) as HPa.
    destruct (allocate_block st1) as [nb st2]. cbn [snd] in HPa.
    destruct (nb =? 0); [done|].
    destruct (get_block_writable _ nb); [|by apply P_mem].
    by do 2 apply P_mem. }
  destruct first as [[r s]|[s fd]]; [done|].
  destruct (write_walk _ s offset fd 0 0) as [[[cur prev] pos]|]; [|done].
  pose proof (write_bridge_preserves (Z.to_nat (offset / 488 + 1)) s fbn fb
                offset cur prev pos Hfirst) as Hb.
  destruct (write_bridge _ _ _ _ _ _ _ _) as [[r s2]|[[[s2 c2] p2] q2]];
    [done|].
  by apply write_loop_preserves.
Qed.

Lemma add_to_directory_preserves st now d f nm :
  P st -> P (add_to_directory st now d f nm).
Proof.
  intros HP. unfold add_to_directory.
  destruct (d =? _); (destruct (get_block_writable st d); [by apply P_mem|done]).
Qed.

Lemma remove_from_chain_preserves fuel : forall st start target r st',
  P st -> remove_from_chain fuel st start target = Some (r, st') -> P st'.
Proof.
  induction fuel as [|fuel IH]; intros st start target r st' HP;
    cbn [remove_from_chain]; [discriminate|].
  destruct (start =? 0); [by intros [= <- <-]|].
  destruct (get_block_writable st start); [|by intros [= <- <-]].
  destruct (_ =? target); [intros [= <- <-]; by apply P_mem|by apply IH].
Qed.

Lemma remove_from_directory_preserves fuel st now d f nm st' :
  P st -> remove_from_directory fuel st now d f nm = Some st' -> P st'.
Proof.
  intros HP. unfold remove_from_directory.
  destruct (d =? _).
  - destruct (get_block_writable st d); [|by intros [= <-]].
    destruct (_ =? f); [intros [= <-]; by apply P_mem|].
    destruct (remove_from_chain _ _ _ _) as [[[] s]|] eqn:E; [| |discriminate];
      apply remove_from_chain_preserves in E; try done; intros [= <-];
      [by apply P_mem|done].
  - destruct (get_block_writable st d); [|by intros [= <-]].
    destruct (_ =? f); [intros [= <-]; by apply P_mem|].
    destruct (remove_from_chain _ _ _ _) as [[[] s]|] eqn:E; [| |discriminate];
      apply remove_from_chain_preserves in E; try done; intros [= <-];
      [by apply P_mem|done].
Qed.

Lemma free_chain_preserves fuel : forall st b st',
  P st -> free_chain fuel st b = Some st' -> P st'.
Proof.
  induction fuel as [|fuel IH]; intros st b st' HP; cbn [free_chain];
    [discriminate|].
  destruct (b =? 0); [by intros [= <-]|].
  apply IH. by apply P_free.
Qed.

Lemma create_file_preserves fuel st now path r st' :
  P st -> create_file fuel st now path = Some (r, st') -> P st'.
Proof.
  intros HP. unfold create_file.
  destruct (read_only_ st); [by intros [= <- <-]|].
  destruct (_ <? _); [by intros [= <- <-]|].
  destruct (get_entry fuel now st path) as [[[e|] st1]|] eqn:E1;
    [| |discriminate]; apply get_entry_preserves in E1; try done;
    [by intros [= <- <-]|].
  destruct (find_directory_block fuel now st1 _) as [[pb st2]|] eqn:E2;
    [|discriminate]; apply find_directory_block_preserves in E2; [|done].
  destruct (pb =? 0); [by intros [= <- <-]|].
  pose proof (P_alloc st2 E2) as HPa.
  destruct (allocate_block st2) as [nb st3]. cbn [snd] in HPa.
  destruct (nb =? 0); [by intros [= <- <-]|].
  destruct (get_block_writable st3 nb); [|intros [= <- <-]; by apply P_free].
  destruct (unix_to_amiga_time now) as [[days mins] ticks].
  intros [= <- <-]. apply P_cache, add_to_directory_preserves. by apply P_mem.
Qed.

Lemma create_directory_preserves fuel st now path r st' :
  P st -> create_directory fuel st now path = Some (r, st') -> P st'.
Proof.
  intros HP. unfold create_directory.
  destruct (read_only_ st); [by intros [= <- <-]|].
  destruct (_ <? _); [by intros [= <- <-]|].
  destruct (get_entry fuel now st path) as [[[e|] st1]|] eqn:E1;
    [| |discriminate]; apply get_entry_preserves in E1; try done;
    [by intros [= <- <-]|].
  destruct (find_directory_block fuel now st1 _) as [[pb st2]|] eqn:E2;
    [|discriminate]; apply find_directory_block_preserves in E2; [|done].
  destruct (pb =? 0); [by intros [= <- <-]|].
  pose proof (P_alloc st2 E2) as HPa.
  destruct (allocate_block st2) as [nb st3]. cbn [snd] in HPa.
  destruct (nb =? 0); [by intros [= <- <-]|].
  destruct (get_block_writable st3 nb); [|intros [= <- <-]; by apply P_free].
  destruct (unix_to_amiga_time now) as [[days mins] ticks].
  intros [= <- <-]. apply P_cache, add_to_directory_preserves. by apply P_mem.
Qed.

Lemma delete_file_preserves fuel st now path r st' :
  P st -> delete_file fuel st now path = Some (r, st') -> P st'.
Proof.
  intros HP. unfold delete_file.
  destruct (read_only_ st); [by intros [= <- <-]|].
  destruct (get_entry fuel now st path) as [[[e|] st1]|] eqn:E1;
    [| |discriminate]; apply get_entry_preserves in E1; try done;
    [|by intros [= <- <-]].
  destruct (is_directory e); [by intros [= <- <-]|].
  destruct (find_directory_block fuel now st1 _) as [[pb st2]|] eqn:E2;
    [|discriminate]; apply find_directory_block_preserves in E2; [|done].
  destruct (remove_from_directory _ _ _ _ _ _) as [st3|] eqn:E3; [|discriminate].
  apply remove_from_directory_preserves in E3; [|done].
  destruct (get_block st3 (block_num e)).
  - destruct (free_chain _ _ _) as [st4|] eqn:E4; [|discriminate].
    apply free_chain_preserves in E4; [|done].
    intros [= <- <-]. by apply P_cache, P_free.
  - intros [= <- <-]. by apply P_cache, P_free.
Qed.

Lemma delete_directory_preserves fuel st now path r st' :
  P st -> delete_directory fuel st now path = Some (r, st') -> P st'.
Proof.
  intros HP. unfold delete_directory.
  destruct (read_only_ st); [by intros [= <- <-]|].
  destruct (is_root_path path); [by intros [= <- <-]|].
  destruct (get_entry fuel now st path) as [[[e|] st1]|] eqn:E1;
    [| |discriminate]; apply get_entry_preserves in E1; try done;
    [|by intros [= <- <-]].
  destruct (negb _); [by intros [= <- <-]|].
  destruct (list_directory fuel now st1 path) as [[c st2]|] eqn:E2;
    [|discriminate]; apply list_directory_preserves in E2; [|done].
  match goal with |- (if ?c then _ else _) = _ -> _ => destruct c end;
    [by intros [= <- <-]|].
  destruct (find_directory_block fuel now st2 _) as [[pb st3]|] eqn:E3;
    [|discriminate]; apply find_directory_block_preserves in E3; [|done].
  destruct (remove_from_directory _ _ _ _ _ _) as [st4|] eqn:E4; [|discriminate].
  apply remove_from_directory_preserves in E4; [|done].
  intros [= <- <-]. by apply P_cache, P_free.
Qed.

Lemma truncate_file_preserves fuel st now path size r st' :
  P st -> truncate_file fuel st now path size = Some (r, st') -> P st'.
Proof.
  intros HP. unfold truncate_file.
  destruct (read_only_ st); [by intros [= <- <-]|].
  destruct (get_entry fuel now st path) as [[[e|] st1]|] eqn:E1;
    [| |discriminate]; apply get_entry_preserves in E1; try done;
    [|by intros [= <- <-]].
  destruct (is_directory e); [by intros [= <- <-]|].
  destruct (get_block_writable st1 (block_num e)) as [file|];
    [|by intros [= <- <-]].
  destruct (size =? _); [by intros [= <- <-]|].
  match goal with
  | |- match ?s with _ => _ end = _ -> _ => destruct s as [st2|] eqn:E2
  end; [|discriminate].
  intros [= <- <-]. apply P_mem.
  destruct (size <? _); [|by injection E2 as <-].
  destruct (_ <? _); [|by injection E2 as <-].
  destruct (truncate_walk _ _ _ _) as [db prev].
  destruct (free_chain fuel st1 db) as [st3|] eqn:E3; [|discriminate].
  apply free_chain_preserves in E3; [|done].
  destruct (negb _).
  - destruct (get_block_writable st3 prev); injection E2 as <-;
      [by apply P_mem|done].
  - destruct (size =? 0); injection E2 as <-; [by apply P_mem|done].
Qed.

End OpClosed.

(** ** The free/used partition *)




(** ** Directory listing *)

#[local] Arguments seqZ : simpl never.

Lemma list_chain_spec (st : AdfImage) (b : Z) (l : list Z) :
  hash_chain_from st b l ->
  forall fuel entries,
    (length l < fuel)%nat ->
    list_chain fuel st b entries
    = Some (entries ++ flat_map (header_entries st) l).
Proof.
  induction 1 as [b Hend|b block l Hb Hblock Hchain IH]; intros fuel entries Hfuel.
  - destruct fuel as [|fuel]; [simpl in Hfuel; lia|]. cbn [list_chain flat_map].
    rewrite app_nil_r.
    destruct (Z.eqb_spec b 0); [done|].
    destruct Hend as [?| ->]; done.
  - destruct fuel as [|fuel]; [simpl in Hfuel; lia|]. cbn [list_chain flat_map].
    destruct (Z.eqb_spec b 0); [done|].
    rewrite Hblock. unfold header_entries at 1. rewrite Hblock.
    cbn [length] in Hfuel.
    destruct (String.eqb _ ""); rewrite IH by lia; [done|].
    by rewrite <- app_assoc.
Qed.

Lemma list_slots_spec (st : AdfImage) (dir_block dir : Z) (chains : Z -> list Z)
    (fuel : nat) :
  (forall i, 0 <= i < HASH_TABLE_SIZE ->
     hash_chain_from st (rd32 (mapped_data_ st) (slot_addr st dir_block dir i))
       (chains i)) ->
  (forall i, 0 <= i < HASH_TABLE_SIZE -> (length (chains i) < fuel)%nat) ->
  list_slots fuel st dir_block dir = Some (listing_of st chains).
Proof.
  intros Hchains Hfuel. unfold list_slots, listing_of.
  assert (Hgen : forall (idx : list Z) entries,
             (forall i, i ∈ idx -> 0 <= i < HASH_TABLE_SIZE) ->
             fold_left
               (fun acc i =>
                  match acc with
                  | None => None
                  | Some entries =>
                    list_chain fuel st
                      (rd32 (mapped_data_ st)
                         (if dir_block =? root_block_num_ st
                          then dir + RootBlock.hash_table i
                          else dir + FileBlock.data_blocks i)) entries
                  end) idx (Some entries)
             = Some (entries
                     ++ flat_map (fun i => flat_map (header_entries st) (chains i))
                          idx)).
  { induction idx as [|i idx IH]; intros entries Hidx; cbn [fold_left flat_map].
    - by rewrite app_nil_r.
    - assert (Hi : 0 <= i < HASH_TABLE_SIZE) by (apply Hidx; by left).
      rewrite (list_chain_spec st _ (chains i)); [|by apply Hchains|by apply Hfuel].
      rewrite IH; [by rewrite <- app_assoc|].
      intros j Hj. apply Hidx. by right. }
  rewrite Hgen; [done|]. intros i Hi. apply elem_of_seqZ in Hi. lia.
Qed.

(** C7: on a cache miss [list_directory] walks each of the 72 hash chains of
    the directory to its terminator and lists every header on it; a header
    with an empty name adds no entry and the walk goes on behind it. *)
Theorem directory_listing_walk (fuel : nat) (now : Z) (st st1 : AdfImage)
    (path : string) (dir_block dir : Z) (chains : Z -> list Z) :
  get_cached_dir st path = None ->
  find_directory_block fuel now st path = Some (dir_block, st1) ->
  dir_block <> 0 ->
  get_block st1 dir_block = Some dir ->
  (forall i, 0 <= i < HASH_TABLE_SIZE ->
     hash_chain_from st1 (rd32 (mapped_data_ st1) (slot_addr st1 dir_block dir i))
       (chains i)) ->
  (forall i, 0 <= i < HASH_TABLE_SIZE -> (length (chains i) <= fuel)%nat) ->
  list_directory (S fuel) now st path
  = Some (Some (listing_of st1 chains),
          cache_directory st1 path (listing_of st1 chains))
  /\ (forall i b block,
        0 <= i < HASH_TABLE_SIZE -> b ∈ chains i ->
        get_block st1 b = Some block ->
        let name := BcplString.read (mapped_data_ st1)
                      (block + FileBlock.filename) BCPL_STRING_MAX in
        if String.eqb name ""
        then forall e, e ∈ listing_of st1 chains -> block_num e <> b
        else entry_of (mapped_data_ st1) block b name ∈ listing_of st1 chains).
Proof.
  intros Hcache Hfind Hdir Hblock Hchains Hfuel. split.
  - cbn [list_directory]. rewrite Hcache, Hfind.
    destruct (Z.eqb_spec dir_block 0); [done|]. rewrite Hblock.
    rewrite (list_slots_spec st1 dir_block dir chains); [done|done|].
    intros i Hi. specialize (Hfuel i Hi). lia.
  - intros i b block Hi Hb Hbb name.
    destruct (String.eqb name "") eqn:Hname.
    + intros e He Heb. exfalso. unfold listing_of in He.
      apply list_elem_of_In, in_flat_map in He as (j & _ & He).
      apply in_flat_map in He as (b' & _ & He).
      unfold header_entries in He.
      destruct (get_block st1 b') as [block'|] eqn:Hb'; [|exact He].
      destruct (String.eqb
                  (BcplString.read (mapped_data_ st1)
                     (block' + FileBlock.filename) BCPL_STRING_MAX) "")
        eqn:Hname'; [exact He|].
      destruct He as [<-|[]]. cbn in Heb. subst b'.
      rewrite Hbb in Hb'. injection Hb' as <-.
      fold name in Hname'. congruence.
    + unfold listing_of. apply list_elem_of_In, in_flat_map.
      exists i. split; [apply list_elem_of_In, elem_of_seqZ; lia|].
      apply in_flat_map. exists b. split; [by apply list_elem_of_In|].
      unfold header_entries. rewrite Hbb. fold name. rewrite Hname. by left.
Qed.

(** ** Reading a file *)

#[local] Arguments seqZ : simpl never.

Lemma data_block_at_zero st k : data_block_at st 0 k = None.
Proof. by destruct k. Qed.

Lemma data_block_at_null st b k :
  get_block st b = None -> data_block_at st b k = None.
Proof. intros H. destruct k; cbn [data_block_at]; rewrite H; by destruct (b =? 0). Qed.

Lemma data_block_at_S st b db k :
  b <> 0 -> get_block st b = Some db ->
  data_block_at st b (S k)
  = data_block_at st (rd32 (mapped_data_ st) (db + DataBlock.next_data)) k.
Proof.
  intros Hb Hdb. cbn [data_block_at]. rewrite Hdb.
  by destruct (Z.eqb_spec b 0).
Qed.

Lemma data_block_at_O st b db :
  b <> 0 -> get_block st b = Some db -> data_block_at st b O = Some db.
Proof.
  intros Hb Hdb. cbn [data_block_at]. rewrite Hdb.
  by destruct (Z.eqb_spec b 0).
Qed.

(** The seek loop leaves the cursor on the chain suffix at [steps]. *)
Lemma read_seek_spec steps : forall st b j,
  data_block_at st (read_seek steps st b) j = data_block_at st b (steps + j).
Proof.
  induction steps as [|steps IH]; intros st b j; cbn [read_seek]; [done|].
  destruct (Z.eqb_spec b 0) as [->|Hb]; [by rewrite !data_block_at_zero|].
  destruct (get_block st b) as [db|] eqn:Hdb.
  - rewrite IH. cbn [Nat.add]. by rewrite (data_block_at_S st b db).
  - by rewrite data_block_at_zero, data_block_at_null.
Qed.

Lemma seqZ_shift (q n : Z) : seqZ q n = List.map (Z.add q) (seqZ 0 n).
Proof.
  pose proof (fmap_add_seqZ q 0 n) as H. rewrite Z.add_0_r in H.
  symmetry. exact H.
Qed.

Lemma length_bytes_at m a n : length (BcplString.bytes_at m a n) = Z.to_nat n.
Proof. unfold BcplString.bytes_at. by rewrite length_map, length_seqZ. Qed.

Lemma map_const {A B : Type} (f : A -> B) (c : B) (l : list A) :
  (forall x, x ∈ l -> f x = c) -> List.map f l = repeat c (length l).
Proof.
  induction l as [|x l IH]; intros H; cbn [List.map repeat length]; [done|].
  rewrite H by (by left). f_equal. apply IH. intros y Hy. apply H. by right.
Qed.

Lemma map_const_seqZ {A : Type} (f : Z -> A) (c : A) (a n : Z) :
  (forall p, a <= p < a + n -> f p = c) ->
  List.map f (seqZ a n) = repeat c (Z.to_nat n).
Proof.
  intros H. rewrite <- (length_seqZ a n). apply map_const.
  intros x Hx. apply elem_of_seqZ in Hx. by apply H.
Qed.

(** The bytes of a file between [q] and [q + n], when the whole range lies in
    the data block at [db]. *)
Lemma file_bytes_in_block st first db q n :
  0 <= q -> 0 <= n -> q mod 488 + n <= 488 ->
  data_block_at st first (Z.to_nat (q / 488)) = Some db ->
  let m := mapped_data_ st in
  let db_size := Z.min 488 (rd32 m (db + DataBlock.data_size)) in
  let take := if q mod 488 <? db_size
              then Z.min n (db_size - q mod 488) else 0 in
  List.map (file_byte st first) (seqZ q n)
  = BcplString.bytes_at m (db + DataBlock.data + q mod 488) take
    ++ repeat Byte.x00 (Z.to_nat (n - take)).
Proof.
  intros Hq Hn Hfit Hdb m db_size take.
  pose proof (rd32_range m (db + DataBlock.data_size)) as Hds.
  assert (Htake : 0 <= take <= n).
  { unfold take. destruct (Z.ltb_spec (q mod 488) db_size); lia. }
  assert (Hpos : forall p, q <= p < q + n ->
                   p / 488 = q / 488 /\ p mod 488 = q mod 488 + (p - q)).
  { intros p Hp. pose proof (Z.mod_pos_bound q 488).
    pose proof (Z.div_mod q 488). 
    assert (p = 488 * (q / 488) + (q mod 488 + (p - q))) by lia.
    split.
    - symmetry. apply (Z.div_unique p 488 (q / 488) (q mod 488 + (p - q))); lia.
    - symmetry. apply (Z.mod_unique p 488 (q / 488) (q mod 488 + (p - q))); lia. }
  replace n with (take + (n - take)) at 1 by lia.
  rewrite seqZ_app, map_app by lia. f_equal.
  - unfold BcplString.bytes_at. rewrite (seqZ_shift q), map_map.
    apply map_ext_in. intros i Hi.
    apply list_elem_of_In, elem_of_seqZ in Hi.
    destruct (Hpos (q + i)) as [Hd Hm]; [lia|].
    unfold file_byte. rewrite Hd, Hdb, Hm. fold m.
    replace (q + i - q) with i by lia.
    destruct (Z.ltb_spec (q mod 488 + i) (rd32 m (db + DataBlock.data_size)));
      [f_equal; lia|].
    exfalso. unfold take in *.
    destruct (Z.ltb_spec (q mod 488) db_size); lia.
  - apply map_const_seqZ. intros p Hp.
    destruct (Hpos p) as [Hd Hm]; [lia|].
    unfold file_byte. rewrite Hd, Hdb, Hm. fold m.
    destruct (Z.ltb_spec (q mod 488 + (p - q)) (rd32 m (db + DataBlock.data_size)));
      [|done].
    exfalso. unfold take in *.
    destruct (Z.ltb_spec (q mod 488) db_size); lia.
Qed.

(** The same range when the chain has no block there. *)
Lemma file_bytes_in_hole st first q n :
  0 <= q -> 0 <= n -> q mod 488 + n <= 488 ->
  data_block_at st first (Z.to_nat (q / 488)) = None ->
  List.map (file_byte st first) (seqZ q n) = repeat Byte.x00 (Z.to_nat n).
Proof.
  intros Hq Hn Hfit Hdb. apply map_const_seqZ. intros p Hp.
  assert (Hd : p / 488 = q / 488).
  { pose proof (Z.mod_pos_bound q 488). pose proof (Z.div_mod q 488).
    symmetry. apply (Z.div_unique p 488 (q / 488) (q mod 488 + (p - q))); lia. }
  unfold file_byte. by rewrite Hd, Hdb.
Qed.

(** Once the chain has ended it has ended for good. *)
Lemma data_block_at_None_mono st : forall k b j,
  data_block_at st b k = None -> (k <= j)%nat -> data_block_at st b j = None.
Proof.
  induction k as [|k IH]; intros b j Hk Hj.
  - destruct j; [done|]. cbn [data_block_at] in *.
    destruct (b =? 0); [done|]. by destruct (get_block st b).
  - destruct j as [|j]; [lia|]. cbn [data_block_at] in *.
    destruct (b =? 0); [done|]. destruct (get_block st b); [|done].
    apply (IH _ _ Hk). lia.
Qed.

Lemma file_bytes_past_end st first q n :
  0 <= q -> 
  data_block_at st first (Z.to_nat (q / 488)) = None ->
  List.map (file_byte st first) (seqZ q n) = repeat Byte.x00 (Z.to_nat n).
Proof.
  intros Hq Hdb. apply map_const_seqZ. intros p Hp.
  unfold file_byte.
  rewrite (data_block_at_None_mono st (Z.to_nat (q / 488)) first); [done|done|].
  apply Z2Nat.inj_le; [apply Z.div_pos; lia|apply Z.div_pos; lia|].
  apply Z.div_le_mono; lia.
Qed.

Lemma advance_in_block q n :
  0 <= q -> 0 <= n -> q mod 488 + n < 488 ->
  (q + n) mod 488 = q mod 488 + n /\ (q + n) / 488 = q / 488.
Proof.
  intros Hq Hn Hfit. pose proof (Z.mod_pos_bound q 488). pose proof (Z.div_mod q 488).
  split; symmetry.
  - apply (Z.mod_unique (q + n) 488 (q / 488) (q mod 488 + n)); lia.
  - apply (Z.div_unique (q + n) 488 (q / 488) (q mod 488 + n)); lia.
Qed.

Lemma advance_to_next_block q n :
  0 <= q -> q mod 488 + n = 488 ->
  (q + n) mod 488 = 0 /\ (q + n) / 488 = q / 488 + 1.
Proof.
  intros Hq Hfit. pose proof (Z.mod_pos_bound q 488). pose proof (Z.div_mod q 488).
  split; symmetry.
  - apply (Z.mod_unique (q + n) 488 (q / 488 + 1) 0); lia.
  - apply (Z.div_unique (q + n) 488 (q / 488 + 1) 0); lia.
Qed.

(** The copy loop, from logical position [q] on: with the zeros the result
    vector still holds behind what the loop wrote, the result is the logical
    content of the file. *)
Lemma read_loop_spec st size first : forall fuel cur out q,
  0 <= q ->
  (Z.to_nat (size - Z.of_nat (length out)) <= fuel)%nat ->
  (forall j, data_block_at st cur j
             = data_block_at st first (Z.to_nat (q / 488) + j)) ->
  let res := read_loop fuel st size cur (q mod 488) out in
  res ++ repeat Byte.x00 (Z.to_nat size - length res)
  = out ++ List.map (file_byte st first) (seqZ q (size - Z.of_nat (length out))).
Proof.
  induction fuel as [|fuel IH]; intros cur out q Hq Hfuel Hcur.
  - cbn [read_loop]. destruct (Z.leb_spec size (Z.of_nat (length out))); [|lia].
    rewrite seqZ_nil by lia. cbn [List.map].
    replace (Z.to_nat size - length out)%nat with O by lia. done.
  - cbn [read_loop]. destruct (Z.leb_spec size (Z.of_nat (length out))).
    { rewrite seqZ_nil by lia. cbn [List.map].
      replace (Z.to_nat size - length out)%nat with O by lia. done. }
    pose proof (Z.mod_pos_bound q 488 ltac:(lia)) as Hpos.
    set (produced := Z.of_nat (length out)) in *.
    set (need := Z.min (size - produced) (488 - q mod 488)).
    assert (Hneed : 1 <= need <= size - produced /\ q mod 488 + need <= 488)
      by (unfold need; lia).
    assert (Hsplit : seqZ q (size - produced)
                     = seqZ q need ++ seqZ (q + need) (size - produced - need)).
    { rewrite <- seqZ_app by lia. f_equal. lia. }
    assert (Hnext : forall out',
               length out' = (length out + Z.to_nat need)%nat ->
               forall cur' pos',
               pos' = (q + need) mod 488 ->
               (forall j, data_block_at st cur' j
                          = data_block_at st first (Z.to_nat ((q + need) / 488) + j)) ->
               let res := read_loop fuel st size cur' pos' out' in
               res ++ repeat Byte.x00 (Z.to_nat size - length res)
               = out' ++ List.map (file_byte st first)
                           (seqZ (q + need) (size - produced - need))).
    { intros out' Hlen cur' pos' -> Hcur'.
      replace (size - produced - need) with (size - Z.of_nat (length out'))
        by (unfold produced; lia).
      apply IH; [lia|lia|done]. }
    destruct (Z.eqb_spec cur 0) as [->|Hcur0].
    + (* a hole *)
      assert (Hnone : data_block_at st first (Z.to_nat (q / 488)) = None).
      { rewrite <- (Nat.add_0_r (Z.to_nat (q / 488))), <- Hcur.
        apply data_block_at_zero. }
      rewrite Hsplit, map_app, app_assoc.
      rewrite (file_bytes_in_hole st first q need); [|lia|lia|lia|exact Hnone].
      fold need.
      assert (Hz : forall j, data_block_at st 0 j
                     = data_block_at st first (Z.to_nat ((q + need) / 488) + j)).
      { intros j. rewrite data_block_at_zero. symmetry.
        apply (data_block_at_None_mono st (Z.to_nat (q / 488))); [done|].
        assert (q / 488 <= (q + need) / 488) by (apply Z.div_le_mono; lia).
        pose proof (Z.div_pos q 488). lia. }
      destruct (Z.leb_spec 488 (q mod 488 + need)).
      * destruct (advance_to_next_block q need) as [Hm _]; [lia|lia|].
        apply Hnext; [|done|done].
        by rewrite length_app, repeat_length.
      * destruct (advance_in_block q need) as [Hm _]; [lia|lia|lia|].
        apply Hnext; [|done|done].
        by rewrite length_app, repeat_length.
    + destruct (get_block st cur) as [db|] eqn:Hdb.
      * (* a data block *)
        assert (Hsome : data_block_at st first (Z.to_nat (q / 488)) = Some db).
        { rewrite <- (Nat.add_0_r (Z.to_nat (q / 488))), <- Hcur.
          by apply data_block_at_O. }
        set (m := mapped_data_ st).
        set (db_size := Z.min 488 (rd32 m (db + DataBlock.data_size))).
        set (take := if q mod 488 <? db_size
                     then Z.min need (db_size - q mod 488) else 0).
        assert (Htake : 0 <= take <= need).
        { unfold take. destruct (Z.ltb_spec (q mod 488) db_size); lia. }
        rewrite Hsplit, map_app, app_assoc.
        rewrite (file_bytes_in_block st first db q need);
          [|lia|lia|lia|exact Hsome].
        fold m db_size take. rewrite app_assoc.
        replace (q mod 488 + take + (need - take)) with (q mod 488 + need) by lia.
        assert (Hlen : length ((out ++ BcplString.bytes_at m
                                  (db + DataBlock.data + q mod 488) take)
                               ++ repeat Byte.x00 (Z.to_nat (need - take)))
                       = (length out + Z.to_nat need)%nat).
        { rewrite !length_app, length_bytes_at, repeat_length. lia. }
        destruct (Z.leb_spec 488 (q mod 488 + need)).
        -- destruct (advance_to_next_block q need) as [Hm Hd]; [lia|lia|].
           apply Hnext; [done|done|].
           intros j. rewrite Hd.
           replace (Z.to_nat (q / 488 + 1) + j)%nat
             with (Z.to_nat (q / 488) + S j)%nat
             by (pose proof (Z.div_pos q 488); lia).
           rewrite <- Hcur. symmetry. by apply data_block_at_S.
        -- destruct (advance_in_block q need) as [Hm Hd]; [lia|lia|lia|].
           apply Hnext; [done|done|].
           intros j. rewrite Hd. apply Hcur.
      * (* a pointer out of the image: the loop stops *)
        assert (Hnone : data_block_at st first (Z.to_nat (q / 488)) = None).
        { rewrite <- (Nat.add_0_r (Z.to_nat (q / 488))), <- Hcur.
          by apply data_block_at_null. }
        rewrite (file_bytes_past_end st first q) by done.
        f_equal. f_equal. unfold produced. lia.
Qed.

(** C4: [read_file] gives nothing at or past the end of the file and
    otherwise the [min(n, F - offset)] bytes of the logical content from
    [offset] on: payload below a block's [data_size], zero above it and zero
    where the chain has no block. *)
Theorem sparse_aware_read (st : AdfImage) (file_block_num file_block : Z)
    (offset n : Z) :
  file_block_num <> 0 ->
  get_block st file_block_num = Some file_block ->
  0 <= offset -> 0 <= n ->
  let m := mapped_data_ st in
  let F := rd32 m (file_block + FileBlock.file_size) in
  let first := rd32 m (file_block + FileBlock.first_data) in
  (F <= offset -> read_file st file_block_num offset n = [])
  /\ (offset < F ->
      read_file st file_block_num offset n
      = List.map (file_byte st first) (seqZ offset (Z.min n (F - offset)))
      /\ Z.of_nat (length (read_file st file_block_num offset n))
         = Z.min n (F - offset)).
Proof.
  intros Hnz Hblock Hoff Hn m F first. unfold read_file. rewrite Hblock.
  destruct (Z.eqb_spec file_block_num 0); [done|]. fold m F first.
  split.
  - intros HF. by destruct (Z.leb_spec F offset); [|lia].
  - intros HF. destruct (Z.leb_spec F offset); [lia|].
    set (size := Z.min n (F - offset)).
    assert (Heq : read_loop (Z.to_nat size) st size
                    (read_seek (Z.to_nat (offset / 488)) st first)
                    (offset mod 488) []
                  ++ repeat Byte.x00
                       (Z.to_nat size
                        - length (read_loop (Z.to_nat size) st size
                                    (read_seek (Z.to_nat (offset / 488)) st first)
                                    (offset mod 488) []))
                  = List.map (file_byte st first) (seqZ offset size)).
    { pose proof (read_loop_spec st size first (Z.to_nat size)
                    (read_seek (Z.to_nat (offset / 488)) st first) [] offset)
        as Hspec. cbn [length app] in Hspec. rewrite Z.sub_0_r in Hspec.
      apply Hspec; [done|lia|]. intros j. apply read_seek_spec. }
    split; [exact Heq|].
    rewrite Heq, length_map, length_seqZ. unfold size. lia.
Qed.

(** ** The listing and the read on concrete volumes *)

Lemma hash_chain_list_sound fuel : forall st b l,
  hash_chain_list fuel st b = Some l -> hash_chain_from st b l.
Proof.
  induction fuel as [|fuel IH]; intros st b l; cbn [hash_chain_list];
    [discriminate|].
  destruct (Z.eqb_spec b 0) as [->|Hb].
  { intros [= <-]. constructor. by left. }
  destruct (get_block st b) as [block|] eqn:Hblock.
  2:{ intros [= <-]. constructor. by right. }
  destruct (hash_chain_list fuel st _) as [l'|] eqn:Hl; [|discriminate].
  intros [= <-]. econstructor; [done|done|]. by apply IH.
Qed.

Lemma directory_listing_walk_witness :
  List.map block_num (listing_of nameless_volume nameless_chains) = [882; 884]
  /\ exists st',
       list_directory 4 0 nameless_volume "/"
       = Some (Some (listing_of nameless_volume nameless_chains), st').
Proof.
  split; [vm_compute; reflexivity|].
  eexists.
  refine (proj1 (directory_listing_walk 3 0 nameless_volume nameless_volume "/"
                   880 (880 * 512) nameless_chains _ _ _ _ _ _)).
  - vm_compute. reflexivity.
  - assert (E : root_block_num_ nameless_volume = 880)
      by (vm_compute; reflexivity).
    change (find_directory_block 3 0 nameless_volume "/")
      with (Some (root_block_num_ nameless_volume, nameless_volume)).
    rewrite E. reflexivity.
  - discriminate.
  - vm_compute. reflexivity.
  - intros i Hi. apply (hash_chain_list_sound 4).
    assert (Hall : forallb
              (fun i =>
                 match hash_chain_list 4 nameless_volume
                         (rd32 (mapped_data_ nameless_volume)
                            (slot_addr nameless_volume 880 (880 * 512) i)) with
                 | Some l => bool_decide (l = nameless_chains i)
                 | None => false
                 end) (seqZ 0 HASH_TABLE_SIZE) = true)
      by (vm_compute; reflexivity).
    rewrite forallb_forall in Hall.
    specialize (Hall i). 
    destruct (hash_chain_list 4 nameless_volume _) as [l|].
    + f_equal. apply (bool_decide_eq_true_1 (l = nameless_chains i)).
      apply Hall. apply list_elem_of_In, elem_of_seqZ. lia.
    + exfalso. assert (false = true); [|discriminate]. apply Hall.
      apply list_elem_of_In, elem_of_seqZ. lia.
  - intros i Hi. unfold nameless_chains. destruct (i =? 5); cbn [length]; lia.
Defined.

Lemma sparse_aware_read_witness :
  read_file hello_volume 2 0 100
  = List.map
      (file_byte hello_volume
         (rd32 (mapped_data_ hello_volume) (1024 + FileBlock.first_data)))
      (seqZ 0 (Z.min 100
                 (rd32 (mapped_data_ hello_volume) (1024 + FileBlock.file_size) - 0)))
  /\ Z.of_nat (length (read_file hello_volume 2 0 100))
     = Z.min 100
         (rd32 (mapped_data_ hello_volume) (1024 + FileBlock.file_size) - 0).
Proof.
  refine (proj2 (sparse_aware_read hello_volume 2 1024 0 100 _ _ _ _) _).
  - discriminate.
  - vm_compute. reflexivity.
  - lia.
  - lia.
  - vm_compute. reflexivity.
Defined.

Example hello_read_back :
  read_file hello_volume 2 0 100 = hello_bytes.
Proof. vm_compute. reflexivity. Qed.

(** ** Footprints of the memory primitives *)

Lemma unchanged_refl lo hi m : unchanged_outside lo hi m m.
Proof. by intros a _. Qed.

Lemma unchanged_trans lo hi m1 m2 m3 :
  unchanged_outside lo hi m1 m2 -> unchanged_outside lo hi m2 m3 ->
  unchanged_outside lo hi m1 m3.
Proof. intros H12 H23 a Ha. by rewrite H23, H12. Qed.

Lemma unchanged_widen lo hi lo' hi' m m' :
  lo' <= lo -> hi <= hi' ->
  unchanged_outside lo hi m m' -> unchanged_outside lo' hi' m m'.
Proof. intros Hlo Hhi H a Ha. apply H. lia. Qed.

Lemma unchanged_wr32 m a v : unchanged_outside a (a + 4) m (wr32 m a v).
Proof. intros x Hx. by apply wr32_other. Qed.

Lemma unchanged_store32 m a v : unchanged_outside a (a + 4) m (store32 m a v).
Proof. intros x Hx. by apply store32_other. Qed.

Lemma unchanged_store8 m a b : unchanged_outside a (a + 1) m (store8 m a b).
Proof. intros x Hx. apply store8_other. lia. Qed.

Lemma unchanged_memset m dst b n :
  unchanged_outside dst (dst + n) m (memset m dst b n).
Proof.
  intros x Hx. unfold memset.
  destruct (Z.leb_spec dst x), (Z.ltb_spec x (dst + n)); simpl; try done; lia.
Qed.

Lemma memset_inside m dst b n x :
  dst <= x < dst + n -> memset m dst b n x = b.
Proof.
  intros Hx. unfold memset.
  destruct (Z.leb_spec dst x), (Z.ltb_spec x (dst + n)); simpl; try done; lia.
Qed.

Lemma unchanged_memcpy_from m dst src from n :
  unchanged_outside dst (dst + n) m (memcpy_from m dst src from n).
Proof.
  intros x Hx. unfold memcpy_from.
  destruct (Z.leb_spec dst x), (Z.ltb_spec x (dst + n)); simpl; try done; lia.
Qed.

Lemma memcpy_from_inside m dst src from n x :
  dst <= x < dst + n ->
  memcpy_from m dst src from n x = nth (Z.to_nat (from + (x - dst))) src Byte.x00.
Proof.
  intros Hx. unfold memcpy_from.
  destruct (Z.leb_spec dst x), (Z.ltb_spec x (dst + n)); simpl; try done; lia.
Qed.

Lemma unchanged_update_checksum m block off :
  unchanged_outside (block + 4 * off) (block + 4 * off + 4) m
    (update_checksum m block off).
Proof. intros x Hx. by apply update_checksum_other. Qed.

Lemma unchanged_touch_fileblock m fb t :
  unchanged_outside (fb + 408) (fb + 420) m (touch_fileblock m fb t).
Proof.
  unfold touch_fileblock. destruct (unix_to_amiga_time t) as [[d mi] ti].
  intros x Hx. unfold FileBlock.days, FileBlock.mins, FileBlock.ticks.
  rewrite !wr32_other by lia. done.
Qed.

Lemma unchanged_touch_rootblock m rb t :
  unchanged_outside (rb + 420) (rb + 432) m (touch_rootblock m rb t).
Proof.
  unfold touch_rootblock. destruct (unix_to_amiga_time t) as [[d mi] ti].
  intros x Hx. unfold RootBlock.days, RootBlock.mins, RootBlock.ticks.
  rewrite !wr32_other by lia. done.
Qed.

Lemma unchanged_bcpl_write m data str :
  unchanged_outside data (data + 31) m
    (BcplString.write m data str BCPL_STRING_MAX).
Proof.
  unfold BcplString.write, BCPL_STRING_MAX.
  set (len := Z.min _ 30).
  assert (0 <= len <= 30) by (unfold len; lia).
  intros x Hx.
  destruct (Z.ltb_spec len 30); [rewrite unchanged_memset by lia|];
    (destruct (Z.ltb_spec 0 len); [rewrite unchanged_memcpy_from by lia|]);
    apply unchanged_store8; lia.
Qed.

Lemma rd32_unchanged lo hi m m' a :
  unchanged_outside lo hi m m' -> a + 4 <= lo \/ hi <= a ->
  rd32 m' a = rd32 m a.
Proof. intros H Ha. apply rd32_ext. intros x Hx. apply H. lia. Qed.

(** ** Footprint of the allocator *)

Lemma get_block_set_mem st m b : get_block (set_mem st m) b = get_block st b.
Proof. done. Qed.

Lemma get_block_writable_set_mem st m b :
  get_block_writable (set_mem st m) b = get_block_writable st b.
Proof. done. Qed.

Lemma get_block_set_sets st f u b : get_block (set_sets st f u) b = get_block st b.
Proof. done. Qed.

Lemma in_block_of_get_block st x p a :
  get_block st x = Some p -> p <= a < p + 512 -> in_block x a.
Proof.
  intros Hx Ha. apply get_block_Some in Hx as (-> & _). unfold in_block, BLOCK_SIZE in *.
  lia.
Qed.

(** The bitmap update writes inside one bitmap page at most. *)
Lemma update_bitmap_footprint st b is_free :
  0 <= b ->
  exists m',
    update_bitmap_for_block st b is_free = set_mem st m'
    /\ forall a, (forall x, bitmap_page st x -> ~ in_block x a) ->
                 m' a = mapped_data_ st a.
Proof.
  intros Hb0. unfold update_bitmap_for_block.
  assert (Hid : set_mem st (mapped_data_ st) = st) by by destruct st.
  destruct (_ <=? b); [by exists (mapped_data_ st)|].
  destruct (Z.leb_spec 25 (b / 4064)); [by exists (mapped_data_ st)|].
  destruct (get_block st (root_block_num_ st)) as [rp|] eqn:Hroot;
    [|by exists (mapped_data_ st)].
  set (B := rd32 _ _).
  destruct (Z.eqb_spec B 0) as [|HB0]; [by exists (mapped_data_ st)|].
  destruct (get_block_writable st B) as [bp|] eqn:HB;
    [|by exists (mapped_data_ st)].
  eexists. split; [reflexivity|]. intros a Ha.
  assert (HBpage : bitmap_page st B).
  { exists rp, (b / 4064). split; [done|]. split; [|done].
    split; [|done]. apply Z.div_pos; lia. }
  apply get_block_writable_Some in HB as [HB _].
  assert (Hout : a < bp \/ bp + 512 <= a).
  { destruct (Z.lt_ge_cases a bp) as [?|?]; [by left|].
    destruct (Z.lt_ge_cases a (bp + 512)) as [?|?]; [|by right].
    exfalso. apply (Ha B HBpage). by apply (in_block_of_get_block st B bp). }
  pose proof (Z.mod_pos_bound b 4064 ltac:(lia)) as Hmod.
  assert (Hwi : 0 <= b mod 4064 / 32 < 127).
  { split; [apply Z.div_pos; lia|apply Z.div_lt_upper_bound; lia]. }
  unfold update_bitmap_checksum, BitmapBlock.map.
  rewrite update_checksum_other, wr32_other by lia. done.
Qed.

(** What [allocate_block] does when it succeeds. *)
Lemma allocate_block_footprint st b st' :
  (forall x, x ∈ free_blocks_ st -> 0 <= x) ->
  allocate_block st = (b, st') -> b <> 0 ->
  b ∈ free_blocks_ st
  /\ free_blocks_ st' = free_blocks_ st ∖ {[b]}
  /\ used_blocks_ st' = {[b]} ∪ used_blocks_ st
  /\ (exists m', st' = set_mem (set_sets st (free_blocks_ st ∖ {[b]})
                                  ({[b]} ∪ used_blocks_ st)) m')
  /\ (forall a, (forall x, bitmap_page st x -> ~ in_block x a) ->
                ~ in_block b a ->
                mapped_data_ st' a = mapped_data_ st a)
  /\ (forall p a, get_block_writable st b = Some p ->
                  (forall x, bitmap_page st x -> x <> b) ->
                  p <= a < p + 512 -> mapped_data_ st' a = Byte.x00).
Proof.
  intros Hnn. unfold allocate_block.
  destruct (set_begin (free_blocks_ st)) as [b0|] eqn:Hbegin;
    [|intros [= <- <-]; done].
  apply set_begin_Some in Hbegin as [Hin _].
  destruct (25 <=? b0 / 4064); [intros [= <- <-]; done|].
  destruct (get_block st (root_block_num_ st)) as [root|];
    [|intros [= <- <-]; done].
  destruct (_ =? 0); [intros [= <- <-]; done|].
  set (st1 := set_sets st _ _).
  destruct (update_bitmap_footprint st1 b0 false) as (m1 & -> & Hm1);
    [by apply Hnn|].
  rewrite get_block_writable_set_mem.
  change (get_block_writable st1 b0) with (get_block_writable st b0).
  assert (Hpages : forall x, bitmap_page st1 x <-> bitmap_page st x) by done.
  destruct (get_block_writable st b0) as [p|] eqn:Hp; intros [= <- <-] Hb.
  - repeat split; try done.
    + by eexists.
    + intros a Ha Hnb. cbn [mapped_data_ set_mem].
      apply get_block_writable_Some in Hp as [Hp _].
      rewrite unchanged_memset.
      * apply Hm1. intros x Hx. apply Ha. by apply Hpages.
      * unfold BLOCK_SIZE.
        destruct (Z.lt_ge_cases a p) as [?|?]; [by left|].
        destruct (Z.lt_ge_cases a (p + 512)) as [?|?]; [|by right].
        exfalso. apply Hnb. by apply (in_block_of_get_block st b0 p).
    + intros p' a Hp' _ Ha. rewrite Hp in Hp'. injection Hp' as <-.
      cbn [mapped_data_ set_mem].
      apply memset_inside. unfold BLOCK_SIZE. lia.
  - repeat split; try done.
    + by eexists.
    + intros a Ha Hnb. cbn [mapped_data_ set_mem].
      apply Hm1. intros x Hx. apply Ha. by apply Hpages.
    + intros p' a Hp'. congruence.
Qed.

Lemma allocate_block_fail st st' :
  0 ∉ free_blocks_ st -> allocate_block st = (0, st') -> st' = st.
Proof.
  intros H0.
  destruct (allocate_block_cases st) as [->|(b & m & Hb & ->)].
  - by intros [= <-].
  - intros [= -> _]. by apply set_begin_Some in Hb as [? _].
Qed.

(** What [free_block] does. *)
Lemma free_block_footprint st b :
  0 <= b ->
  exists m',
    (free_block st b = st
     \/ free_block st b
        = set_mem (set_sets st ({[b]} ∪ free_blocks_ st)
                     (used_blocks_ st ∖ {[b]})) m')
    /\ forall a, (forall x, bitmap_page st x -> ~ in_block x a) ->
                 mapped_data_ (free_block st b) a = mapped_data_ st a.
Proof.
  intros Hb. unfold free_block.
  destruct (_ || _); [exists (mapped_data_ st); split; [by left|done]|].
  set (st1 := set_sets st _ _).
  destruct (update_bitmap_footprint st1 b true) as (m1 & -> & Hm1); [done|].
  exists m1. split; [by right|]. intros a Ha. cbn [mapped_data_ set_mem].
  by apply Hm1.
Qed.

(** ** Separation of a file from the rest of the volume *)

Lemma same_geometry_refl st : same_geometry st st.
Proof. by repeat split. Qed.

Lemma same_geometry_trans st1 st2 st3 :
  same_geometry st1 st2 -> same_geometry st2 st3 -> same_geometry st1 st3.
Proof.
  intros (?&?&?&?) (?&?&?&?). repeat split; congruence.
Qed.

Lemma same_geometry_get_block st st' x :
  same_geometry st st' -> get_block st' x = get_block st x.
Proof. intros (Hm&Hf&_). unfold get_block, is_valid. by rewrite Hm, Hf. Qed.


Lemma same_geometry_set_mem st m : same_geometry st (set_mem st m).
Proof. by repeat split. Qed.

Lemma same_geometry_allocate st : same_geometry st (snd (allocate_block st)).
Proof.
  destruct (allocate_block_cases st) as [->|(b & m & _ & ->)]; by repeat split.
Qed.

Lemma same_geometry_free st b : same_geometry st (free_block st b).
Proof.
  destruct (free_block_cases st b) as [[_ ->]|(_ & m & ->)]; by repeat split.
Qed.

(** Two different blocks do not overlap. *)
Lemma blocks_apart st x y px py off :
  get_block st x = Some px -> get_block st y = Some py -> x <> y ->
  0 <= off <= 508 ->
  py + off + 4 <= px \/ px + 512 <= py + off.
Proof.
  intros Hx Hy Hne Hoff.
  apply get_block_Some in Hx as (-> & _). apply get_block_Some in Hy as (-> & _).
  unfold BLOCK_SIZE. lia.
Qed.

Lemma bitmap_page_frame st m' x :
  (forall rp i, get_block st (root_block_num_ st) = Some rp -> 0 <= i < 25 ->
     rd32 m' (rp + RootBlock.bm_pages i)
     = rd32 (mapped_data_ st) (rp + RootBlock.bm_pages i)) ->
  bitmap_page (set_mem st m') x -> bitmap_page st x.
Proof.
  intros Hframe (rp & i & Hrp & Hi & -> & Hnz).
  change (get_block (set_mem st m') (root_block_num_ (set_mem st m')))
    with (get_block st (root_block_num_ st)) in Hrp.
  cbn [mapped_data_ set_mem] in *. rewrite Hframe in * by done.
  by exists rp, i.
Qed.

Lemma calculate_checksum_ext m m' p off :
  (forall a, p <= a < p + 512 -> m' a = m a) ->
  calculate_checksum m' p off = calculate_checksum m p off.
Proof.
  intros H. rewrite !calculate_checksum_spec. f_equal. f_equal. f_equal.
  unfold block_words_without. apply map_ext_in. intros i Hi.
  apply list_elem_of_In, elem_of_seqZ in Hi.
  destruct (i =? off); [done|]. apply rd32_ext. intros a Ha. apply H. lia.
Qed.

Lemma checksum_ok_ext m m' p :
  (forall a, p <= a < p + 512 -> m' a = m a) ->
  checksum_ok m p -> checksum_ok m' p.
Proof.
  intros H. unfold checksum_ok.
  rewrite (calculate_checksum_ext m m') by done.
  rewrite (rd32_ext m' m (p + 20)); [done|]. intros a Ha. apply H. lia.
Qed.

Lemma checksum_ok_update m p : checksum_ok (update_checksum m p 5) p.
Proof.
  unfold checksum_ok.
  rewrite calculate_checksum_spec, block_words_without_update.
  change (p + 20) with (p + 4 * 5). by rewrite update_checksum_word.
Qed.

(** Memory writes inside a block other than the header, the root and the
    chain blocks, or inside a chain block with its [next_data] still on the
    chain, keep the invariant. *)
Lemma write_inv_block_write st0 h V D st d p m' :
  write_inv st0 h V D st ->
  get_block st d = Some p ->
  d <> h -> d <> root_block_num_ st ->
  unchanged_outside p (p + 512) (mapped_data_ st) m' ->
  (d ∈ D -> rd32 m' (p + DataBlock.next_data) = 0
            \/ rd32 m' (p + DataBlock.next_data) ∈ D) ->
  write_inv st0 h V D (set_mem st m').
Proof.
  intros (Hgeo & Hsep & Hsize) Hp Hdh Hdr Hun Hnext.
  destruct Hsep as [Hfp Hhd Hrt Hpg Hfst Hch].
  split; [by eapply same_geometry_trans; [|apply same_geometry_set_mem]|].
  split; [split|]; cbn [free_blocks_ set_mem root_block_num_ mapped_data_];
    try done.
  - intros x Hx. apply Hpg. revert Hx. apply bitmap_page_frame.
    intros rp i Hrp Hi. apply (rd32_unchanged p (p + 512)); [done|].
    unfold RootBlock.bm_pages.
    apply (blocks_apart st d (root_block_num_ st)); try done. lia.
  - intros hp Hhp. rewrite get_block_set_mem in Hhp.
    rewrite (rd32_unchanged p (p + 512) (mapped_data_ st)); [by apply Hfst|done|].
    unfold FileBlock.first_data.
    apply (blocks_apart st d h); try done.
  - intros d' p' Hd' Hp'. rewrite get_block_set_mem in Hp'.
    destruct (decide (d' = d)) as [->|Hne].
    + rewrite Hp in Hp'. injection Hp' as <-. by apply Hnext.
    + rewrite (rd32_unchanged p (p + 512) (mapped_data_ st));
        [by apply (Hch d')|done|].
      unfold DataBlock.next_data. apply (blocks_apart st d d'); try done.
  - intros hp Hhp. destruct (Hsize hp Hhp) as [Hsz Hck].
    assert (Hhp' : get_block st h = Some hp)
      by (by rewrite (same_geometry_get_block st0 st)).
    split.
    + rewrite <- Hsz. apply (rd32_unchanged p (p + 512)); [done|].
      unfold FileBlock.file_size. apply (blocks_apart st d h); try done.
    + intros Hok. apply Hck in Hok.
      apply (checksum_ok_ext (mapped_data_ st)); [|done].
      intros a Ha. apply Hun.
      pose proof (blocks_apart st d h p hp 0 Hp Hhp' Hdh ltac:(lia)).
      pose proof (blocks_apart st d h p hp 508 Hp Hhp' Hdh ltac:(lia)). lia.
Qed.

(** Header writes that leave [file_size] alone and keep [first_data] on the
    chain keep the invariant. *)
Lemma write_inv_header_write st0 h V D st hp m' :
  write_inv st0 h V D st ->
  get_block st h = Some hp ->
  unchanged_outside hp (hp + 512) (mapped_data_ st) m' ->
  rd32 m' (hp + FileBlock.file_size)
  = rd32 (mapped_data_ st) (hp + FileBlock.file_size) ->
  (rd32 m' (hp + FileBlock.first_data) = 0
   \/ rd32 m' (hp + FileBlock.first_data) ∈ D) ->
  checksum_ok m' hp ->
  write_inv st0 h V D (set_mem st m').
Proof.
  intros (Hgeo & Hsep & Hsize) Hhp Hun Hfs Hfirst Hok.
  destruct Hsep as [Hfp Hhd Hrt Hpg Hfst Hch].
  destruct Hhd as (Hhr & Hhf & HhD).
  split; [by eapply same_geometry_trans; [|apply same_geometry_set_mem]|].
  split; [split|]; cbn [free_blocks_ set_mem root_block_num_ mapped_data_];
    try done.
  - intros x Hx. apply Hpg. revert Hx. apply bitmap_page_frame.
    intros rp i Hrp Hi. apply (rd32_unchanged hp (hp + 512)); [done|].
    unfold RootBlock.bm_pages.
    apply (blocks_apart st h (root_block_num_ st)); try done. lia.
  - intros hp' Hhp'. rewrite get_block_set_mem in Hhp'.
    rewrite Hhp in Hhp'. by injection Hhp' as <-.
  - intros d' p' Hd' Hp'. rewrite get_block_set_mem in Hp'.
    rewrite (rd32_unchanged hp (hp + 512) (mapped_data_ st));
      [by apply (Hch d')|done|].
    unfold DataBlock.next_data. apply (blocks_apart st h d'); try done.
    intros ->. done.
  - intros hp' Hhp'. rewrite (same_geometry_get_block st0 st) in Hhp by done.
    rewrite Hhp in Hhp'. injection Hhp' as <-.
    rewrite Hfs. split; [by apply Hsize|done].
Qed.

Lemma not_in_block st x y py a :
  get_block st y = Some py -> x <> y -> py <= a < py + 512 -> ~ in_block x a.
Proof.
  intros Hy Hne Ha. apply get_block_Some in Hy as (-> & _).
  unfold in_block, BLOCK_SIZE in *. lia.
Qed.

Lemma rd32_zero m a :
  (forall x, a <= x < a + 4 -> m x = Byte.x00) -> rd32 m a = 0.
Proof.
  intros H. rewrite rd32_bytes.
  rewrite (H a), (H (a + 1)), (H (a + 2)), (H (a + 3)) by lia. reflexivity.
Qed.

(** A successful allocation keeps the invariant, with the new block added to
    the chain blocks. *)
Lemma write_inv_allocate st0 h V D st b st' :
  read_only_ st0 = false ->
  write_inv st0 h V D st ->
  allocate_block st = (b, st') -> b <> 0 ->
  write_inv st0 h V ({[b]} ∪ D) st'
  /\ (forall p, get_block st' b = Some p ->
        forall a, p <= a < p + 512 -> mapped_data_ st' a = Byte.x00).
Proof.
  intros Hrw (Hgeo & Hsep & Hsize) Halloc Hb.
  destruct Hsep as [Hfp Hhd Hrt Hpg Hfst Hch].
  destruct Hhd as (Hhr & Hhf & HhD). destruct Hrt as (Hrf & HrD).
  destruct (allocate_block_footprint st b st') as
    (Hbin & Hfree & Hused & (m' & Hst') & Hframe & Hzero); try done.
  { intros x Hx. apply Hfp in Hx. lia. }
  assert (Hgeo' : same_geometry st st') by (rewrite Hst'; by repeat split).
  assert (Hgb : forall x, get_block st' x = get_block st x)
    by (intros x; by apply same_geometry_get_block).
  assert (Hrw' : read_only_ st = false).
  { destruct Hgeo as (_&_&->&_). done. }
  assert (Hroot' : root_block_num_ st' = root_block_num_ st)
    by (by destruct Hgeo' as (_&_&_&->)).
  assert (Hbh : b <> h) by (intros ->; done).
  assert (Hbr : b <> root_block_num_ st) by (intros ->; done).
  assert (Hbpage : forall x, bitmap_page st x -> x <> b).
  { intros x Hx ->. by apply Hpg in Hx as (_&_&?&_). }
  (* memory of a block that is neither a bitmap page nor the new block *)
  assert (Hkeep : forall y py off,
             get_block st y = Some py -> y <> b ->
             (forall x, bitmap_page st x -> x <> y) ->
             0 <= off <= 508 ->
             rd32 (mapped_data_ st') (py + off) = rd32 (mapped_data_ st) (py + off)).
  { intros y py off Hy Hyb Hyp Hoff. apply rd32_ext. intros a Ha.
    apply Hframe.
    - intros x Hx. apply (not_in_block st x y py); [done|by apply Hyp|lia].
    - apply (not_in_block st b y py); [done|done|lia]. }
  assert (Hpages : forall x, bitmap_page st' x -> bitmap_page st x).
  { intros x (rp & i & Hrp & Hi & -> & Hnz). rewrite Hgb, Hroot' in Hrp.
    exists rp, i. split; [done|]. split; [done|].
    assert (E : rd32 (mapped_data_ st') (rp + RootBlock.bm_pages i)
                = rd32 (mapped_data_ st) (rp + RootBlock.bm_pages i)).
    { unfold RootBlock.bm_pages.
      apply (Hkeep (root_block_num_ st)); try done; try lia.
      intros x Hx. by apply Hpg in Hx as (_&?&_). }
    by rewrite <- E. }
  assert (Hzero' : forall p, get_block st' b = Some p ->
             forall a, p <= a < p + 512 -> mapped_data_ st' a = Byte.x00).
  { intros p Hp a Ha. rewrite Hgb in Hp. apply (Hzero p); try done.
    by rewrite get_block_writable_rw. }
  split; [|exact Hzero'].
  split; [by eapply same_geometry_trans|].
  split; [split|].
  - intros x Hx. apply Hfp. set_solver.
  - rewrite Hroot'. split; [done|]. split; set_solver.
  - rewrite Hroot'. split; set_solver.
  - intros x Hx. apply Hpages in Hx. rewrite Hroot'.
    destruct (Hpg x Hx) as (?&?&?&?). specialize (Hbpage x Hx).
    repeat split; try done; set_solver.
  - intros hp Hhp. rewrite Hgb in Hhp.
    assert (E : rd32 (mapped_data_ st') (hp + FileBlock.first_data)
                = rd32 (mapped_data_ st) (hp + FileBlock.first_data)).
    { unfold FileBlock.first_data.
      apply (Hkeep h); try done; try lia.
      intros x Hx. by apply Hpg in Hx as (?&_). }
    rewrite E.
    destruct (Hfst hp Hhp) as [?|?]; [by left|right; set_solver].
  - intros d p Hd Hp.
    destruct (decide (d = b)) as [->|Hne].
    + left. apply rd32_zero. intros x Hx. apply (Hzero' p Hp).
      unfold DataBlock.next_data in Hx. lia.
    + rewrite Hgb in Hp. assert (HdD : d ∈ D) by set_solver.
      assert (E : rd32 (mapped_data_ st') (p + DataBlock.next_data)
                  = rd32 (mapped_data_ st) (p + DataBlock.next_data)).
      { unfold DataBlock.next_data.
        apply (Hkeep d); try done; try lia.
        intros x Hx ->. by apply Hpg in Hx as (_&_&_&?). }
      rewrite E.
      destruct (Hch d p HdD Hp) as [?|?]; [by left|right; set_solver].
  - intros hp Hhp. destruct (Hsize hp Hhp) as [Hsz Hck].
    assert (Hhp' : get_block st h = Some hp)
      by (by rewrite (same_geometry_get_block st0 st)).
    split.
    + rewrite <- Hsz. unfold FileBlock.file_size.
      apply (Hkeep h hp); try done; try lia.
      intros x Hx. by apply Hpg in Hx as (?&_).
    + intros Hok. apply Hck in Hok.
      apply (checksum_ok_ext (mapped_data_ st)); [|done].
      intros a Ha. apply Hframe.
      * intros x Hx. apply (not_in_block st x h hp); [done| |lia].
        by apply Hpg in Hx as (?&_).
      * apply (not_in_block st b h hp); [done|done|lia].
Qed.

(** ** Reading through writes *)

Ltac unfold_offsets :=
  unfold DataBlock.type, DataBlock.header_key, DataBlock.seq_num,
    DataBlock.data_size, DataBlock.next_data, DataBlock.checksum, DataBlock.data,
    FileBlock.type, FileBlock.header_key, FileBlock.first_data,
    FileBlock.checksum, FileBlock.data_blocks, FileBlock.file_size,
    FileBlock.days, FileBlock.mins, FileBlock.ticks, FileBlock.filename,
    FileBlock.hash_chain, FileBlock.parent, FileBlock.sec_type,
    RootBlock.type, RootBlock.checksum, RootBlock.hash_table,
    RootBlock.bm_pages, RootBlock.days, RootBlock.mins, RootBlock.ticks,
    RootBlock.name, RootBlock.sec_type, BitmapBlock.checksum, BitmapBlock.map,
    BLOCK_SIZE in *.

Ltac unchanged_step :=
  lazymatch goal with
  | |- unchanged_outside ?lo ?hi ?m (wr32 ?m1 ?a ?v) =>
    apply (unchanged_trans lo hi m m1);
    [|apply (unchanged_widen a (a + 4)); [lia|lia|apply unchanged_wr32]]
  | |- unchanged_outside ?lo ?hi ?m (store32 ?m1 ?a ?v) =>
    apply (unchanged_trans lo hi m m1);
    [|apply (unchanged_widen a (a + 4)); [lia|lia|apply unchanged_store32]]
  | |- unchanged_outside ?lo ?hi ?m (memset ?m1 ?a ?b ?n) =>
    apply (unchanged_trans lo hi m m1);
    [|apply (unchanged_widen a (a + n)); [lia|lia|apply unchanged_memset]]
  | |- unchanged_outside ?lo ?hi ?m (memcpy_from ?m1 ?a ?src ?from ?n) =>
    apply (unchanged_trans lo hi m m1);
    [|apply (unchanged_widen a (a + n)); [lia|lia|apply unchanged_memcpy_from]]
  | |- unchanged_outside ?lo ?hi ?m (update_checksum ?m1 ?b ?off) =>
    apply (unchanged_trans lo hi m m1);
    [|apply (unchanged_widen (b + 4 * off) (b + 4 * off + 4));
      [lia|lia|apply unchanged_update_checksum]]
  | |- unchanged_outside ?lo ?hi ?m (touch_fileblock ?m1 ?fb ?t) =>
    apply (unchanged_trans lo hi m m1);
    [|apply (unchanged_widen (fb + 408) (fb + 420));
      [lia|lia|apply unchanged_touch_fileblock]]
  | |- unchanged_outside ?lo ?hi ?m (touch_rootblock ?m1 ?rb ?t) =>
    apply (unchanged_trans lo hi m m1);
    [|apply (unchanged_widen (rb + 420) (rb + 432));
      [lia|lia|apply unchanged_touch_rootblock]]
  | |- unchanged_outside ?lo ?hi ?m (BcplString.write ?m1 ?a ?s BCPL_STRING_MAX) =>
    apply (unchanged_trans lo hi m m1);
    [|apply (unchanged_widen a (a + 31)); [lia|lia|apply unchanged_bcpl_write]]
  | |- unchanged_outside ?lo ?hi ?m ?m => apply unchanged_refl
  end.

Ltac unchanged_tac := unfold_offsets; repeat unchanged_step.

Lemma rd32_memset_other m dst b n a :
  a + 4 <= dst \/ dst + n <= a -> rd32 (memset m dst b n) a = rd32 m a.
Proof. apply rd32_unchanged, unchanged_memset. Qed.

Lemma rd32_memcpy_other m dst src from n a :
  a + 4 <= dst \/ dst + n <= a -> rd32 (memcpy_from m dst src from n) a = rd32 m a.
Proof. apply rd32_unchanged, unchanged_memcpy_from. Qed.

Lemma rd32_update_checksum_other m block off a :
  a + 4 <= block + 4 * off \/ block + 4 * off + 4 <= a ->
  rd32 (update_checksum m block off) a = rd32 m a.
Proof. apply rd32_unchanged, unchanged_update_checksum. Qed.

Lemma rd32_touch_fileblock_other m fb t a :
  a + 4 <= fb + 408 \/ fb + 420 <= a ->
  rd32 (touch_fileblock m fb t) a = rd32 m a.
Proof. apply rd32_unchanged, unchanged_touch_fileblock. Qed.

Lemma rd32_touch_rootblock_other m rb t a :
  a + 4 <= rb + 420 \/ rb + 432 <= a ->
  rd32 (touch_rootblock m rb t) a = rd32 m a.
Proof. apply rd32_unchanged, unchanged_touch_rootblock. Qed.

Lemma rd32_bcpl_write_other m data s a :
  a + 4 <= data \/ data + 31 <= a ->
  rd32 (BcplString.write m data s BCPL_STRING_MAX) a = rd32 m a.
Proof. apply rd32_unchanged, unchanged_bcpl_write. Qed.

(** Push a read through the writes that do not reach it. *)
Ltac rd32_skip :=
  repeat first
    [ rewrite rd32_wr32_other by lia
    | rewrite rd32_store32_other by lia
    | rewrite rd32_memset_other by lia
    | rewrite rd32_memcpy_other by lia
    | rewrite rd32_update_checksum_other by lia
    | rewrite rd32_touch_fileblock_other by lia
    | rewrite rd32_touch_rootblock_other by lia
    | rewrite rd32_bcpl_write_other by lia ].

Lemma init_data_block_spec m np fbn pos :
  unchanged_outside np (np + 512) m (init_data_block m np fbn pos)
  /\ rd32 (init_data_block m np fbn pos) (np + DataBlock.next_data) = 0
  /\ rd32 (init_data_block m np fbn pos) (np + DataBlock.data_size) = 0.
Proof.
  unfold init_data_block. split; [unchanged_tac|].
  unfold_offsets. split.
  - rd32_skip. apply rd32_store32_zero.
  - rd32_skip. apply rd32_store32_zero.
Qed.

Lemma write_inv_link st0 h hp V D st prev nb :
  write_inv st0 h V D st ->
  get_block st0 h = Some hp ->
  prev = 0 \/ prev ∈ D -> nb ∈ D -> 0 <= nb < 4294967296 ->
  write_inv st0 h V D (link_data_block st hp prev nb).
Proof.
  intros Hinv Hhp Hprev Hnb Hrange. unfold link_data_block.
  pose proof Hinv as (Hgeo & [Hfp (Hhr & Hhf & HhD) (Hrf & HrD) Hpg Hfst Hch] & Hsize).
  assert (Hhp' : get_block st h = Some hp)
    by (by rewrite (same_geometry_get_block st0 st)).
  destruct (Z.eqb_spec prev 0) as [->|Hnz]; cbn [negb].
  - apply (write_inv_header_write st0 h V D st hp); try done.
    + unchanged_tac.
    + unfold_offsets. by rd32_skip.
    + right. unfold_offsets. rd32_skip. rewrite rd32_wr32_same.
      by rewrite wrap32_small.
    + apply checksum_ok_update.
  - destruct Hprev as [?|Hprev]; [done|].
    destruct (get_block_writable st prev) as [pp|] eqn:Hpp.
    + apply get_block_writable_Some in Hpp as [Hpp _].
      apply (write_inv_block_write st0 h V D st prev pp); try done.
      * by intros ->.
      * by intros ->.
      * unchanged_tac.
      * intros _. right. unfold_offsets. rd32_skip. rewrite rd32_wr32_same.
        by rewrite wrap32_small.
    + by destruct st.
Qed.

Lemma write_inv_checksum st0 h V D st d p :
  write_inv st0 h V D st ->
  d ∈ D -> get_block st d = Some p ->
  write_inv st0 h V D (set_mem st (update_checksum (mapped_data_ st) p 5)).
Proof.
  intros Hinv Hd Hp.
  pose proof Hinv as (Hgeo & [Hfp (Hhr & Hhf & HhD) (Hrf & HrD) Hpg Hfst Hch] & Hsize).
  apply (write_inv_block_write st0 h V D st d p); try done.
  - by intros ->.
  - by intros ->.
  - unchanged_tac.
  - intros _. unfold_offsets. rd32_skip. by apply (Hch d).
Qed.

(** Allocating, initialising and linking a fresh data block, as both
    allocation sites of [write_file] do it. *)
Lemma write_inv_new_block st0 h hp V D st prev pos nb st1 np :
  read_only_ st0 = false ->
  write_inv st0 h V D st ->
  get_block st0 h = Some hp ->
  prev = 0 \/ prev ∈ D ->
  allocate_block st = (nb, st1) -> nb <> 0 ->
  get_block_writable st1 nb = Some np ->
  write_inv st0 h V ({[nb]} ∪ D)
    (set_mem
       (link_data_block
          (set_mem st1 (init_data_block (mapped_data_ st1) np h pos))
          hp prev nb)
       (update_checksum
          (mapped_data_
             (link_data_block
                (set_mem st1 (init_data_block (mapped_data_ st1) np h pos))
                hp prev nb)) np 5)).
Proof.
  intros Hrw Hinv Hhp Hprev Halloc Hnz Hnp.
  pose proof Hinv as (_ & [Hfp _ _ _ _ _] & _).
  assert (Hnbfree : nb ∈ free_blocks_ st).
  { destruct (allocate_block_footprint st nb st1) as (? & _); try done.
    intros x Hx. apply Hfp in Hx. lia. }
  destruct (write_inv_allocate st0 h V D st nb st1) as [Hinv1 _]; try done.
  apply get_block_writable_Some in Hnp as [Hnp _].
  pose proof Hinv1 as (_ & [_ (_ & _ & HhD) (_ & HrD) _ _ _] & _).
  destruct (init_data_block_spec (mapped_data_ st1) np h pos) as (Hun & Hnext & _).
  set (st2 := set_mem st1 _).
  assert (Hinv2 : write_inv st0 h V ({[nb]} ∪ D) st2).
  { apply (write_inv_block_write st0 h V _ st1 nb np); try done.
    - intros ->. set_solver.
    - intros ->. set_solver.
    - intros _. by left. }
  clearbody st2.
  set (st3 := link_data_block st2 hp prev nb).
  assert (Hinv3 : write_inv st0 h V ({[nb]} ∪ D) st3).
  { apply write_inv_link; try done.
    - destruct Hprev; [by left|right; set_solver].
    - set_solver.
    - apply Hfp in Hnbfree. lia. }
  assert (Hnp3 : get_block st3 nb = Some np).
  { destruct Hinv3 as (Hg3 & _). destruct Hinv1 as (Hg1 & _).
    rewrite (same_geometry_get_block st0 st3) by done.
    by rewrite <- (same_geometry_get_block st0 st1). }
  clearbody st3.
  apply (write_inv_checksum st0 h V _ st3 nb np); try done. set_solver.
Qed.

(** ** [write_file] keeps the header's size *)

Section WriteInvariant.

Variables (st0 : AdfImage) (h hp V : Z).
Hypothesis Hrw : read_only_ st0 = false.
Hypothesis Hhp : get_block st0 h = Some hp.

Lemma write_walk_on_chain D fuel : forall st target cur prev pos c p q,
  file_separated st h D ->
  cur = 0 \/ cur ∈ D -> prev = 0 \/ prev ∈ D ->
  write_walk fuel st target cur prev pos = Some (c, p, q) ->
  (c = 0 \/ c ∈ D) /\ (p = 0 \/ p ∈ D).
Proof.
  induction fuel as [|fuel IH]; intros st target cur prev pos c p q Hsep Hcur Hprev;
    cbn [write_walk].
  - destruct (cur =? 0); by intros [= <- <- <-].
  - destruct (Z.eqb_spec cur 0); [by intros [= <- <- <-]|].
    destruct (get_block st cur) as [dp|] eqn:Hdp; [|discriminate].
    destruct (target <? pos + 488); [by intros [= <- <- <-]|].
    destruct Hcur as [?|Hcur]; [done|].
    apply IH; [done|by apply (fs_chain st h D Hsep cur)|by right].
Qed.

Lemma write_bridge_inv fuel : forall D st target cur prev pos,
  write_inv st0 h V D st ->
  cur = 0 \/ cur ∈ D -> prev = 0 \/ prev ∈ D ->
  match write_bridge fuel st h hp target cur prev pos with
  | inl (_, s) => exists D', write_inv st0 h V D' s
  | inr (s, c, p, _) =>
    exists D', write_inv st0 h V D' s /\ (c = 0 \/ c ∈ D') /\ (p = 0 \/ p ∈ D')
  end.
Proof.
  induction fuel as [|fuel IH]; intros D st target cur prev pos Hinv Hcur Hprev;
    cbn [write_bridge];
    (destruct (target <? pos + 488); [by exists D|]); [by exists D|].
  destruct (allocate_block st) as [nb st1] eqn:Halloc.
  pose proof Hinv as (_ & [Hfp _ _ _ _ _] & _).
  destruct (Z.eqb_spec nb 0) as [->|Hnz].
  { apply allocate_block_fail in Halloc as ->; [by exists D|].
    intros H0. apply Hfp in H0. lia. }
  destruct (get_block_writable st1 nb) as [np|] eqn:Hnp.
  2:{ exists ({[nb]} ∪ D). by eapply write_inv_allocate. }
  apply (IH ({[nb]} ∪ D)).
  - by apply (write_inv_new_block st0 h hp V D st prev pos nb st1 np).
  - right. set_solver.
  - right. set_solver.
Qed.

Lemma write_exit_inv now D st :
  write_inv st0 h V D st ->
  write_inv st0 h V D
    (set_mem st
       (update_checksum (touch_fileblock (mapped_data_ st) hp now) hp 5)).
Proof.
  intros Hinv.
  assert (Hhp' : get_block st h = Some hp)
    by (destruct Hinv as (Hg & _); by rewrite (same_geometry_get_block st0 st)).
  apply (write_inv_header_write st0 h V D st hp); try done.
  - unchanged_tac.
  - unfold_offsets. by rd32_skip.
  - unfold_offsets. rd32_skip. change 16 with FileBlock.first_data.
    destruct Hinv as (_ & Hsep & _). by apply (fs_first st h D Hsep).
  - apply checksum_ok_update.
Qed.

Lemma write_loop_inv now data size fuel : forall D st cur prev pos bw wp,
  write_inv st0 h V D st ->
  cur = 0 \/ cur ∈ D -> prev = 0 \/ prev ∈ D ->
  exists D',
    write_inv st0 h V D'
      (snd (write_loop fuel st now h hp data size cur prev pos bw wp)).
Proof.
  induction fuel as [|fuel IH]; intros D st cur prev pos bw wp Hinv Hcur Hprev;
    cbn [write_loop].
  { destruct (size <=? bw); exists D; [by apply write_exit_inv|done]. }
  destruct (size <=? bw); [exists D; by apply write_exit_inv|].
  pose proof Hinv as (_ & [Hfp _ _ _ _ _] & _).
  (* the block the chunk goes to, with the invariant after a possible
     allocation *)
  assert (Hstep : forall D1 st1 cur1,
             write_inv st0 h V D1 st1 -> cur1 ∈ D1 -> prev = 0 \/ prev ∈ D1 ->
             exists D',
               write_inv st0 h V D'
                 (snd
                    match get_block_writable st1 cur1 with
                    | Some data_block =>
                      if 488 <=? wrap64 (wp - pos / 488 * 488)
                      then (- EIO, st1)
                      else
                        let m :=
                          memcpy_from (mapped_data_ st1)
                            (data_block + DataBlock.data
                             + wrap64 (wp - pos / 488 * 488))
                            data bw
                            (Z.min (size - bw)
                               (wrap64 (488 - wrap64 (wp - pos / 488 * 488)))) in
                        let old_size := rd32 m (data_block + DataBlock.data_size) in
                        let new_size :=
                          Z.max old_size
                            (wrap32
                               (wrap64 (wp - pos / 488 * 488)
                                + Z.min (size - bw)
                                    (wrap64 (488 - wrap64 (wp - pos / 488 * 488))))) in
                        let m := wr32 m (data_block + DataBlock.data_size) new_size in
                        let m := update_checksum m data_block 5 in
                        if 488 <=? wrap64 (wp - pos / 488 * 488)
                                   + Z.min (size - bw)
                                       (wrap64 (488 - wrap64 (wp - pos / 488 * 488)))
                        then
                          write_loop fuel (set_mem st1 m) now h hp data size
                            (rd32 m (data_block + DataBlock.next_data)) cur1
                            ((pos / 488 + 1) * 488)
                            (bw + Z.min (size - bw)
                                    (wrap64 (488 - wrap64 (wp - pos / 488 * 488))))
                            (wp + Z.min (size - bw)
                                    (wrap64 (488 - wrap64 (wp - pos / 488 * 488))))
                        else
                          write_loop fuel (set_mem st1 m) now h hp data size
                            cur1 prev pos
                            (bw + Z.min (size - bw)
                                    (wrap64 (488 - wrap64 (wp - pos / 488 * 488))))
                            (wp + Z.min (size - bw)
                                    (wrap64 (488 - wrap64 (wp - pos / 488 * 488))))
                    | None => (- EIO, st1)
                    end)).
  { intros D1 st1 cur1 Hinv1 Hcur1 Hprev1.
    destruct (get_block_writable st1 cur1) as [dp|] eqn:Hdp; [|by exists D1].
    apply get_block_writable_Some in Hdp as [Hdp _].
    set (bo := wrap64 (wp - pos / 488 * 488)).
    destruct (Z.leb_spec 488 bo); [by exists D1|].
    assert (Hbo : 0 <= bo) by (unfold bo, wrap64; apply Z.mod_pos_bound; lia).
    assert (Hw : wrap64 (488 - bo) = 488 - bo)
      by (unfold wrap64; apply Z.mod_small; lia).
    rewrite Hw.
    set (ws := Z.min (size - bw) (488 - bo)).
    cbv zeta.
    set (m2 := update_checksum _ dp 5).
    pose proof Hinv1 as (_ & [_ (_ & _ & HhD) (_ & HrD) _ _ Hch] & _).
    assert (Hnext : rd32 m2 (dp + DataBlock.next_data)
                    = rd32 (mapped_data_ st1) (dp + DataBlock.next_data)).
    { unfold m2. unfold_offsets. rd32_skip. done. }
    assert (Hinv2 : write_inv st0 h V D1 (set_mem st1 m2)).
    { apply (write_inv_block_write st0 h V D1 st1 cur1 dp); try done.
      - by intros ->.
      - by intros ->.
      - unfold m2. unchanged_tac.
      - intros _. rewrite Hnext. by apply (Hch cur1). }
    destruct (488 <=? bo + ws).
    - apply (IH D1); [done| |by right].
      rewrite Hnext. by apply (Hch cur1).
    - apply (IH D1); [done|by right|done]. }
  destruct (Z.eqb_spec cur 0) as [->|Hcnz].
  - destruct (allocate_block st) as [nb st1] eqn:Halloc.
    destruct (Z.eqb_spec nb 0) as [->|Hnz].
    { apply allocate_block_fail in Halloc as ->; [by exists D|].
      intros H0. apply Hfp in H0. lia. }
    destruct (get_block_writable st1 nb) as [np|] eqn:Hnp.
    2:{ exists ({[nb]} ∪ D). by eapply write_inv_allocate. }
    apply (Hstep ({[nb]} ∪ D)).
    + by apply (write_inv_new_block st0 h hp V D st prev pos nb st1 np).
    + set_solver.
    + destruct Hprev; [by left|right; set_solver].
  - destruct Hcur as [?|Hcur]; [done|]. by apply (Hstep D).
Qed.

(** The first data block of an empty chain. *)
Lemma write_first_inv D st (size : Z) :
  write_inv st0 h V D st ->
  match
    (if (rd32 (mapped_data_ st) (hp + FileBlock.first_data) =? 0) && (0 <? size)
     then
       let '(first_data_block, st) := allocate_block st in
       if first_data_block =? 0 then inl (- ENOSPC, st) else
       let m := wr32 (mapped_data_ st) (hp + FileBlock.first_data)
                  first_data_block in
       let st := set_mem st (update_checksum m hp 5) in
       let st :=
         match get_block_writable st first_data_block with
         | Some data_block =>
           let m := mapped_data_ st in
           let m := wr32 m (data_block + DataBlock.type) T_DATA in
           let m := wr32 m (data_block + DataBlock.header_key) h in
           let m := wr32 m (data_block + DataBlock.seq_num) 1 in
           set_mem st (store32 m (data_block + DataBlock.next_data) 0)
         | None => st
         end in
       inr (st, first_data_block)
     else inr (st, rd32 (mapped_data_ st) (hp + FileBlock.first_data)))
  with
  | inl (_, s) => exists D', write_inv st0 h V D' s
  | inr (s, fd) => exists D', write_inv st0 h V D' s /\ (fd = 0 \/ fd ∈ D')
  end.
Proof.
  intros Hinv.
  assert (Hhp' : get_block st h = Some hp)
    by (destruct Hinv as (Hg & _); by rewrite (same_geometry_get_block st0 st)).
  pose proof Hinv as (_ & [Hfp _ _ _ Hfst _] & _).
  destruct (_ && _).
  2:{ exists D. split; [done|]. by apply Hfst. }
  destruct (allocate_block st) as [nb st1] eqn:Halloc.
  destruct (Z.eqb_spec nb 0) as [->|Hnz].
  { apply allocate_block_fail in Halloc as ->; [by exists D|].
    intros H0. apply Hfp in H0. lia. }
  assert (Hnbfree : nb ∈ free_blocks_ st).
  { destruct (allocate_block_footprint st nb st1) as (? & _); try done.
    intros x Hx. apply Hfp in Hx. lia. }
  destruct (write_inv_allocate st0 h V D st nb st1) as [Hinv1 _]; try done.
  exists ({[nb]} ∪ D). split; [|right; set_solver].
  assert (Hinv2 : write_inv st0 h V ({[nb]} ∪ D) (link_data_block st1 hp 0 nb)).
  { apply write_inv_link; try done; [by left|set_solver|].
    apply Hfp in Hnbfree. lia. }
  change (link_data_block st1 hp 0 nb)
    with (set_mem st1
            (update_checksum
               (wr32 (mapped_data_ st1) (hp + FileBlock.first_data) nb) hp 5))
    in Hinv2.
  set (st2 := set_mem st1 _) in *. clearbody st2.
  destruct (get_block_writable st2 nb) as [np|] eqn:Hnp; [|done].
  apply get_block_writable_Some in Hnp as [Hnp _].
  pose proof Hinv2 as (_ & [_ (_ & _ & HhD) (_ & HrD) _ _ _] & _).
  apply (write_inv_block_write st0 h V _ st2 nb np); try done.
  - intros ->. set_solver.
  - intros ->. set_solver.
  - unchanged_tac.
  - intros _. left. apply rd32_store32_zero.
Qed.

End WriteInvariant.

(** Storing the new size in the header keeps the separation. *)
Lemma file_separated_header_write h hp st D m' :
  file_separated st h D ->
  get_block st h = Some hp ->
  unchanged_outside hp (hp + 512) (mapped_data_ st) m' ->
  rd32 m' (hp + FileBlock.first_data)
  = rd32 (mapped_data_ st) (hp + FileBlock.first_data) ->
  file_separated (set_mem st m') h D.
Proof.
  intros [Hfp (Hhr & Hhf & HhD) Hrt Hpg Hfst Hch] Hhp' Hun Hfirst.
  split; cbn [free_blocks_ set_mem root_block_num_ mapped_data_]; try done.
  - intros x Hx. apply Hpg. revert Hx. apply bitmap_page_frame.
    intros rp i Hrp Hi. apply (rd32_unchanged hp (hp + 512)); [done|].
    unfold RootBlock.bm_pages.
    apply (blocks_apart st h (root_block_num_ st)); try done. lia.
  - intros hp' Hhp''. rewrite get_block_set_mem in Hhp''.
    rewrite Hhp' in Hhp''. injection Hhp'' as <-. rewrite Hfirst. by apply Hfst.
  - intros d' p' Hd' Hp'. rewrite get_block_set_mem in Hp'.
    rewrite (rd32_unchanged hp (hp + 512) (mapped_data_ st));
      [by apply (Hch d')|done|].
    unfold DataBlock.next_data. apply (blocks_apart st h d'); try done.
    by intros ->.
Qed.


(** C10: whatever [write_file] returns once it has passed its three entry
    checks (the full count, a smaller count or an errno after an allocation
    failure), the header stores [max(old_file_size, offset + n)], and the
    header checksum is right when the size changed or the checksum was right
    before. *)
Theorem partial_write_size_commitment (st : AdfImage) (now h hp : Z)
    (data : list byte) (n offset : Z) (D : gset Z) :
  read_only_ st = false -> h <> 0 -> get_block st h = Some hp ->
  0 <= n -> 0 <= offset -> offset + n < 4294967296 ->
  file_separated st h D ->
  let old := rd32 (mapped_data_ st) (hp + FileBlock.file_size) in
  let r := write_file st now h data n offset in
  rd32 (mapped_data_ (snd r)) (hp + FileBlock.file_size) = Z.max old (offset + n)
  /\ (old < offset + n \/ checksum_ok (mapped_data_ st) hp ->
      checksum_ok (mapped_data_ (snd r)) hp).
Proof.
  intros Hrw Hh Hhp Hn Hoff Hsum Hsep old r.
  set (V := Z.max old (offset + n)).
  set (st1 := if negb (V =? old)
              then set_mem st
                     (update_checksum
                        (wr32 (mapped_data_ st) (hp + FileBlock.file_size) V) hp 5)
              else st).
  assert (Hgeo1 : same_geometry st st1)
    by (unfold st1; destruct (negb _); by repeat split).
  assert (Hhp1 : get_block st1 h = Some hp)
    by (by rewrite (same_geometry_get_block st st1)).
  assert (Hrw1 : read_only_ st1 = false)
    by (destruct Hgeo1 as (_&_&->&_); done).
  assert (Hsize1 : rd32 (mapped_data_ st1) (hp + FileBlock.file_size) = V).
  { unfold st1. destruct (Z.eqb_spec V old) as [HV|Hne]; cbn [negb];
      [by rewrite HV|].
    cbn [mapped_data_ set_mem]. unfold_offsets. rd32_skip.
    rewrite rd32_wr32_same. apply wrap32_small.
    pose proof (rd32_range (mapped_data_ st) (hp + 324)). unfold V, old.
    unfold_offsets. lia. }
  assert (Hck1 : old < offset + n \/ checksum_ok (mapped_data_ st) hp ->
                 checksum_ok (mapped_data_ st1) hp).
  { unfold st1. destruct (Z.eqb_spec V old) as [HV|Hne]; cbn [negb].
    - intros [?|?]; [unfold V in HV; lia|done].
    - intros _. apply checksum_ok_update. }
  assert (Hinv1 : write_inv st1 h V D st1).
  { split; [apply same_geometry_refl|]. split.
    - unfold st1. destruct (negb _); [|done].
      apply (file_separated_header_write h hp); try done.
      + unchanged_tac.
      + unfold_offsets. by rd32_skip.
    - intros hp' Hhp'. rewrite Hhp1 in Hhp'. by injection Hhp' as <-. }
  assert (Hres : exists D', write_inv st1 h V D' (snd r)).
  { unfold r, write_file. rewrite Hrw.
    destruct (Z.eqb_spec h 0); [done|].
    rewrite get_block_writable_rw, Hhp by done.
    fold old. rewrite (wrap32_small (offset + n)) by lia. fold V. fold st1.
    clearbody st1.
    pose proof (write_first_inv st1 h hp V Hrw1 Hhp1 D st1 n Hinv1) as Hfirst.
    match type of Hfirst with
    | match ?f with _ => _ end => destruct f as [[e s]|[s fd]]
    end; [done|].
    destruct Hfirst as (D1 & HinvA & Hfd).
    destruct (write_walk _ s offset fd 0 0) as [[[cur prev] pos]|] eqn:Hwalk;
      [|by exists D1].
    pose proof HinvA as (_ & HsepA & _).
    apply (write_walk_on_chain h D1) in Hwalk as [Hcur Hprev];
      [|done|done|by left].
    pose proof (write_bridge_inv st1 h hp V Hrw1 Hhp1
                  (Z.to_nat (offset / 488 + 1)) D1 s offset cur prev pos
                  HinvA Hcur Hprev) as Hbridge.
    destruct (write_bridge _ _ _ _ _ _ _ _) as [[e s2]|[[[s2 c2] p2] q2]];
      [done|].
    destruct Hbridge as (D2 & HinvB & Hc2 & Hp2).
    by apply (write_loop_inv st1 h hp V Hrw1 Hhp1 now data n (Z.to_nat n) D2). }
  destruct Hres as (D' & _ & _ & Hfinal).
  destruct (Hfinal hp Hhp1) as [Hsz Hck].
  split; [done|]. intros H. by apply Hck, Hck1.
Qed.

(** ** Checking the separation on concrete volumes *)

Lemma on_chain_elem (D : list Z) (x : Z) :
  on_chain D x = true <-> x ∈ (list_to_set D : gset Z).
Proof.
  unfold on_chain. rewrite existsb_exists, elem_of_list_to_set. split.
  - intros (y & Hy & Heq). apply Z.eqb_eq in Heq as ->. by apply list_elem_of_In.
  - intros Hx. exists x. split; [by apply list_elem_of_In|apply Z.eqb_refl].
Qed.

Lemma on_chain_not_elem (D : list Z) (x : Z) :
  negb (on_chain D x) = true -> x ∉ (list_to_set D : gset Z).
Proof.
  intros H Hx. apply on_chain_elem in Hx. rewrite Hx in H. discriminate.
Qed.

Lemma on_chain_or_zero (D : list Z) (x : Z) :
  (x =? 0) || on_chain D x = true -> x = 0 \/ x ∈ (list_to_set D : gset Z).
Proof.
  intros H. apply orb_true_iff in H as [H|H].
  - left. by apply Z.eqb_eq.
  - right. by apply on_chain_elem.
Qed.

Lemma file_separated_check_sound (st : AdfImage) (h : Z) (D : list Z) :
  file_separated_check st h D = true -> file_separated st h (list_to_set D).
Proof.
  unfold file_separated_check. rewrite !andb_true_iff.
  intros ((((((((Hfree & Hhr) & Hhf) & HhD) & Hrf) & HrD) & Hpages) & Hfirst) & Hchain).
  apply negb_true_iff, Z.eqb_neq in Hhr.
  apply negb_true_iff, bool_decide_eq_false in Hhf.
  apply negb_true_iff, bool_decide_eq_false in Hrf.
  apply on_chain_not_elem in HhD. apply on_chain_not_elem in HrD.
  rewrite forallb_forall in Hfree, Hchain.
  split; try done.
  - intros x Hx. apply elem_of_elements, list_elem_of_In, Hfree in Hx. lia.
  - intros x (rp & i & Hrp & Hi & -> & Hnz). rewrite Hrp in Hpages.
    rewrite forallb_forall in Hpages.
    specialize (Hpages i). 
    assert (Hin : In i (seqZ 0 25)) by (apply list_elem_of_In, elem_of_seqZ; lia).
    apply Hpages in Hin. cbv zeta in Hin.
    apply orb_true_iff in Hin as [Hin|Hin]; [apply Z.eqb_eq in Hin; done|].
    rewrite !andb_true_iff in Hin. destruct Hin as (((H1 & H2) & H3) & H4).
    apply negb_true_iff, Z.eqb_neq in H1.
    apply negb_true_iff, Z.eqb_neq in H2.
    apply negb_true_iff, bool_decide_eq_false in H3.
    apply on_chain_not_elem in H4. done.
  - intros hp Hhp. rewrite Hhp in Hfirst. by apply on_chain_or_zero.
  - intros d p Hd Hp. apply elem_of_list_to_set, list_elem_of_In, Hchain in Hd.
    rewrite Hp in Hd. by apply on_chain_or_zero.
Qed.

Lemma partial_write_size_commitment_witness :
  let r := write_file cramped_volume 0 2 thousand_bytes 1000 0 in
  fst r = 976
  /\ rd32 (mapped_data_ (snd r)) (1024 + FileBlock.file_size)
     = Z.max (rd32 (mapped_data_ cramped_volume) (1024 + FileBlock.file_size))
         (0 + 1000).
Proof.
  intros r. split; [vm_compute; reflexivity|].
  assert (Hrw : read_only_ cramped_volume = false) by (vm_compute; reflexivity).
  assert (Hhp : get_block cramped_volume 2 = Some 1024)
    by (vm_compute; reflexivity).
  assert (Hsep : file_separated cramped_volume 2 (list_to_set [3])).
  { apply file_separated_check_sound. vm_compute. reflexivity. }
  exact (proj1 (partial_write_size_commitment cramped_volume 0 2 1024
                  thousand_bytes 1000 0 (list_to_set [3]) Hrw
                  ltac:(discriminate) Hhp ltac:(lia) ltac:(lia) ltac:(lia) Hsep)).
Defined.

(** ** A write behind the end of the chain *)

(** C1, at the input where it fails.  "/hello.txt" has size 5000 and a chain
    of one data block.  Writing 13 bytes at offset 1000 lies inside the file
    and [write_file] reports 13 bytes written, but the bridging loop leaves
    [current_block] at the block it has just appended for positions 488..975
    while [current_pos] already stands at 976: the payload lands at offset 24
    of that block, which is logical position 512.  The read at offset 1000
    returns zeros and the written bytes are read back at offset 512. *)
Theorem write_read_gap_mismatch :
  let r := write_file sparse_volume 1000000000 2 hello_bytes 13 1000 in
  rd32 (mapped_data_ sparse_volume) (1024 + FileBlock.file_size) = 5000
  /\ fst r = 13
  /\ read_file (snd r) 2 1000 13 = repeat Byte.x00 13
  /\ read_file (snd r) 2 512 13 = hello_bytes
  /\ read_file (snd r) 2 1000 13 <> hello_bytes.
Proof. vm_compute. repeat split. discriminate. Qed.

(** ** Truncation inside the last block *)


(** ** Data chains *)









(** ** Freeing a chain *)

Lemma in_block_inj x y a : in_block x a -> in_block y a -> x = y.
Proof. unfold in_block. lia. Qed.






Lemma free_block_sets st d :
  2 <= d -> d <> root_block_num_ st ->
  free_blocks_ (free_block st d) = {[d]} ∪ free_blocks_ st
  /\ used_blocks_ (free_block st d) = used_blocks_ st ∖ {[d]}.
Proof.
  intros H2 Hroot.
  destruct (free_block_cases st d) as [[Hg _]|(_ & m & ->)]; [|done].
  apply orb_true_iff in Hg as [Hg|Hg]; [apply Z.ltb_lt in Hg|apply Z.eqb_eq in Hg];
    lia.
Qed.


(** ** The walk to the cut *)


(** ** Truncation *)

(** A lookup changes the directory cache only. *)
Lemma only_cache_get_entry fuel now st path r st' :
  get_entry fuel now st path = Some (r, st') -> only_cache st st'.
Proof.
  apply (get_entry_preserves (only_cache st)).
  - intros s c [c0 ->]. by exists c.
  - exists (dir_cache_ st). by destruct st.
Qed.

Lemma only_cache_find_directory_block fuel now st path r st' :
  find_directory_block fuel now st path = Some (r, st') -> only_cache st st'.
Proof.
  apply (find_directory_block_preserves (only_cache st)).
  - intros s c [c0 ->]. by exists c.
  - exists (dir_cache_ st). by destruct st.
Qed.



(** The last three writes of [truncate_file] stay inside the header. *)
Lemma truncate_header_footprint m hp now v a :
  a < hp \/ hp + 512 <= a ->
  update_checksum (touch_fileblock (wr32 m (hp + FileBlock.file_size) v) hp now)
    hp 5 a = m a.
Proof.
  intros Ha.
  assert (H : unchanged_outside hp (hp + 512) m
                (update_checksum
                   (touch_fileblock (wr32 m (hp + FileBlock.file_size) v) hp now)
                   hp 5)) by unchanged_tac.
  by apply H.
Qed.

Lemma truncate_header_size m hp now v :
  rd32 (update_checksum
          (touch_fileblock (wr32 m (hp + FileBlock.file_size) v) hp now) hp 5)
    (hp + FileBlock.file_size) = wrap32 v.
Proof. unfold_offsets. rd32_skip. apply rd32_wr32_same. Qed.

Lemma truncate_header_other m hp now v a :
  a + 4 <= hp + 20 \/ (hp + 24 <= a /\ a + 4 <= hp + 324)
  \/ (hp + 328 <= a /\ a + 4 <= hp + 408) \/ hp + 420 <= a ->
  rd32 (update_checksum
          (touch_fileblock (wr32 m (hp + FileBlock.file_size) v) hp now) hp 5) a
  = rd32 m a.
Proof. intros Ha. unfold_offsets. by rd32_skip. Qed.









(** ** Truncation on a concrete volume *)


Lemma not_bitmap_page_check_sound st x :
  not_bitmap_page_check st x = true -> ~ bitmap_page st x.
Proof.
  unfold not_bitmap_page_check. intros Hc (rp & i & Hrp & Hi & -> & Hnz).
  rewrite Hrp, forallb_forall in Hc. specialize (Hc i).
  assert (Hin : In i (seqZ 0 25)) by (apply list_elem_of_In, elem_of_seqZ; lia).
  apply Hc in Hin. cbv zeta in Hin.
  apply orb_true_iff in Hin as [Hin|Hin]; [apply Z.eqb_eq in Hin; done|].
  apply negb_true_iff, Z.eqb_neq in Hin. done.
Qed.



(** ** Create and unlink *)

Lemma hash_name_range nm : 0 <= hash_name nm < 72.
Proof. unfold hash_name, HASH_TABLE_SIZE. apply Z.mod_pos_bound. lia. Qed.

Lemma keeps_first_data_refl m : keeps_first_data m m.
Proof. done. Qed.

Lemma keeps_first_data_trans m1 m2 m3 :
  keeps_first_data m1 m2 -> keeps_first_data m2 m3 -> keeps_first_data m1 m3.
Proof. intros H12 H23 x. by rewrite H23, H12. Qed.

Lemma get_block_writable_addr st b p :
  get_block_writable st b = Some p -> p = b * 512.
Proof.
  intros H. apply get_block_writable_Some in H as [H _].
  by apply get_block_Some in H as [-> _].
Qed.

Lemma get_block_addr st b p : get_block st b = Some p -> p = b * 512.
Proof. intros H. by apply get_block_Some in H as [-> _]. Qed.

(** Linking a header into a directory writes a slot of the directory, its
    time stamp and checksum, and [hash_chain] and checksum of the header. *)
Lemma add_to_directory_first_data st now d f nm :
  keeps_first_data (mapped_data_ st)
    (mapped_data_ (add_to_directory st now d f nm)).
Proof.
  pose proof (hash_name_range nm) as Hh. unfold add_to_directory.
  destruct (d =? root_block_num_ st);
    (destruct (get_block_writable st d) as [dp|] eqn:Hd; [|done]);
    apply get_block_writable_addr in Hd;
    (destruct (get_block_writable st f) as [fp|] eqn:Hf;
       [apply get_block_writable_addr in Hf|]);
    intros x; cbn [mapped_data_ set_mem]; unfold_offsets; rd32_skip; done.
Qed.

Lemma remove_from_chain_first_data fuel : forall st start target r st',
  remove_from_chain fuel st start target = Some (r, st') ->
  keeps_first_data (mapped_data_ st) (mapped_data_ st').
Proof.
  induction fuel as [|fuel IH]; intros st start target r st';
    cbn [remove_from_chain]; [discriminate|].
  destruct (start =? 0); [by intros [= <- <-]|].
  destruct (get_block_writable st start) as [bp|] eqn:Hb;
    [|by intros [= <- <-]].
  apply get_block_writable_addr in Hb.
  destruct (_ =? target); [|by apply IH].
  intros [= <- <-] x. cbn [mapped_data_ set_mem]. unfold_offsets.
  by rd32_skip.
Qed.

Lemma remove_from_directory_first_data fuel st now d f nm st' :
  remove_from_directory fuel st now d f nm = Some st' ->
  keeps_first_data (mapped_data_ st) (mapped_data_ st').
Proof.
  pose proof (hash_name_range nm) as Hh. unfold remove_from_directory.
  destruct (d =? root_block_num_ st);
    (destruct (get_block_writable st d) as [dp|] eqn:Hd;
       [|by intros [= <-]]);
    apply get_block_writable_addr in Hd;
    (destruct (_ =? f);
     [destruct (get_block st f); intros [= <-] x; cbn [mapped_data_ set_mem];
      unfold_offsets; by rd32_skip|]);
    (destruct (remove_from_chain fuel st _ f) as [[[|] s]|] eqn:Hc;
     [|by intros [= <-]; apply (remove_from_chain_first_data _ _ _ _ _ _ Hc)
      |discriminate]);
    intros [= <-]; apply remove_from_chain_first_data in Hc;
    intros x; cbn [mapped_data_ set_mem]; rewrite <- Hc;
    unfold_offsets; by rd32_skip.
Qed.

Ltac bad_result :=
  intros [= ? _];
  unfold EROFS, ENAMETOOLONG, EEXIST, ENOENT, ENOSPC, EIO, EISDIR in *; lia.

(** What a successful [create_file] has done: it took the least free block
    [b], made it a header without data blocks, and left the geometry and
    the other members of the two sets alone. *)
Lemma create_file_success fuel st t path st1 :
  create_file fuel st t path = Some (0, st1) ->
  exists b file,
    set_begin (free_blocks_ st) = Some b /\ b <> 0
    /\ get_block st b = Some file /\ read_only_ st = false
    /\ free_blocks_ st1 = free_blocks_ st ∖ {[b]}
    /\ used_blocks_ st1 = {[b]} ∪ used_blocks_ st
    /\ same_geometry st st1
    /\ rd32 (mapped_data_ st1) (file + FileBlock.first_data) = 0.
Proof.
  unfold create_file.
  destruct (read_only_ st) eqn:Hrw; [bad_result|].
  destruct (_ <? _); [bad_result|].
  destruct (get_entry fuel t st path) as [[[e0|] sa]|] eqn:Hget;
    [bad_result| |discriminate].
  destruct (only_cache_get_entry _ _ _ _ _ _ Hget) as [c ->].
  destruct (find_directory_block fuel t _ _) as [[P sb]|] eqn:Hfind;
    [|discriminate].
  destruct (only_cache_find_directory_block _ _ _ _ _ _ Hfind) as [c' ->].
  destruct (P =? 0); [bad_result|].
  destruct (allocate_block_cases (set_cache (set_cache st c) c'))
    as [->|(b & m & Hb & ->)].
  { rewrite Z.eqb_refl. bad_result. }
  destruct (Z.eqb_spec b 0) as [|Hb0]; [bad_result|].
  destruct (get_block_writable _ b) as [file|] eqn:Hfile; [|bad_result].
  destruct (unix_to_amiga_time t) as [[days mins] ticks].
  intros [= <-]. exists b, file.
  apply get_block_writable_Some in Hfile as [Hfile _].
  pose proof (get_block_addr _ _ _ Hfile) as Efile.
  split; [exact Hb|]. split; [done|]. split; [exact Hfile|]. split; [done|].
  match goal with
  | |- context [add_to_directory ?s t P b ?nm] =>
    set (s0 := s); set (filename := nm)
  end.
  assert (Hkeep : free_blocks_ (add_to_directory s0 t P b filename)
                  = free_blocks_ st ∖ {[b]}
                  /\ used_blocks_ (add_to_directory s0 t P b filename)
                     = {[b]} ∪ used_blocks_ st
                  /\ same_geometry st (add_to_directory s0 t P b filename)).
  { apply (add_to_directory_preserves
             (fun s => free_blocks_ s = free_blocks_ st ∖ {[b]}
                       /\ used_blocks_ s = {[b]} ∪ used_blocks_ st
                       /\ same_geometry st s)); [done|]. by repeat split. }
  destruct Hkeep as (Hf & Hu & Hg).
  split; [exact Hf|]. split; [exact Hu|]. split; [exact Hg|].
  cbn [mapped_data_ clear_cache set_cache].
  rewrite Efile, (add_to_directory_first_data s0 t P b filename b).
  subst s0. cbn [mapped_data_ set_mem]. rewrite <- Efile.
  unfold_offsets. rd32_skip. apply rd32_store32_zero.
Qed.

(** C6, amended: the block sets.  When [create_file] succeeds on a volume
    with disjoint block sets and [delete_file] of the same path then unlinks
    the header the create has made (the entry it finds is the block that was
    the least free one), the free set and the used set are again what they
    were before the create.  The root checksum is left out: both operations
    stamp a root parent with the current time. *)
Theorem create_unlink_block_sets (fuel : nat) (st st1 sc st2 : AdfImage)
    (t1 t2 : Z) (path : string) (e : Entry) :
  partition_inv st ->
  (forall x, x ∈ free_blocks_ st -> 0 <= x) ->
  create_file fuel st t1 path = Some (0, st1) ->
  get_entry fuel t2 st1 path = Some (Some e, sc) ->
  set_begin (free_blocks_ st) = Some (block_num e) ->
  delete_file fuel st1 t2 path = Some (0, st2) ->
  free_blocks_ st2 = free_blocks_ st /\ used_blocks_ st2 = used_blocks_ st.
Proof.
  intros (Hroot & Hdisj & _ & H0 & H1 & H880) Hnn Hcreate Hget Hleast.
  destruct (create_file_success _ _ _ _ _ Hcreate)
    as (b & file & Hb & Hb0 & Hfile & Hrw & Hfree1 & Hused1 & Hgeo1 & Hfd1).
  rewrite Hb in Hleast. injection Hleast as Hbe.
  apply set_begin_Some in Hb as [Hbfree _].
  assert (Hrw1 : read_only_ st1 = false) by (destruct Hgeo1 as (_&_&->&_); done).
  unfold delete_file. rewrite Hrw1, Hget, <- Hbe.
  destruct (only_cache_get_entry _ _ _ _ _ _ Hget) as [c ->].
  destruct (is_directory e); [bad_result|].
  destruct (find_directory_block fuel t2 _ _) as [[P sd]|] eqn:Hfind;
    [|discriminate].
  destruct (only_cache_find_directory_block _ _ _ _ _ _ Hfind) as [c' ->].
  destruct (remove_from_directory fuel _ t2 P b (name e)) as [se|] eqn:Hrem;
    [|discriminate].
  pose proof (remove_from_directory_first_data _ _ _ _ _ _ _ Hrem) as Hkeep.
  assert (Hse : free_blocks_ se = free_blocks_ st1
                /\ used_blocks_ se = used_blocks_ st1 /\ same_geometry st1 se).
  { apply (remove_from_directory_preserves
             (fun s => free_blocks_ s = free_blocks_ st1
                       /\ used_blocks_ s = used_blocks_ st1
                       /\ same_geometry st1 s)) in Hrem; [done|done|].
    by repeat split. }
  destruct Hse as (Hfse & Huse & Hgse).
  rewrite (same_geometry_get_block st1 se), (same_geometry_get_block st st1),
    Hfile by done.
  pose proof (get_block_addr _ _ _ Hfile) as Efile.
  rewrite Efile, Hkeep. cbn [mapped_data_ set_cache]. rewrite <- Efile, Hfd1.
  destruct fuel as [|fuel]; [discriminate|]. cbn [free_chain]. rewrite Z.eqb_refl.
  intros [= <-]. cbn [free_blocks_ used_blocks_ clear_cache set_cache].
  assert (Hrse : root_block_num_ se = 880).
  { destruct Hgse as (_&_&_&->). destruct Hgeo1 as (_&_&_&->). done. }
  assert (Hbused : b ∉ used_blocks_ st) by set_solver.
  destruct (free_block_sets se b) as [-> ->].
  - pose proof (Hnn b Hbfree). destruct (decide (b = 1)) as [->|]; [done|]. lia.
  - rewrite Hrse. intros ->. done.
  - rewrite Hfse, Huse, Hfree1, Hused1. clear - Hbfree Hbused.
    split; apply set_eq; intros x; set_unfold; destruct (decide (x = b));
      naive_solver.
Qed.

(** ** Create and unlink on the small volume *)

Lemma elem_of_small_free x : x ∈ small_free <-> 2 <= x < 10.
Proof. unfold small_free. rewrite elem_of_list_to_set, elem_of_seqZ. lia. Qed.

Lemma elem_of_small_used x : x ∈ small_used <-> 0 <= x < 2 \/ 10 <= x < 1760.
Proof.
  unfold small_used.
  rewrite elem_of_union, !elem_of_list_to_set, !elem_of_seqZ. lia.
Qed.

Lemma partition_inv_small_volume : partition_inv small_volume.
Proof.
  split; [reflexivity|]. split; [|split; [|split; [|split]]].
  - intros x Hf Hu. change (x ∈ small_free) in Hf. change (x ∈ small_used) in Hu.
    apply elem_of_small_free in Hf. apply elem_of_small_used in Hu. lia.
  - intros b Hb. change (total_blocks small_volume) with 1760 in Hb.
    change (b ∈ small_free ∪ small_used).
    rewrite elem_of_union, elem_of_small_free, elem_of_small_used. lia.
  - change (0 ∈ small_used). apply elem_of_small_used. lia.
  - change (1 ∈ small_used). apply elem_of_small_used. lia.
  - change (880 ∈ small_used). apply elem_of_small_used. lia.
Qed.

Lemma create_unlink_block_sets_witness :
  free_blocks_ unlinked_volume = free_blocks_ small_volume
  /\ used_blocks_ unlinked_volume = used_blocks_ small_volume.
Proof.
  pose (e := entry_of (mapped_data_ hello_created) 1024 2 "hello.txt").
  pose (r := get_entry 4 1000000000 hello_created "/hello.txt").
  apply (create_unlink_block_sets 4 small_volume hello_created
           (snd (run (None, hello_created) r)) unlinked_volume
           1000000000 1000000000 "/hello.txt" e).
  - exact partition_inv_small_volume.
  - intros x Hx. change (x ∈ small_free) in Hx.
    apply elem_of_small_free in Hx. lia.
  - apply run_pair; vm_compute; reflexivity.
  - apply run_pair; vm_compute; reflexivity.
  - vm_compute. reflexivity.
  - apply run_pair; vm_compute; reflexivity.
Defined.

(** C6 as stated fails on the root checksum: "/hello.txt" is created and
    unlinked on the small volume; the root gets the time of the operations
    and its checksum is another one than before the create, while the hash
    table is empty again. *)
Lemma create_unlink_root_checksum_counterexample :
  fst (run (1, small_volume)
         (create_file 4 small_volume 1000000000 "/hello.txt")) = 0
  /\ fst (run (1, hello_created)
            (delete_file 4 hello_created 1000000000 "/hello.txt")) = 0
  /\ rd32 (mapped_data_ small_volume) (880 * 512 + RootBlock.checksum)
     = 2252443349
  /\ rd32 (mapped_data_ unlinked_volume) (880 * 512 + RootBlock.checksum)
     = 2252432591
  /\ rd32 (mapped_data_ unlinked_volume) (880 * 512 + RootBlock.checksum)
     <> rd32 (mapped_data_ small_volume) (880 * 512 + RootBlock.checksum).
Proof. vm_compute. repeat split. discriminate. Qed.

(** * Further properties of the code *)

(** ** BCPL strings *)

Lemma length_list_byte_of_string (s : string) :
  length (list_byte_of_string s) = String.length s.
Proof.
  unfold list_byte_of_string. rewrite length_map.
  induction s as [|c s IH]; cbn [list_ascii_of_string length String.length];
    [done|]. by rewrite IH.
Qed.

Lemma bytes_at_lookup m a len (i : nat) :
  Z.of_nat i < len -> BcplString.bytes_at m a len !! i = Some (m (a + Z.of_nat i)).
Proof.
  intros Hi. unfold BcplString.bytes_at.
  change (List.map ?f ?l) with (f <$> l).
  by rewrite list_lookup_fmap, lookup_seqZ_lt.
Qed.

Lemma bcpl_write_length_byte m data str max_len :
  0 <= max_len ->
  BcplString.write m data str max_len data
  = byte_of (Z.min (Z.of_nat (String.length str)) max_len).
Proof.
  intros Hmax. unfold BcplString.write.
  set (len := Z.min _ max_len). assert (0 <= len) by (unfold len; lia).
  destruct (len <? max_len); [rewrite unchanged_memset by lia|];
    (destruct (0 <? len); [rewrite unchanged_memcpy_from by lia|]);
    apply store8_same.
Qed.

Lemma bcpl_write_payload m data str max_len (i : Z) :
  0 <= i < Z.min (Z.of_nat (String.length str)) max_len ->
  BcplString.write m data str max_len (data + 1 + i)
  = nth (Z.to_nat i) (list_byte_of_string str) Byte.x00.
Proof.
  intros Hi. unfold BcplString.write.
  set (len := Z.min _ max_len) in *.
  rewrite (proj2 (Z.ltb_lt 0 len)) by lia.
  destruct (len <? max_len); [rewrite unchanged_memset by lia|];
    rewrite memcpy_from_inside by lia; do 2 f_equal; lia.
Qed.

Lemma bcpl_read_after_write (m : mem) (data : Z) (str : string) (max_len : Z) :
  0 <= max_len <= 255 ->
  BcplString.read (BcplString.write m data str max_len) data max_len
  = string_of_list_byte (take (Z.to_nat max_len) (list_byte_of_string str)).
Proof.
  intros Hmax.
  unfold BcplString.read. rewrite bcpl_write_length_byte by lia.
  set (len := Z.min (Z.of_nat (String.length str)) max_len).
  assert (Hlen : 0 <= len <= 255) by (unfold len; lia).
  rewrite byte_val_of, Z.mod_small by lia.
  destruct (Z.eqb_spec len 0) as [E0|Hne].
  - destruct (Z.eq_dec max_len 0) as [->|]; [done|].
    assert (Hs : String.length str = 0%nat) by (unfold len in E0; lia).
    destruct str; [|discriminate]. by destruct (Z.to_nat max_len).
  - f_equal. rewrite Z.min_l by (unfold len; lia).
    apply list_eq. intros i.
    destruct (Z.lt_ge_cases (Z.of_nat i) len) as [Hi|Hi].
    + rewrite bytes_at_lookup by done.
      rewrite lookup_take_lt by (unfold len in Hi; lia).
      rewrite bcpl_write_payload by (fold len; lia).
      rewrite Nat2Z.id. symmetry.
      destruct (nth_lookup_or_length (list_byte_of_string str) i Byte.x00)
        as [E|E]; [done|].
      rewrite length_list_byte_of_string in E. unfold len in Hi. lia.
    + transitivity (@None byte).
      * apply lookup_ge_None. unfold BcplString.bytes_at.
        rewrite length_map, length_seqZ. lia.
      * symmetry. apply lookup_ge_None. rewrite length_take.
        rewrite length_list_byte_of_string. unfold len in Hi. lia.
Qed.

Lemma bcpl_read_after_write_short (m : mem) (data : Z) (str : string)
    (max_len : Z) :
  0 <= max_len <= 255 -> Z.of_nat (String.length str) <= max_len ->
  BcplString.read (BcplString.write m data str max_len) data max_len = str.
Proof.
  intros Hmax Hshort. rewrite bcpl_read_after_write by done.
  rewrite take_ge by (rewrite length_list_byte_of_string; lia).
  apply string_of_list_byte_of_string.
Qed.


(** X1.  A name written by [BcplString::write] is read back by
    [BcplString::read] cut to [max_len] bytes, so a name of at most [max_len]
    bytes is read back as it was written. *)
Theorem bcpl_string_round_trip (m : mem) (data : Z) (str : string) (max_len : Z) :
  0 <= max_len <= 255 ->
  BcplString.read (BcplString.write m data str max_len) data max_len
  = string_of_list_byte (take (Z.to_nat max_len) (list_byte_of_string str))
  /\ (Z.of_nat (String.length str) <= max_len ->
      BcplString.read (BcplString.write m data str max_len) data max_len = str).
Proof.
  intros Hmax. split; [by apply bcpl_read_after_write|].
  by apply bcpl_read_after_write_short.
Qed.

Lemma bcpl_string_round_trip_witness :
  BcplString.read (BcplString.write zero_mem 432 "hello.txt" 30) 432 30
  = "hello.txt"%string.
Proof.
  apply (bcpl_string_round_trip zero_mem 432 "hello.txt" 30); [lia|].
  cbn [String.length]. lia.
Defined.

(** ** Amiga time *)

(** X2.  For a time between 1978 and the end of the 32-bit range of Amiga
    seconds, the day, minute and tick words [unix_to_amiga_time] produces are
    in their calendar ranges and [amiga_to_unix_time] gives the time back. *)
Theorem amiga_time_round_trip (t : Z) :
  AMIGA_EPOCH_OFFSET <= t < AMIGA_EPOCH_OFFSET + 4294967296 ->
  let '(days, mins, ticks) := unix_to_amiga_time t in
  amiga_to_unix_time days mins ticks = t
  /\ 0 <= days < 49711 /\ 0 <= mins < 1440 /\ 0 <= ticks < 3000.
Proof.
  unfold unix_to_amiga_time, amiga_to_unix_time, AMIGA_EPOCH_OFFSET.
  intros Ht. set (a := t - 2922 * 24 * 60 * 60).
  assert (Ha : 0 <= a < 4294967296) by (unfold a; lia).
  change (24 * 60 * 60) with 86400.
  rewrite (Z.quot_div_nonneg a), (Z.rem_mod_nonneg a) by lia.
  pose proof (Z.mod_pos_bound a 86400 ltac:(lia)) as Hr1.
  pose proof (Z.div_mod a 86400 ltac:(lia)) as Hd1.
  set (r1 := a mod 86400) in *. set (d := a / 86400) in *.
  assert (Hd : 0 <= d < 49711) by (unfold d; lia).
  rewrite (Z.quot_div_nonneg r1), (Z.rem_mod_nonneg r1) by lia.
  pose proof (Z.mod_pos_bound r1 60 ltac:(lia)) as Hr2.
  pose proof (Z.div_mod r1 60 ltac:(lia)) as Hd2.
  set (r2 := r1 mod 60) in *. set (mi := r1 / 60) in *.
  assert (Hmi : 0 <= mi < 1440) by (unfold mi; lia).
  rewrite (wrap32_small d), (wrap32_small mi), (wrap32_small (r2 * 50)) by lia.
  replace (d * 24 * 60 * 60) with (d * 86400) by lia.
  rewrite (wrap32_small (d * 86400)), (wrap32_small (mi * 60)) by lia.
  rewrite Z.div_mul by lia. unfold a in *. lia.
Qed.

Lemma amiga_time_round_trip_witness :
  let '(days, mins, ticks) := unix_to_amiga_time 1000000000 in
  amiga_to_unix_time days mins ticks = 1000000000
  /\ 0 <= days < 49711 /\ 0 <= mins < 1440 /\ 0 <= ticks < 3000.
Proof.
  apply (amiga_time_round_trip 1000000000). unfold AMIGA_EPOCH_OFFSET. lia.
Defined.

(** ** Big-endian fields *)

(** X3.  A 32-bit field is stored most significant byte first, and reading
    the field gives the value back; the two endian conversions undo each
    other. *)
Theorem big_endian_field_round_trip (m : mem) (a v : Z) :
  0 <= v < 4294967296 ->
  byte_val (wr32 m a v a) = v / 16777216
  /\ byte_val (wr32 m a v (a + 1)) = v / 65536 mod 256
  /\ byte_val (wr32 m a v (a + 2)) = v / 256 mod 256
  /\ byte_val (wr32 m a v (a + 3)) = v mod 256
  /\ rd32 (wr32 m a v) a = v
  /\ endian.from_big_endian (endian.to_big_endian v) = v.
Proof.
  intros Hv.
  assert (Hsw : endian.byteswap (endian.byteswap v) = v)
    by (rewrite byteswap_involutive; apply Z.mod_small; lia).
  split; [|split; [|split; [|split; [|split]]]].
  5: rewrite rd32_wr32_same; by apply wrap32_small.
  5: exact Hsw.
  all: unfold wr32, store32, endian.to_big_endian, endian.from_big_endian,
         endian.byteswap, store8;
    repeat match goal with
           | |- context [Z.eqb ?x ?y] => destruct (Z.eqb_spec x y); try lia
           end;
    rewrite byte_val_of; Z.div_mod_to_equations; lia.
Qed.

Lemma big_endian_field_round_trip_witness :
  byte_val (wr32 zero_mem 0 DOS_FFS 0) = 68
  /\ rd32 (wr32 zero_mem 0 DOS_FFS) 0 = DOS_FFS.
Proof.
  destruct (big_endian_field_round_trip zero_mem 0 DOS_FFS
              ltac:(unfold DOS_FFS; lia)) as (H0 & _ & _ & _ & Hrd & _).
  split; [exact H0|exact Hrd].
Defined.

(** ** The name hash *)

Lemma toupper_range c : 0 <= c < 256 -> 0 <= toupper c < 256.
Proof.
  intros Hc. unfold toupper.
  destruct (Z.leb_spec 97 c), (Z.leb_spec c 122); cbn [andb]; lia.
Qed.

Lemma toupper_idem c : toupper (toupper c) = toupper c.
Proof.
  unfold toupper.
  destruct (Z.leb_spec 97 c), (Z.leb_spec c 122); cbn [andb]; try done;
    destruct (Z.leb_spec 97 (c - 32)), (Z.leb_spec (c - 32) 122);
    cbn [andb]; try done; try lia;
    destruct (Z.leb_spec 97 c), (Z.leb_spec c 122); cbn [andb]; done || lia.
Qed.

Lemma toupper_upper_byte c : toupper (byte_val (upper_byte c)) = toupper (byte_val c).
Proof.
  unfold upper_byte. rewrite byte_val_of, Z.mod_small.
  - apply toupper_idem.
  - apply toupper_range, byte_val_range.
Qed.

Lemma hash_fold_upper (l : list byte) : forall h,
  fold_left (fun hash c => wrap32 (hash * 13 + toupper (byte_val c)))
    (List.map upper_byte l) h
  = fold_left (fun hash c => wrap32 (hash * 13 + toupper (byte_val c))) l h.
Proof.
  induction l as [|c l IH]; intros h; cbn [fold_left List.map]; [done|].
  by rewrite toupper_upper_byte, IH.
Qed.

(** X4.  The hash of a name is a slot of the 72-entry hash table and does not
    depend on the case of its ASCII letters. *)
Theorem hash_name_slot_case_insensitive (nm : string) :
  0 <= hash_name nm < HASH_TABLE_SIZE
  /\ hash_name (upper_string nm) = hash_name nm.
Proof.
  split; [apply Z.mod_pos_bound; unfold HASH_TABLE_SIZE; lia|].
  unfold hash_name, upper_string.
  rewrite list_byte_of_string_of_list_byte, hash_fold_upper.
  rewrite <- !length_list_byte_of_string, list_byte_of_string_of_list_byte.
  by rewrite length_map.
Qed.

(** ** Paths *)

Lemma find_last_of_from_absent (c : ascii) (s : string) : forall i found,
  has_char c s = false -> find_last_of_from s c i found = found.
Proof.
  induction s as [|a s IH]; intros i found; cbn [has_char find_last_of_from];
    [done|].
  destruct (Ascii.eqb a c); cbn [orb]; [discriminate|]. apply IH.
Qed.

Lemma append_empty (s : string) : ("" ++ s)%string = s.
Proof. reflexivity. Qed.

Lemma append_String (a : ascii) (p s : string) :
  (String a p ++ s)%string = String a (p ++ s).
Proof. reflexivity. Qed.

Lemma find_last_of_from_append (c : ascii) (p s : string) : forall i found,
  has_char c s = false ->
  find_last_of_from (p ++ String c s) c i found = Some (i + String.length p)%nat.
Proof.
  induction p as [|a p IH]; intros i found Hs;
    rewrite ?append_empty, ?append_String;
    cbn [find_last_of_from String.length].
  - rewrite Ascii.eqb_refl, find_last_of_from_absent by done. f_equal. lia.
  - rewrite IH by done. f_equal. lia.
Qed.

Lemma substring_all (s : string) : substring 0 (String.length s) s = s.
Proof. induction s as [|a s IH]; cbn; [done|]. by rewrite IH. Qed.

Lemma substring_prefix (p s : string) :
  substring 0 (String.length p) (p ++ s) = p.
Proof.
  induction p as [|a p IH]; rewrite ?append_empty, ?append_String;
    cbn [String.length substring].
  - by destruct s.
  - by rewrite IH.
Qed.

Lemma substring_skip (p s : string) (n len : nat) :
  substring (String.length p + n) len (p ++ s) = substring n len s.
Proof.
  induction p as [|a p IH]; rewrite ?append_empty, ?append_String;
    cbn [String.length Nat.add substring]; done.
Qed.

Lemma length_append (p s : string) :
  String.length (p ++ s) = (String.length p + String.length s)%nat.
Proof.
  induction p as [|a p IH]; rewrite ?append_empty, ?append_String;
    cbn [String.length Nat.add]; [done|]. by rewrite IH.
Qed.

(** X5.  The split of a path at its last slash, as [get_entry] and the
    create and delete operations do it: for [parent/name] with no slash in
    [name] the parent path is [parent] (the root for an empty [parent]) and
    the entry name is [name]. *)
Theorem path_split_at_last_slash (parent nm : string) :
  has_char "/" nm = false ->
  parent_path_of (parent ++ String "/" nm)
  = (if String.eqb parent "" then "/"%string else parent)
  /\ entry_name_of (parent ++ String "/" nm) = nm.
Proof.
  intros Hnm. unfold parent_path_of, entry_name_of, find_last_of.
  rewrite find_last_of_from_append by done. cbn [Nat.add]. split.
  - destruct parent as [|a p]; [done|].
    cbn [String.length String.eqb].
    rewrite append_String. cbn [substring]. by rewrite substring_prefix.
  - rewrite length_append. cbn [String.length].
    replace (String.length parent + S (String.length nm) - S (String.length parent))%nat
      with (String.length nm) by lia.
    replace (S (String.length parent)) with (String.length parent + 1)%nat by lia.
    rewrite substring_skip. cbn [substring]. apply substring_all.
Qed.

Lemma path_split_at_last_slash_witness :
  parent_path_of "/docs/readme.txt" = "/docs"%string
  /\ entry_name_of "/docs/readme.txt" = "readme.txt"%string.
Proof.
  exact (path_split_at_last_slash "/docs" "readme.txt" eq_refl).
Defined.

Lemma is_root_path_without_slash (path : string) :
  has_char "/" path = false -> path <> ""%string -> is_root_path path = false.
Proof.
  intros Hs Hne. unfold is_root_path.
  destruct path as [|a p]; [done|]. cbn [has_char] in Hs.
  apply orb_false_iff in Hs as [Ha _]. cbn [String.eqb]. by rewrite Ha.
Qed.

(** X6.  A path without a slash is its own parent path
    ([substr(0, npos)]), so looking up a non-empty path without a slash that
    is not in the directory cache never returns: [get_entry] asks
    [list_directory] for the same path, that asks [find_directory_block],
    and that asks [get_entry] again.  In the model every amount of fuel runs
    out. *)
Theorem lookup_without_slash_never_returns (path : string) (now : Z) :
  has_char "/" path = false -> path <> ""%string ->
  forall (fuel : nat) (st : AdfImage),
    dir_cache_ st !! path = None ->
    get_entry fuel now st path = None
    /\ list_directory fuel now st path = None
    /\ find_directory_block fuel now st path = None.
Proof.
  intros Hs Hne.
  assert (Hparent : parent_path_of path = path).
  { unfold parent_path_of, find_last_of.
    by rewrite find_last_of_from_absent. }
  pose proof (is_root_path_without_slash path Hs Hne) as Hroot.
  induction fuel as [|fuel IH]; intros st Hcache; [done|].
  destruct (IH st Hcache) as (Hg & Hl & Hf).
  cbn [get_entry list_directory find_directory_block].
  unfold get_cached_dir. by rewrite Hroot, Hparent, Hcache, Hg, Hl, Hf.
Qed.

Lemma lookup_without_slash_never_returns_witness :
  get_entry 100 0 small_volume "readme" = None.
Proof.
  apply (lookup_without_slash_never_returns "readme" 0 eq_refl
           ltac:(discriminate) 100 small_volume eq_refl).
Defined.

(** ** The bitmap and the allocator *)

Lemma update_checksum_sum_zero (m : mem) (block off : Z) :
  0 <= off < 128 ->
  wrap32 (sumZ (block_words (update_checksum m block off) block)) = 0.
Proof.
  intros Hoff. set (m' := update_checksum m block off).
  assert (Hsplit : sumZ (block_words m' block)
                   = sumZ (block_words_without m' block off)
                     + rd32 m' (block + 4 * off)).
  { unfold block_words, block_words_without.
    apply (sumZ_split (fun i => rd32 m' (block + 4 * i))).
    - apply NoDup_seqZ.
    - apply elem_of_seqZ. lia. }
  rewrite Hsplit. subst m'.
  rewrite block_words_without_update, update_checksum_word.
  unfold wrap32. rewrite Zplus_mod_idemp_r.
  by rewrite Z.add_opp_diag_r.
Qed.

Lemma testbit_wrap32 (z j : Z) :
  0 <= j < 32 -> Z.testbit (wrap32 z) j = Z.testbit z j.
Proof.
  intros Hj. unfold wrap32. change 4294967296 with (2 ^ 32).
  apply Z.mod_pow2_bits_low. lia.
Qed.

Lemma testbit_set_bit (w bi j : Z) :
  0 <= bi -> 0 <= j < 32 ->
  Z.testbit (wrap32 (Z.lor w (Z.shiftl 1 bi))) j
  = if j =? bi then true else Z.testbit w j.
Proof.
  intros Hbi Hj. rewrite testbit_wrap32, Z.lor_spec, Z.shiftl_1_l by done.
  rewrite Z.pow2_bits_eqb by done. rewrite (Z.eqb_sym bi j).
  destruct (j =? bi); [apply orb_true_r|apply orb_false_r].
Qed.

Lemma testbit_clear_bit (w bi j : Z) :
  0 <= bi -> 0 <= j < 32 ->
  Z.testbit (wrap32 (Z.land w (wrap32 (Z.lnot (Z.shiftl 1 bi))))) j
  = if j =? bi then false else Z.testbit w j.
Proof.
  intros Hbi Hj.
  rewrite testbit_wrap32, Z.land_spec, testbit_wrap32, Z.lnot_spec by lia.
  rewrite Z.shiftl_1_l, Z.pow2_bits_eqb by done. rewrite (Z.eqb_sym bi j).
  destruct (j =? bi); [apply andb_false_r|apply andb_true_r].
Qed.

(** X7.  [update_bitmap_for_block] on a block of the image whose bitmap page
    is present and writable sets the block's bit in the page to [is_free]
    (1 = free), leaves every other bit and every other map word as it was,
    writes nothing outside the page, and leaves the page with its 128 words
    summing to 0. *)
Theorem bitmap_bit_tracks_allocation (st : AdfImage) (b : Z) (is_free : bool)
    (rp bitmap : Z) :
  let m := mapped_data_ st in
  let page := rd32 m (rp + RootBlock.bm_pages (b / 4064)) in
  let wi := b mod 4064 / 32 in
  let bi := b mod 4064 mod 32 in
  let m' := mapped_data_ (update_bitmap_for_block st b is_free) in
  0 <= b < total_blocks st -> b / 4064 < 25 ->
  get_block st (root_block_num_ st) = Some rp ->
  page <> 0 -> get_block_writable st page = Some bitmap ->
  (forall j, 0 <= j < 32 ->
     Z.testbit (rd32 m' (bitmap + BitmapBlock.map wi)) j
     = if j =? bi then is_free
       else Z.testbit (rd32 m (bitmap + BitmapBlock.map wi)) j)
  /\ (forall k, 0 <= k < 127 -> k <> wi ->
        rd32 m' (bitmap + BitmapBlock.map k) = rd32 m (bitmap + BitmapBlock.map k))
  /\ (forall a, a < bitmap \/ bitmap + 512 <= a -> m' a = m a)
  /\ wrap32 (sumZ (block_words m' bitmap)) = 0.
Proof.
  intros m page wi bi m' Hb Hidx Hroot Hpage Hbitmap.
  pose proof (Z.mod_pos_bound b 4064 ltac:(lia)) as Hmod.
  assert (Hwi : 0 <= wi < 127).
  { unfold wi. split; [apply Z.div_pos; lia|apply Z.div_lt_upper_bound; lia]. }
  assert (Hbi : 0 <= bi < 32) by (unfold bi; apply Z.mod_pos_bound; lia).
  assert (Em' : m' = update_bitmap_checksum
                       (wr32 m (bitmap + BitmapBlock.map wi)
                          (if is_free
                           then Z.lor (rd32 m (bitmap + BitmapBlock.map wi))
                                  (Z.shiftl 1 bi)
                           else Z.land (rd32 m (bitmap + BitmapBlock.map wi))
                                  (wrap32 (Z.lnot (Z.shiftl 1 bi))))) bitmap).
  { unfold m', update_bitmap_for_block.
    rewrite (proj2 (Z.leb_gt (total_blocks st) b)) by lia.
    rewrite (proj2 (Z.leb_gt 25 (b / 4064))) by lia.
    rewrite Hroot. fold m. fold page.
    rewrite (proj2 (Z.eqb_neq page 0)), Hbitmap by done. done. }
  rewrite Em'. unfold update_bitmap_checksum, BitmapBlock.map.
  split; [|split; [|split]].
  - intros j Hj. rewrite rd32_update_checksum_other, rd32_wr32_same by lia.
    destruct is_free; [apply testbit_set_bit|apply testbit_clear_bit]; lia.
  - intros k Hk Hne.
    rewrite rd32_update_checksum_other, rd32_wr32_other by lia. done.
  - intros a Ha. rewrite update_checksum_other, wr32_other by lia. done.
  - apply update_checksum_sum_zero. lia.
Qed.

Lemma bitmap_bit_tracks_allocation_witness :
  Z.testbit
    (rd32 (mapped_data_ (update_bitmap_for_block small_volume 5 false))
       (881 * 512 + BitmapBlock.map 0)) 5 = false
  /\ Z.testbit (rd32 (mapped_data_ small_volume) (881 * 512 + BitmapBlock.map 0)) 5
     = true.
Proof.
  split; [|vm_compute; reflexivity].
  refine (proj1 (bitmap_bit_tracks_allocation small_volume 5 false
                   (880 * 512) (881 * 512) _ _ _ _ _) 5 _).
  - vm_compute. split; [discriminate|reflexivity].
  - vm_compute. reflexivity.
  - vm_compute. reflexivity.
  - vm_compute. discriminate.
  - vm_compute. reflexivity.
  - lia.
Defined.

(** X8.  [allocate_block] hands out the least free block: a non-zero
    result is the minimum of the free set, it moves from the free to the
    used set, the block is zero-filled when it lies in a writable image, and
    no byte outside that block and the bitmap pages changes.  A result of 0
    on a volume whose free set does not hold block 0 leaves the handler as
    it was. *)
Theorem allocate_block_least_free (st st' : AdfImage) (b : Z) :
  (forall x, x ∈ free_blocks_ st -> 0 <= x) ->
  allocate_block st = (b, st') ->
  (b = 0 -> 0 ∉ free_blocks_ st -> st' = st)
  /\ (b <> 0 ->
      b ∈ free_blocks_ st
      /\ (forall x, x ∈ free_blocks_ st -> b <= x)
      /\ free_blocks_ st' = free_blocks_ st ∖ {[b]}
      /\ used_blocks_ st' = {[b]} ∪ used_blocks_ st
      /\ same_geometry st st'
      /\ (forall a, (forall x, bitmap_page st x -> ~ in_block x a) ->
                    ~ in_block b a ->
                    mapped_data_ st' a = mapped_data_ st a)
      /\ (forall p a, get_block_writable st b = Some p ->
                      (forall x, bitmap_page st x -> x <> b) ->
                      p <= a < p + 512 -> mapped_data_ st' a = Byte.x00)).
Proof.
  intros Hnn Halloc. split.
  - intros -> H0. by apply allocate_block_fail.
  - intros Hb.
    destruct (allocate_block_footprint st b st' Hnn Halloc Hb)
      as (Hin & Hfree & Hused & _ & Hframe & Hzero).
    assert (Hleast : forall x, x ∈ free_blocks_ st -> b <= x).
    { destruct (allocate_block_cases st) as [E|(b0 & m0 & Hb0 & E)];
        rewrite E in Halloc; injection Halloc as <- <-; [done|].
      by apply set_begin_Some in Hb0 as [_ ?]. }
    assert (Hgeo : same_geometry st st').
    { pose proof (same_geometry_allocate st) as H. by rewrite Halloc in H. }
    done.
Qed.

Lemma allocate_block_least_free_witness :
  fst (allocate_block small_volume) = 2
  /\ (forall x, x ∈ free_blocks_ small_volume ->
        fst (allocate_block small_volume) <= x).
Proof.
  assert (Hnn : forall x, x ∈ free_blocks_ small_volume -> 0 <= x).
  { intros x Hx. change (x ∈ small_free) in Hx.
    apply elem_of_small_free in Hx. lia. }
  assert (E : fst (allocate_block small_volume) = 2) by (vm_compute; reflexivity).
  split; [exact E|].
  refine (proj1 (proj2 (proj2 (allocate_block_least_free small_volume
            (snd (allocate_block small_volume)) (fst (allocate_block small_volume))
            Hnn _) _))).
  - by destruct (allocate_block small_volume).
  - rewrite E. discriminate.
Defined.

(** X9.  [free_block] never frees a system block: for the boot blocks 0 and
    1 and for the root block it does nothing.  Any other block ends up in
    the free set and out of the used set, the other members of both sets
    stay, and only bitmap pages are written. *)
Theorem free_block_spares_system_blocks (st : AdfImage) (b : Z) :
  0 <= b ->
  (b < 2 \/ b = root_block_num_ st -> free_block st b = st)
  /\ (2 <= b -> b <> root_block_num_ st ->
      free_blocks_ (free_block st b) = {[b]} ∪ free_blocks_ st
      /\ used_blocks_ (free_block st b) = used_blocks_ st ∖ {[b]})
  /\ same_geometry st (free_block st b)
  /\ (forall a, (forall x, bitmap_page st x -> ~ in_block x a) ->
                mapped_data_ (free_block st b) a = mapped_data_ st a).
Proof.
  intros Hb. split; [|split; [|split]].
  - intros Hsys. unfold free_block.
    destruct (Z.ltb_spec b 2); [done|].
    destruct (Z.eqb_spec b (root_block_num_ st)); [done|]. lia.
  - apply free_block_sets.
  - apply same_geometry_free.
  - by destruct (free_block_footprint st b Hb) as (m' & _ & Hm).
Qed.

Lemma free_block_spares_system_blocks_witness :
  free_block small_volume 880 = small_volume
  /\ free_block small_volume 1 = small_volume.
Proof.
  split.
  - apply (free_block_spares_system_blocks small_volume 880); [lia|].
    right. reflexivity.
  - apply (free_block_spares_system_blocks small_volume 1); lia.
Defined.

(** X10.  Allocating a block and freeing it again restores both block sets,
    on a volume whose sets are disjoint and whose free set holds neither a
    boot block nor the root block; in between, the block is in the used set
    only. *)
Theorem allocate_free_round_trip (st st1 : AdfImage) (b : Z) :
  free_blocks_ st ## used_blocks_ st ->
  (forall x, x ∈ free_blocks_ st -> 2 <= x /\ x <> root_block_num_ st) ->
  allocate_block st = (b, st1) -> b <> 0 ->
  (b ∈ used_blocks_ st1 /\ b ∉ free_blocks_ st1)
  /\ free_blocks_ (free_block st1 b) = free_blocks_ st
  /\ used_blocks_ (free_block st1 b) = used_blocks_ st.
Proof.
  intros Hdisj Hsys Halloc Hb.
  destruct (allocate_block_footprint st b st1) as (Hin & Hfree & Hused & _);
    [intros x Hx; destruct (Hsys x Hx); lia|done|done|].
  destruct (Hsys b Hin) as [Hb2 Hbroot].
  pose proof (same_geometry_allocate st) as Hgeo. rewrite Halloc in Hgeo.
  cbn [snd] in Hgeo.
  assert (Hr : root_block_num_ st1 = root_block_num_ st) by apply Hgeo.
  destruct (free_block_sets st1 b Hb2 ltac:(congruence)) as [-> ->].
  rewrite Hfree, Hused.
  assert (Hbused : b ∉ used_blocks_ st) by set_solver.
  clear - Hin Hbused. repeat split.
  - set_solver.
  - set_solver.
  - apply set_eq. intros x. set_unfold. destruct (decide (x = b)); naive_solver.
  - apply set_eq. intros x. set_unfold. destruct (decide (x = b)); naive_solver.
Qed.

Lemma allocate_free_round_trip_witness :
  free_blocks_ (free_block (snd (allocate_block small_volume)) 2)
  = free_blocks_ small_volume
  /\ used_blocks_ (free_block (snd (allocate_block small_volume)) 2)
     = used_blocks_ small_volume.
Proof.
  assert (E : fst (allocate_block small_volume) = 2) by (vm_compute; reflexivity).
  refine (proj2 (allocate_free_round_trip small_volume
                   (snd (allocate_block small_volume)) 2 _ _ _ _)).
  - intros x Hf Hu. change (x ∈ small_free) in Hf. change (x ∈ small_used) in Hu.
    apply elem_of_small_free in Hf. apply elem_of_small_used in Hu. lia.
  - intros x Hx. change (x ∈ small_free) in Hx.
    apply elem_of_small_free in Hx. change (root_block_num_ small_volume) with 880.
    lia.
  - rewrite <- E. by destruct (allocate_block small_volume).
  - discriminate.
Defined.

(** ** What the operations leave alone *)

Lemma only_cache_refl st : only_cache st st.
Proof. exists (dir_cache_ st). by destruct st. Qed.

Lemma only_cache_trans st1 st2 st3 :
  only_cache st1 st2 -> only_cache st2 st3 -> only_cache st1 st3.
Proof. intros [c ->] [c' ->]. by exists c'. Qed.

Lemma only_cache_list_directory fuel now st path r st' :
  list_directory fuel now st path = Some (r, st') -> only_cache st st'.
Proof.
  apply (list_directory_preserves (only_cache st)).
  - intros s c [c0 ->]. by exists c.
  - apply only_cache_refl.
Qed.

(** X11.  The three lookups change nothing but the directory cache: the
    image bytes, the two block sets and the geometry of the handler are the
    same after [list_directory], [get_entry] and [find_directory_block]. *)
Theorem lookups_change_the_cache_only (fuel : nat) (now : Z) (st : AdfImage)
    (path : string) :
  (forall r st', list_directory fuel now st path = Some (r, st') ->
                 exists c, st' = set_cache st c)
  /\ (forall r st', get_entry fuel now st path = Some (r, st') ->
                    exists c, st' = set_cache st c)
  /\ (forall r st', find_directory_block fuel now st path = Some (r, st') ->
                    exists c, st' = set_cache st c).
Proof.
  split; [|split]; intros r st' H.
  - exact (only_cache_list_directory _ _ _ _ _ _ H).
  - exact (only_cache_get_entry _ _ _ _ _ _ H).
  - exact (only_cache_find_directory_block _ _ _ _ _ _ H).
Qed.

Lemma same_geometry_closed st0 :
  (forall st m, same_geometry st0 st -> same_geometry st0 (set_mem st m))
  /\ (forall st c, same_geometry st0 st -> same_geometry st0 (set_cache st c))
  /\ (forall st, same_geometry st0 st ->
                 same_geometry st0 (snd (allocate_block st)))
  /\ (forall st b, same_geometry st0 st -> same_geometry st0 (free_block st b)).
Proof.
  repeat split; try apply H.
  all: try (destruct H as (?&?&?&?);
            pose proof (same_geometry_allocate st) as (?&?&?&?); congruence).
  all: destruct H as (?&?&?&?);
    pose proof (same_geometry_free st b) as (?&?&?&?); congruence.
Qed.

(** X12.  No operation changes the geometry of the handler: the mapping,
    the image size, the read-only flag and the root block number are the
    same after a write, create, unlink, truncate, mkdir or rmdir, whatever
    the result. *)
Theorem operations_keep_the_geometry (fuel : nat) (st : AdfImage) (now : Z)
    (path : string) :
  (forall h data size offset,
     same_geometry st (snd (write_file st now h data size offset)))
  /\ (forall r st', create_file fuel st now path = Some (r, st') ->
                    same_geometry st st')
  /\ (forall r st', delete_file fuel st now path = Some (r, st') ->
                    same_geometry st st')
  /\ (forall size r st', truncate_file fuel st now path size = Some (r, st') ->
                         same_geometry st st')
  /\ (forall r st', create_directory fuel st now path = Some (r, st') ->
                    same_geometry st st')
  /\ (forall r st', delete_directory fuel st now path = Some (r, st') ->
                    same_geometry st st').
Proof.
  destruct (same_geometry_closed st) as (Hm & Hc & Ha & Hf).
  pose proof (same_geometry_refl st) as H0.
  split; [|split; [|split; [|split; [|split]]]].
  - intros h data size offset.
    by apply (write_file_preserves (same_geometry st)).
  - intros r st'. by apply (create_file_preserves (same_geometry st)).
  - intros r st'. by apply (delete_file_preserves (same_geometry st)).
  - intros size r st'. by apply (truncate_file_preserves (same_geometry st)).
  - intros r st'. by apply (create_directory_preserves (same_geometry st)).
  - intros r st'. by apply (delete_directory_preserves (same_geometry st)).
Qed.

Ltac errno :=
  unfold EROFS, ENAMETOOLONG, EEXIST, ENOENT, ENOSPC, EIO, EISDIR, ENOTDIR,
    EINVAL, ENOTEMPTY in *.

(** An error branch: the result is one of the listed codes and the handler
    differs from the first one in its cache at most. *)
Ltac failed_branch :=
  intros [= <- <-] _;
  split; [first [apply only_cache_refl | eexists; reflexivity]|];
  split; [intros ?; first [done | congruence]|]; tauto.

(** X13.  An unlink, rmdir or truncate that fails has written nothing: the
    handler differs from the one before in its directory cache at most, and
    the result is one of the error codes of the operation.  On a read-only
    volume the result is -EROFS; rmdir of the root is refused with
    -EINVAL. *)
Theorem failed_removal_writes_nothing (fuel : nat) (st : AdfImage) (now : Z)
    (path : string) :
  (forall r st', delete_file fuel st now path = Some (r, st') -> r <> 0 ->
     only_cache st st'
     /\ (read_only_ st = true -> r = - EROFS)
     /\ (r = - EROFS \/ r = - ENOENT \/ r = - EISDIR))
  /\ (forall r st', delete_directory fuel st now path = Some (r, st') -> r <> 0 ->
        only_cache st st'
        /\ (read_only_ st = true -> r = - EROFS)
        /\ (r = - EROFS \/ r = - EINVAL \/ r = - ENOENT \/ r = - ENOTDIR
            \/ r = - ENOTEMPTY))
  /\ (forall size r st',
        truncate_file fuel st now path size = Some (r, st') -> r <> 0 ->
        only_cache st st'
        /\ (read_only_ st = true -> r = - EROFS)
        /\ (r = - EROFS \/ r = - ENOENT \/ r = - EISDIR \/ r = - EIO)).
Proof.
  split; [|split].
  - intros r st'. unfold delete_file.
    destruct (read_only_ st) eqn:Hrw; [failed_branch|].
    destruct (get_entry fuel now st path) as [[[e|] s1]|] eqn:E1;
      [| |discriminate];
      destruct (only_cache_get_entry _ _ _ _ _ _ E1) as [c1 ->];
      [|failed_branch].
    destruct (is_directory e); [failed_branch|].
    destruct (find_directory_block _ _ _ _) as [[pb s2]|]; [|discriminate].
    destruct (remove_from_directory _ _ _ _ _ _) as [s3|]; [|discriminate].
    destruct (match get_block s3 (block_num e) with
              | Some file => _ | None => _ end); [|discriminate].
    by intros [= <- <-].
  - intros r st'. unfold delete_directory.
    destruct (read_only_ st) eqn:Hrw; [failed_branch|].
    destruct (is_root_path path); [failed_branch|].
    destruct (get_entry fuel now st path) as [[[e|] s1]|] eqn:E1;
      [| |discriminate];
      destruct (only_cache_get_entry _ _ _ _ _ _ E1) as [c1 ->];
      [|failed_branch].
    destruct (negb _); [failed_branch|].
    destruct (list_directory _ _ _ _) as [[contents s2]|] eqn:E2; [|discriminate].
    destruct (only_cache_list_directory _ _ _ _ _ _ E2) as [c2 ->].
    destruct (match contents with Some (_ :: _) => true | _ => false end);
      [failed_branch|].
    destruct (find_directory_block _ _ _ _) as [[pb s3]|]; [|discriminate].
    destruct (remove_from_directory _ _ _ _ _ _) as [s4|]; [|discriminate].
    by intros [= <- <-].
  - intros size r st'. unfold truncate_file.
    destruct (read_only_ st) eqn:Hrw; [failed_branch|].
    destruct (get_entry fuel now st path) as [[[e|] s1]|] eqn:E1;
      [| |discriminate];
      destruct (only_cache_get_entry _ _ _ _ _ _ E1) as [c1 ->];
      [|failed_branch].
    destruct (is_directory e); [failed_branch|].
    destruct (get_block_writable _ _) as [file|]; [|failed_branch].
    destruct (size =? _); [by intros [= <- <-]|].
    match goal with
    | |- match ?s with _ => _ end = _ -> _ => destruct s as [s2|]
    end; [|discriminate].
    by intros [= <- <-].
Qed.

(** ** A create that fails *)

(** A block the image has no room for is beyond the bitmap's reach. *)
Lemma update_bitmap_out_of_range st b is_free :
  read_only_ st = false -> is_valid st = true ->
  get_block_writable st b = None ->
  update_bitmap_for_block st b is_free = st.
Proof.
  intros Hrw Hvalid Hnone. unfold update_bitmap_for_block.
  unfold get_block_writable in Hnone. rewrite Hvalid, Hrw in Hnone.
  cbn [negb orb] in Hnone.
  destruct (Z.ltb_spec (file_size_ st) ((b + 1) * BLOCK_SIZE)) as [Hlt|];
    [|discriminate].
  assert (Hfs : 0 <= file_size_ st).
  { unfold is_valid in Hvalid. apply andb_true_iff in Hvalid as [_ H].
    apply Z.leb_le in H. unfold BLOCK_SIZE in H. lia. }
  assert (Htot : total_blocks st <= b).
  { unfold total_blocks, wrap32, BLOCK_SIZE in *.
    pose proof (Z.mod_le (file_size_ st / 512) 4294967296
                  ltac:(apply Z.div_pos; lia) ltac:(lia)).
    assert (file_size_ st / 512 < b + 1)
      by (apply Z.div_lt_upper_bound; lia).
    lia. }
  by rewrite (proj2 (Z.leb_le _ _) Htot).
Qed.

Lemma allocate_block_out_of_range st b st' :
  read_only_ st = false ->
  allocate_block st = (b, st') -> b <> 0 ->
  get_block_writable st' b = None ->
  st' = set_sets st (free_blocks_ st ∖ {[b]}) ({[b]} ∪ used_blocks_ st)
  /\ is_valid st = true.
Proof.
  intros Hrw. unfold allocate_block.
  destruct (set_begin (free_blocks_ st)) as [b0|]; [|by intros [= <- <-]].
  destruct (25 <=? b0 / 4064); [by intros [= <- <-]|].
  destruct (get_block st (root_block_num_ st)) as [root|] eqn:Hroot;
    [|by intros [= <- <-]].
  apply get_block_Some in Hroot as (_ & _ & Hvalid).
  destruct (_ =? 0); [by intros [= <- <-]|].
  set (st1 := set_sets st _ _).
  destruct (update_bitmap_same_volume st1 b0 false) as [m1 Em1].
  destruct (get_block_writable (update_bitmap_for_block st1 b0 false) b0)
    as [data|] eqn:Hdata.
  - intros [= <- <-] _ Hnone. rewrite Em1 in Hdata, Hnone.
    change (get_block_writable st1 b0 = None) in Hnone.
    change (get_block_writable st1 b0 = Some data) in Hdata. congruence.
  - intros [= <- <-] _ _. rewrite Em1 in Hdata.
    change (get_block_writable st1 b0 = None) in Hdata.
    by rewrite update_bitmap_out_of_range.
Qed.

(** X14.  A create or mkdir that fails has written nothing to the image,
    and the two block sets are what they were, on a volume whose sets are
    disjoint and whose free set holds no boot block and not the root block.
    The result is then one of the six error codes of the operation. *)
Theorem failed_create_writes_nothing (fuel : nat) (st : AdfImage) (now : Z)
    (path : string) (dir : bool) (r : Z) (st' : AdfImage) :
  free_blocks_ st ## used_blocks_ st ->
  (forall x, x ∈ free_blocks_ st -> 2 <= x /\ x <> root_block_num_ st) ->
  (if dir then create_directory fuel st now path
   else create_file fuel st now path) = Some (r, st') ->
  r <> 0 ->
  mapped_data_ st' = mapped_data_ st
  /\ free_blocks_ st' = free_blocks_ st
  /\ used_blocks_ st' = used_blocks_ st
  /\ (r = - EROFS \/ r = - ENAMETOOLONG \/ r = - EEXIST \/ r = - ENOENT
      \/ r = - ENOSPC \/ r = - EIO).
Proof.
  intros Hdisj Hsys Hrun Hr.
  assert (Hcore :
    (if read_only_ st then Some (- EROFS, st)
     else if BCPL_STRING_MAX <? Z.of_nat (String.length (entry_name_of path))
     then Some (- ENAMETOOLONG, st)
     else
       match get_entry fuel now st path with
       | None => None
       | Some (Some _, s) => Some (- EEXIST, s)
       | Some (None, s) =>
         match find_directory_block fuel now s (parent_path_of path) with
         | None => None
         | Some (pb, s) =>
           if pb =? 0 then Some (- ENOENT, s) else
           let '(nb, s) := allocate_block s in
           if nb =? 0 then Some (- ENOSPC, s) else
           match get_block_writable s nb with
           | None => Some (- EIO, free_block s nb)
           | Some _ => Some (0, s)
           end
         end
       end) = Some (r, st')
    \/ r = 0).
  { destruct dir; [unfold create_directory in Hrun|unfold create_file in Hrun];
      (destruct (read_only_ st); [by left|]);
      (destruct (_ <? _); [by left|]);
      (destruct (get_entry fuel now st path) as [[[e|] s1]|]; [by left| |by left]);
      (destruct (find_directory_block _ _ _ _) as [[pb s2]|]; [|by left]);
      (destruct (pb =? 0); [by left|]);
      destruct (allocate_block s2) as [nb s3];
      (destruct (nb =? 0); [by left|]);
      (destruct (get_block_writable s3 nb); [|by left]);
      destruct (unix_to_amiga_time now) as [[? ?] ?];
      right; by injection Hrun as <- _. }
  destruct Hcore as [Hcore|]; [|done]. clear Hrun.
  destruct (read_only_ st) eqn:Hrw;
    [injection Hcore as <- <-; errno; repeat split; auto|].
  destruct (_ <? _);
    [injection Hcore as <- <-; errno; repeat split; auto|].
  destruct (get_entry fuel now st path) as [[[e|] s1]|] eqn:E1; [| |discriminate];
    destruct (only_cache_get_entry _ _ _ _ _ _ E1) as [c1 ->];
    [injection Hcore as <- <-; errno; repeat split; auto 10|].
  destruct (find_directory_block _ _ _ _) as [[pb s2]|] eqn:E2; [|discriminate].
  destruct (only_cache_find_directory_block _ _ _ _ _ _ E2) as [c2 ->].
  destruct (pb =? 0);
    [injection Hcore as <- <-; errno; repeat split; auto 10|].
  set (s := set_cache (set_cache st c1) c2) in *.
  assert (Hs0 : 0 ∉ free_blocks_ s).
  { intros H0. destruct (Hsys 0 H0). lia. }
  destruct (allocate_block s) as [nb s3] eqn:Ealloc.
  destruct (Z.eqb_spec nb 0) as [->|Hnb].
  { injection Hcore as <- <-.
    rewrite (allocate_block_fail s s3 Hs0 Ealloc).
    errno; repeat split; auto 10. }
  destruct (get_block_writable s3 nb) eqn:Hw; [by injection Hcore as <- _|].
  injection Hcore as <- <-.
  destruct (allocate_block_out_of_range s nb s3 Hrw Ealloc Hnb Hw) as [-> Hvalid].
  assert (Hin : nb ∈ free_blocks_ st).
  { destruct (allocate_block_cases s) as [E|(b0 & m0 & Hb0 & E)];
      rewrite E in Ealloc; injection Ealloc as <- _; [done|].
    by apply set_begin_Some in Hb0 as [? _]. }
  destruct (Hsys nb Hin) as [Hnb2 Hnbroot].
  set (s4 := set_sets s _ _) in *.
  assert (Efree : free_block s4 nb
                  = set_sets s4 ({[nb]} ∪ free_blocks_ s4)
                      (used_blocks_ s4 ∖ {[nb]})).
  { unfold free_block.
    rewrite (proj2 (Z.ltb_ge nb 2)), (proj2 (Z.eqb_neq nb (root_block_num_ s4)))
      by done.
    cbn [orb]. by apply update_bitmap_out_of_range. }
  rewrite Efree. cbn [mapped_data_ free_blocks_ used_blocks_ set_sets].
  subst s4 s. cbn [mapped_data_ free_blocks_ used_blocks_ set_sets set_cache].
  assert (Hnbused : nb ∉ used_blocks_ st) by set_solver.
  split; [done|]. errno. clear - Hin Hnbused.
  split; [|split; [|auto 10]]; apply set_eq; intros x; set_unfold;
    destruct (decide (x = nb)); naive_solver.
Qed.

Lemma failed_create_writes_nothing_witness :
  let r := run (0, small_volume)
             (create_directory 4 small_volume 1000000000
                "/a-directory-name-of-more-than-30-bytes") in
  fst r = - ENAMETOOLONG
  /\ mapped_data_ (snd r) = mapped_data_ small_volume
  /\ free_blocks_ (snd r) = free_blocks_ small_volume
  /\ used_blocks_ (snd r) = used_blocks_ small_volume.
Proof.
  intros r.
  assert (Hr : fst r = - ENAMETOOLONG) by (vm_compute; reflexivity).
  split; [exact Hr|].
  destruct (failed_create_writes_nothing 4 small_volume 1000000000
              "/a-directory-name-of-more-than-30-bytes" true (fst r) (snd r))
    as (Hm & Hf & Hu & _).
  - intros x Hf Hu. change (x ∈ small_free) in Hf. change (x ∈ small_used) in Hu.
    apply elem_of_small_free in Hf. apply elem_of_small_used in Hu. lia.
  - intros x Hx. change (x ∈ small_free) in Hx.
    apply elem_of_small_free in Hx.
    change (root_block_num_ small_volume) with 880. lia.
  - apply run_pair; [vm_compute; reflexivity|reflexivity].
  - rewrite Hr. discriminate.
  - split; [exact Hm|]. split; [exact Hf|exact Hu].
Defined.

(** ** The directory cache *)

(** X15.  A listing that [list_directory] has produced is in the cache under
    its path, and every later [list_directory] of that path returns the same
    entries without changing the handler, whatever has been written to the
    image in between: only [clear_cache] makes the handler read the image
    again. *)
Theorem list_directory_serves_the_cache (fuel : nat) (now : Z) (st st' : AdfImage)
    (path : string) (es : list Entry) :
  list_directory fuel now st path = Some (Some es, st') ->
  dir_cache_ st' !! path = Some es
  /\ (forall fuel' now' m,
        list_directory (S fuel') now' (set_mem st' m) path
        = Some (Some es, set_mem st' m))
  /\ dir_cache_ (clear_cache st') !! path = None.
Proof.
  intros Hlist.
  assert (Hcache : dir_cache_ st' !! path = Some es).
  { destruct fuel as [|fuel]; [discriminate|]. cbn [list_directory] in Hlist.
    unfold get_cached_dir in Hlist.
    destruct (dir_cache_ st !! path) as [cached|] eqn:Hc.
    - injection Hlist as <- <-. done.
    - destruct (find_directory_block fuel now st path) as [[d s1]|];
        [|discriminate].
      destruct (d =? 0); [discriminate|].
      destruct (get_block s1 d) as [dp|]; [|discriminate].
      destruct (list_slots _ _ _ _) as [entries|]; [|discriminate].
      injection Hlist as <- <-. cbn [dir_cache_ cache_directory set_cache].
      apply lookup_insert_eq. }
  split; [exact Hcache|]. split; [|done].
  intros fuel' now' m. cbn [list_directory]. unfold get_cached_dir.
  cbn [dir_cache_ set_mem]. by rewrite Hcache.
Qed.

Lemma list_directory_serves_the_cache_witness :
  let r := run (None, nameless_volume) (list_directory 4 0 nameless_volume "/") in
  List.map block_num (listing_of nameless_volume nameless_chains) = [882; 884]
  /\ list_directory 1 7 (set_mem (snd r) zero_mem) "/"
     = Some (Some (listing_of nameless_volume nameless_chains),
             set_mem (snd r) zero_mem).
Proof.
  intros r. split; [vm_compute; reflexivity|].
  refine (proj1 (proj2 (list_directory_serves_the_cache 4 0 nameless_volume
                          (snd r) "/" _ _)) 0%nat 7 zero_mem).
  apply run_pair; vm_compute; reflexivity.
Defined.

(** ** Truncation to a larger size *)

(** X16.  Truncating a regular file to a larger size stores the new size in
    the header, stamps it and refreshes its checksum, and does nothing else:
    no block is allocated, the block sets and every byte outside the header
    stay, and the data chain still starts where it did.  The new range is a
    hole. *)
Theorem truncate_grow_changes_the_header_only (fuel : nat) (now : Z)
    (st st1 : AdfImage) (path : string) (e : Entry) (hp size : Z) :
  let h := block_num e in
  let m := mapped_data_ st in
  read_only_ st = false ->
  get_entry fuel now st path = Some (Some e, st1) ->
  is_directory e = false ->
  get_block st h = Some hp ->
  rd32 m (hp + FileBlock.file_size) < size < 4294967296 ->
  exists st',
    truncate_file fuel st now path size = Some (0, st')
    /\ rd32 (mapped_data_ st') (hp + FileBlock.file_size) = size
    /\ rd32 (mapped_data_ st') (hp + FileBlock.first_data)
       = rd32 m (hp + FileBlock.first_data)
    /\ checksum_ok (mapped_data_ st') hp
    /\ free_blocks_ st' = free_blocks_ st
    /\ used_blocks_ st' = used_blocks_ st
    /\ (forall a, ~ in_block h a -> mapped_data_ st' a = m a).
Proof.
  intros h m Hrw Hentry Hdir Hhp Hsize.
  destruct (only_cache_get_entry _ _ _ _ _ _ Hentry) as [c ->].
  pose proof (rd32_range m (hp + FileBlock.file_size)) as HF.
  destruct (get_block_Some _ _ _ Hhp) as (Ehp & _). unfold BLOCK_SIZE in Ehp.
  unfold truncate_file. rewrite Hrw, Hentry, Hdir.
  assert (Hw : get_block_writable (set_cache st c) h = Some hp)
    by by rewrite get_block_writable_rw.
  fold h. rewrite Hw. cbn [mapped_data_ set_cache]. fold m.
  rewrite (proj2 (Z.eqb_neq size _)), (proj2 (Z.ltb_ge size _)) by lia.
  eexists. split; [reflexivity|]. cbn [mapped_data_ set_mem set_cache].
  fold m. split; [|split; [|split; [|split; [|split]]]]; try done.
  - rewrite truncate_header_size, wrap32_idem. apply wrap32_small. lia.
  - apply truncate_header_other. unfold_offsets. lia.
  - apply checksum_ok_update.
  - intros a Ha. apply truncate_header_footprint. unfold in_block in Ha. lia.
Qed.

Lemma truncate_grow_changes_the_header_only_witness :
  exists st',
    truncate_file 4 hello_volume 1000000000 "/hello.txt" 5000 = Some (0, st')
    /\ rd32 (mapped_data_ st') (1024 + FileBlock.file_size) = 5000
    /\ free_blocks_ st' = free_blocks_ hello_volume.
Proof.
  pose (e := entry_of (mapped_data_ hello_volume) 1024 2 "hello.txt").
  pose (r := get_entry 4 1000000000 hello_volume "/hello.txt").
  destruct (truncate_grow_changes_the_header_only 4 1000000000 hello_volume
              (snd (run (None, hello_volume) r)) "/hello.txt" e 1024 5000)
    as (st' & Hrun & Hsz & _ & _ & Hfree & _).
  - vm_compute. reflexivity.
  - apply run_pair; vm_compute; reflexivity.
  - vm_compute. reflexivity.
  - vm_compute. reflexivity.
  - assert (E : rd32 (mapped_data_ hello_volume) (1024 + FileBlock.file_size) = 13)
      by (vm_compute; reflexivity).
    rewrite E. lia.
  - exists st'. split; [exact Hrun|]. split; [exact Hsz|exact Hfree].
Defined.

(** ** Creating a file under the root and looking it up *)

#[local] Arguments seqZ : simpl never.











(** The set of bitmap pages depends on the geometry and on the [bm_pages]
    words of the root block only. *)
Lemma bitmap_page_same_words st st' x :
  same_geometry st st' ->
  (forall rp i, get_block st (root_block_num_ st) = Some rp -> 0 <= i < 25 ->
     rd32 (mapped_data_ st') (rp + RootBlock.bm_pages i)
     = rd32 (mapped_data_ st) (rp + RootBlock.bm_pages i)) ->
  bitmap_page st' x -> bitmap_page st x.
Proof.
  intros Hgeo Hframe (rp & i & Hrp & Hi & -> & Hnz).
  assert (Hr : root_block_num_ st' = root_block_num_ st) by apply Hgeo.
  rewrite Hr, (same_geometry_get_block st st') in Hrp by done.
  rewrite (Hframe rp i) in * by done. by exists rp, i.
Qed.







(** ** Overwriting inside one data block *)

#[local] Arguments seqZ : simpl never.

(** What [read_file] returns below the end of the file. *)
Lemma read_file_bytes (st : AdfImage) (h hp offset n : Z) :
  h <> 0 -> get_block st h = Some hp -> 0 <= offset -> 0 <= n ->
  offset < rd32 (mapped_data_ st) (hp + FileBlock.file_size) ->
  read_file st h offset n
  = List.map
      (file_byte st (rd32 (mapped_data_ st) (hp + FileBlock.first_data)))
      (seqZ offset
         (Z.min n (rd32 (mapped_data_ st) (hp + FileBlock.file_size) - offset))).
Proof.
  intros Hnz Hblock Hoff Hn HF. unfold read_file. rewrite Hblock.
  destruct (Z.eqb_spec h 0); [done|].
  set (F := rd32 _ (hp + FileBlock.file_size)) in *.
  set (first := rd32 _ (hp + FileBlock.first_data)).
  destruct (Z.leb_spec F offset); [lia|].
  set (size := Z.min n (F - offset)).
  pose proof (read_loop_spec st size first (Z.to_nat size)
                (read_seek (Z.to_nat (offset / 488)) st first) [] offset)
    as Hspec. cbn [length app] in Hspec. rewrite Z.sub_0_r in Hspec.
  apply Hspec; [done|lia|]. intros j. apply read_seek_spec.
Qed.

Lemma data_block_at_inv st b k db :
  data_block_at st b k = Some db ->
  b <> 0 /\ exists p,
    get_block st b = Some p
    /\ match k with
       | O => p = db
       | S k' =>
         data_block_at st (rd32 (mapped_data_ st) (p + DataBlock.next_data)) k'
         = Some db
       end.
Proof.
  destruct (Z.eqb_spec b 0) as [->|Hb]; [by rewrite data_block_at_zero|].
  destruct (get_block st b) as [p|] eqn:Hp;
    [|by rewrite data_block_at_null].
  intros H. split; [done|]. exists p. split; [done|]. destruct k as [|k'].
  - rewrite (data_block_at_O st b p) in H by done. by injection H.
  - by rewrite (data_block_at_S st b p) in H.
Qed.

(** The chain up to index [k] depends on the [next_data] words of the blocks
    before index [k] only. *)
Lemma data_block_at_frame st st' : forall k b,
  same_geometry st st' ->
  (forall j p, (j < k)%nat -> data_block_at st b j = Some p ->
     rd32 (mapped_data_ st') (p + DataBlock.next_data)
     = rd32 (mapped_data_ st) (p + DataBlock.next_data)) ->
  data_block_at st' b k = data_block_at st b k.
Proof.
  induction k as [|k IH]; intros b Hgeo Hframe.
  - cbn [data_block_at]. by rewrite (same_geometry_get_block st st').
  - destruct (Z.eqb_spec b 0) as [->|Hb]; [by rewrite !data_block_at_zero|].
    destruct (get_block st b) as [p|] eqn:Hp.
    + rewrite (data_block_at_S st b p), (data_block_at_S st' b p);
        [|done|by rewrite (same_geometry_get_block st st')|done|done].
      rewrite (Hframe O p); [|lia|by apply data_block_at_O].
      apply IH; [done|]. intros j q Hj Hq. apply (Hframe (S j)); [lia|].
      by rewrite (data_block_at_S st b p).
    + rewrite !data_block_at_null;
        [done|done|by rewrite (same_geometry_get_block st st')].
Qed.

(** The walk of [write_file] stops on the block at chain index [j] when the
    chain reaches that far. *)
Lemma write_walk_to_block st target : forall j fuel b prev pos db,
  data_block_at st b j = Some db ->
  pos + 488 * Z.of_nat j <= target < pos + 488 * Z.of_nat j + 488 ->
  (j < fuel)%nat ->
  exists c p,
    write_walk fuel st target b prev pos = Some (c, p, pos + 488 * Z.of_nat j)
    /\ c <> 0 /\ get_block st c = Some db.
Proof.
  induction j as [|j IH]; intros fuel b prev pos db Hat Htarget Hfuel;
    destruct (data_block_at_inv _ _ _ _ Hat) as (Hb & p & Hp & Hk);
    (destruct fuel as [|fuel]; [lia|]); cbn [write_walk];
    rewrite (proj2 (Z.eqb_neq b 0)), Hp by done.
  - subst p. rewrite (proj2 (Z.ltb_lt target (pos + 488))) by lia.
    exists b, prev. split; [do 2 f_equal; lia|done].
  - rewrite (proj2 (Z.ltb_ge target (pos + 488))) by lia.
    destruct (IH fuel (rd32 (mapped_data_ st) (p + DataBlock.next_data)) b
                (pos + 488) db Hk ltac:(lia) ltac:(lia))
      as (c & q & -> & Hc & Hcdb).
    exists c, q. split; [do 2 f_equal; lia|done].
Qed.

(** Every block of a data chain starts on a block boundary. *)
Lemma data_block_at_aligned st : forall k b p,
  data_block_at st b k = Some p -> exists c, p = c * 512.
Proof.
  induction k as [|k IH]; intros b p H;
    destruct (data_block_at_inv _ _ _ _ H) as (Hb & q & Hq & Hk).
  - subst q. exists b. by apply get_block_addr in Hq.
  - by apply IH in Hk.
Qed.

(** A list read back position by position. *)
Lemma map_nth_seqZ (data : list byte) (f : Z -> byte) (offset n : Z) :
  0 <= n -> n <= Z.of_nat (length data) ->
  (forall i, 0 <= i < n -> f (offset + i) = nth (Z.to_nat i) data Byte.x00) ->
  List.map f (seqZ offset n) = take (Z.to_nat n) data.
Proof.
  intros Hn Hlen Hf. apply list_eq. intros i.
  rewrite list_lookup_fmap.
  destruct (decide (i < Z.to_nat n)%nat) as [Hi|Hi].
  - rewrite lookup_seqZ_lt by lia. cbn [fmap option_fmap option_map].
    rewrite lookup_take_lt by lia. rewrite Hf by lia. rewrite Nat2Z.id.
    symmetry.
    destruct (nth_lookup_or_length data i Byte.x00) as [E|E]; [done|lia].
  - rewrite lookup_seqZ_ge by lia. cbn. symmetry.
    apply lookup_ge_None. rewrite length_take. lia.
Qed.

(** The walk, the bridge and the copy loop of [write_file] on a header whose
    chain has the block the write falls into, the size in the header already
    covering the write: the bytes are copied into that block and read back. *)
Lemma write_tail_round_trip (sa : AdfImage) (now h hp : Z) (data : list byte)
    (n offset db first : Z) :
  read_only_ sa = false -> h <> 0 -> get_block sa h = Some hp ->
  0 < n -> 0 <= offset -> n <= Z.of_nat (length data) ->
  offset mod 488 + n <= 488 ->
  rd32 (mapped_data_ sa) (hp + FileBlock.first_data) = first ->
  offset + n <= rd32 (mapped_data_ sa) (hp + FileBlock.file_size) ->
  data_block_at sa first (Z.to_nat (offset / 488)) = Some db ->
  db <> hp ->
  let r :=
    match write_walk (Z.to_nat (offset / 488 + 2)) sa offset first 0 0 with
    | Some (current_block, prev_block, current_pos) =>
      match write_bridge (Z.to_nat (offset / 488 + 1)) sa h hp offset
              current_block prev_block current_pos with
      | inl r => r
      | inr (st0, current_block0, prev_block0, current_pos0) =>
        write_loop (Z.to_nat n) st0 now h hp data n current_block0
          prev_block0 current_pos0 0 offset
      end
    | None => (- EIO, sa)
    end in
  fst r = n /\ read_file (snd r) h offset n = take (Z.to_nat n) data.
Proof.
  intros Hrw_a Hh Hhp Hn Hoff Hdata Hblock Hfirst_a HV Hdb_a Hsep.
  set (k := Z.to_nat (offset / 488)) in *.
  set (V := rd32 (mapped_data_ sa) (hp + FileBlock.file_size)) in *.
  pose proof (get_block_addr _ _ _ Hhp) as Ehp. unfold BLOCK_SIZE in Ehp.
  pose proof (Z.mod_pos_bound offset 488 ltac:(lia)) as Hbo.
  pose proof (Z.div_mod offset 488 ltac:(lia)) as Hdm.
  assert (Hk : Z.of_nat k = offset / 488)
    by (unfold k; rewrite Z2Nat.id; [done|apply Z.div_pos; lia]).
  destruct (data_block_at_aligned _ _ _ _ Hdb_a) as (cdb & Edb).
  cbv zeta.
  destruct (write_walk_to_block sa offset k (Z.to_nat (offset / 488 + 2))
              first 0 0 db Hdb_a ltac:(lia) ltac:(lia))
    as (c & prev & -> & Hc & Hcdb).
  replace (Z.to_nat (offset / 488 + 1)) with (S k) by lia.
  cbn [write_bridge].
  rewrite (proj2 (Z.ltb_lt offset (0 + 488 * Z.of_nat k + 488))) by lia.
  replace (Z.to_nat n) with (S (Z.to_nat (n - 1))) by lia.
  cbn [write_loop].
  rewrite (proj2 (Z.leb_gt n 0)), (proj2 (Z.eqb_neq c 0)) by done.
  rewrite (get_block_writable_rw sa c Hrw_a), Hcdb.
  replace ((0 + 488 * Z.of_nat k) / 488 * 488) with (488 * (offset / 488))
    by (rewrite Hk, Z.add_0_l, (Z.mul_comm 488), Z.div_mul by lia; lia).
  replace (offset - 488 * (offset / 488)) with (offset mod 488) by lia.
  assert (Hw1 : wrap64 (offset mod 488) = offset mod 488)
    by (unfold wrap64; apply Z.mod_small; lia).
  rewrite Hw1.
  assert (Hw2 : wrap64 (488 - offset mod 488) = 488 - offset mod 488)
    by (unfold wrap64; apply Z.mod_small; lia).
  rewrite Hw2, Z.sub_0_r, (Z.min_l n) by lia.
  rewrite (proj2 (Z.leb_gt 488 (offset mod 488))) by lia.
  rewrite Z.add_0_l.
  set (bo := offset mod 488) in *.
  set (m1 := memcpy_from (mapped_data_ sa) (db + DataBlock.data + bo) data 0 n).
  set (D := Z.max (rd32 m1 (db + DataBlock.data_size)) (wrap32 (bo + n))).
  set (m2 := update_checksum (wr32 m1 (db + DataBlock.data_size) D) db 5).
  set (sb := set_mem sa m2).
  set (m3 := update_checksum (touch_fileblock m2 hp now) hp 5).
  assert (Hexit : forall fuel cb pb cp wp,
            write_loop fuel sb now h hp data n cb pb cp n wp
            = (n, set_mem sb m3)).
  { intros fuel cb pb cp wp. destruct fuel; cbn [write_loop];
      by rewrite Z.leb_refl. }
  rewrite !Z.add_0_l.
  replace (S (Z.to_nat (n - 1))) with (Z.to_nat n) by lia.
  assert (Hres : forall (b : bool) x y, (if b then x else y) = (n, set_mem sb m3)
                 -> (if b then x else y).1 = n
                    /\ read_file (if b then x else y).2 h offset n
                       = take (Z.to_nat n) data).
  { intros b x y ->. cbn [fst snd]. split; [done|].
    assert (Hhp' : get_block (set_mem sb m3) h = Some hp) by done.
    assert (Hu13 : unchanged_outside db (db + 512) (mapped_data_ sa) m2)
      by (unfold m2, m1; unchanged_tac).
    assert (Hu3 : unchanged_outside (hp + 20) (hp + 420) m2 m3)
      by (unfold m3; unchanged_tac).
    assert (Hsize : rd32 m3 (hp + FileBlock.file_size) = V).
    { unfold m3. unfold_offsets. rd32_skip.
      rewrite (rd32_unchanged _ _ _ _ _ Hu13) by lia. done. }
    assert (Hfirst : rd32 m3 (hp + FileBlock.first_data) = first).
    { rewrite (rd32_unchanged _ _ _ _ _ Hu3) by (unfold_offsets; lia).
      rewrite (rd32_unchanged _ _ _ _ _ Hu13) by (unfold_offsets; lia). done. }
    rewrite (read_file_bytes _ h hp) by
      (first [done | lia | cbn [mapped_data_ set_mem]; rewrite Hsize; lia]).
    cbn [mapped_data_ set_mem]. rewrite Hsize, Hfirst.
    rewrite (Z.min_l n) by lia.
    apply map_nth_seqZ; [lia|done|]. intros i Hi.
    assert (Hdiv : (offset + i) / 488 = offset / 488).
    { symmetry. apply (Z.div_unique_pos _ _ _ (bo + i)); lia. }
    assert (Hmod : (offset + i) mod 488 = bo + i).
    { symmetry. apply (Z.mod_unique_pos _ _ (offset / 488)); lia. }
    unfold file_byte. rewrite Hdiv, Hmod. fold k.
    assert (Hat : data_block_at (set_mem sb m3) first k = Some db).
    { rewrite <- Hdb_a. apply data_block_at_frame; [by repeat split|].
      intros j p _ Hp. destruct (data_block_at_aligned _ _ _ _ Hp) as (c' & Ec).
      cbn [mapped_data_ set_mem].
      rewrite (rd32_unchanged _ _ _ _ _ Hu3) by (unfold_offsets; lia).
      unfold m2, m1. unfold_offsets. by rd32_skip. }
    rewrite Hat. cbn [mapped_data_ set_mem].
    assert (HD : bo + n <= D < 4294967296).
    { unfold D. pose proof (rd32_range m1 (db + DataBlock.data_size)).
      pose proof (rd32_range (mapped_data_ sa) (hp + FileBlock.file_size)).
      rewrite (wrap32_small (bo + n)) by lia. lia. }
    assert (Hds : rd32 m3 (db + DataBlock.data_size) = D).
    { rewrite (rd32_unchanged _ _ _ _ _ Hu3) by (unfold_offsets; lia).
      unfold m2. unfold_offsets. rd32_skip. rewrite rd32_wr32_same.
      apply wrap32_small. lia. }
    rewrite Hds, (proj2 (Z.ltb_lt (bo + i) D)) by lia.
    rewrite (Hu3 _) by (unfold_offsets; lia).
    unfold m2. unfold_offsets.
    rewrite update_checksum_other, wr32_other by lia.
    unfold m1. rewrite memcpy_from_inside by lia. f_equal. lia. }
  apply Hres. destruct (488 <=? bo + n); apply Hexit.
Qed.

(** The size update at the start of [write_file]. *)
Lemma write_size_update (st : AdfImage) (hp n offset : Z) :
  0 <= offset -> 0 < n -> offset + n < 4294967296 ->
  let m := mapped_data_ st in
  let F := rd32 m (hp + FileBlock.file_size) in
  let V := Z.max F (wrap32 (offset + n)) in
  let sa := if negb (V =? F)
            then set_mem st (update_checksum
                               (wr32 m (hp + FileBlock.file_size) V) hp 5)
            else st in
  same_geometry st sa
  /\ free_blocks_ sa = free_blocks_ st /\ used_blocks_ sa = used_blocks_ st
  /\ unchanged_outside (hp + 20) (hp + 328) m (mapped_data_ sa)
  /\ rd32 (mapped_data_ sa) (hp + FileBlock.file_size) = V
  /\ offset + n <= V.
Proof.
  intros Hoff Hn Hsum m F V sa.
  pose proof (rd32_range m (hp + FileBlock.file_size)) as HF. fold F in HF.
  assert (HV : offset + n <= V < 4294967296).
  { unfold V. rewrite (wrap32_small (offset + n)) by lia. lia. }
  split; [unfold sa; destruct (negb _); by repeat split|].
  split; [unfold sa; by destruct (negb _)|].
  split; [unfold sa; by destruct (negb _)|]. split; [|split; [|lia]].
  - unfold sa. destruct (negb _); [|apply unchanged_refl].
    cbn [mapped_data_ set_mem]. unchanged_tac.
  - unfold sa. destruct (Z.eqb_spec V F) as [E|E]; cbn [negb].
    + by rewrite E.
    + cbn [mapped_data_ set_mem]. unfold_offsets. rd32_skip.
      rewrite rd32_wr32_same. apply wrap32_small. lia.
Qed.

(** X18. A write that stays inside one data block the chain already has is
    read back: on a writable image, for a header [h] whose chain reaches the
    block of index [offset / 488] and whose block there is not the header
    itself, [write_file] of [n > 0] bytes with [offset mod 488 + n <= 488]
    and [offset + n < 2^32] returns [n], and [read_file] of the same range
    on the resulting image returns the [n] bytes written. *)
Theorem write_read_round_trip_in_block (st : AdfImage) (now h hp : Z)
    (data : list byte) (n offset db : Z) :
  let m := mapped_data_ st in
  let first := rd32 m (hp + FileBlock.first_data) in
  let k := Z.to_nat (offset / 488) in
  read_only_ st = false -> h <> 0 -> get_block st h = Some hp ->
  0 < n -> 0 <= offset -> offset + n < 4294967296 ->
  n <= Z.of_nat (length data) ->
  offset mod 488 + n <= 488 ->
  data_block_at st first k = Some db ->
  db <> hp ->
  let r := write_file st now h data n offset in
  fst r = n /\ read_file (snd r) h offset n = take (Z.to_nat n) data.
Proof.
  intros m first k Hrw Hh Hhp Hn Hoff Hsum Hdata Hblock Hdb Hsep.
  pose proof (get_block_addr _ _ _ Hhp) as Ehp. unfold BLOCK_SIZE in Ehp.
  destruct (write_size_update st hp n offset Hoff Hn Hsum)
    as (Hgeo_a & _ & _ & Hua & Hsize_a & HV).
  cbv zeta in Hgeo_a, Hua, Hsize_a, HV. fold m in Hgeo_a, Hua, Hsize_a, HV.
  cbv zeta. unfold write_file.
  rewrite Hrw, (proj2 (Z.eqb_neq h 0)), get_block_writable_rw, Hhp by done.
  fold m.
  set (F := rd32 m (hp + FileBlock.file_size)) in *.
  set (V := Z.max F (wrap32 (offset + n))) in *.
  set (sa := if negb (V =? F) then _ else st) in *.
  assert (Hfirst_a : rd32 (mapped_data_ sa) (hp + FileBlock.first_data) = first).
  { apply (rd32_unchanged _ _ _ _ _ Hua). unfold_offsets. lia. }
  rewrite Hfirst_a.
  destruct (data_block_at_inv _ _ _ _ Hdb) as (Hf0 & _).
  rewrite (proj2 (Z.eqb_neq first 0)) by done. cbn [andb].
  assert (Hdb_a : data_block_at sa first k = Some db).
  { rewrite <- Hdb. apply data_block_at_frame; [done|].
    intros j p _ Hp. destruct (data_block_at_aligned _ _ _ _ Hp) as (c & Ec).
    apply (rd32_unchanged _ _ _ _ _ Hua). unfold_offsets. lia. }
  apply (write_tail_round_trip sa now h hp data n offset db first); try done.
  - by destruct Hgeo_a as (_ & _ & -> & _).
  - by rewrite (same_geometry_get_block st).
  - by rewrite Hsize_a.
Qed.

Lemma write_read_round_trip_in_block_witness :
  fst (write_file hello_volume 1000000000 2 hello_bytes 5 7) = 5
  /\ read_file (snd (write_file hello_volume 1000000000 2 hello_bytes 5 7)) 2 7 5
     = take 5 hello_bytes.
Proof.
  apply (write_read_round_trip_in_block hello_volume 1000000000 2 1024
           hello_bytes 5 7 1536); try lia.
  - vm_compute. reflexivity.
  - vm_compute. reflexivity.
  - vm_compute. discriminate.
  - vm_compute. discriminate.
  - vm_compute. reflexivity.
Defined.

(** ** Unlinking a file under the root and looking it up *)

#[local] Arguments seqZ : simpl never.






















(** ** Making a directory under the root *)

#[local] Arguments seqZ : simpl never.






(** ** The first write into a new file *)

#[local] Arguments seqZ : simpl never.

(** A write into the first, newly allocated data block of a file is read
    back. *)
Lemma first_write_is_read_back (st : AdfImage) (now h hp : Z)
    (data : list byte) (n offset : Z) :
  read_only_ st = false -> h <> 0 -> get_block st h = Some hp ->
  rd32 (mapped_data_ st) (hp + FileBlock.first_data) = 0 ->
  0 < n -> 0 <= offset -> offset + n <= 488 ->
  n <= Z.of_nat (length data) ->
  (forall x, x ∈ free_blocks_ st -> 0 <= x < 4294967296) ->
  h ∉ free_blocks_ st -> h <> root_block_num_ st -> ~ bitmap_page st h ->
  let r := write_file st now h data n offset in
  fst r = n ->
  read_file (snd r) h offset n = take (Z.to_nat n) data.
Proof.
  intros Hrw Hh Hhp Hfirst Hn Hoff Hblock Hdata Hrange Hhfree Hhroot Hhpage.
  pose proof (get_block_addr _ _ _ Hhp) as Ehp. unfold BLOCK_SIZE in Ehp.
  destruct (write_size_update st hp n offset Hoff Hn ltac:(lia))
    as (Hgeo_a & Hfree_a & _ & Hua & Hsize_a & HV).
  cbv zeta in Hgeo_a, Hfree_a, Hua, Hsize_a, HV.
  cbv zeta. unfold write_file.
  rewrite Hrw, (proj2 (Z.eqb_neq h 0)), get_block_writable_rw, Hhp by done.
  set (m := mapped_data_ st) in *.
  set (F := rd32 m (hp + FileBlock.file_size)) in *.
  set (V := Z.max F (wrap32 (offset + n))) in *.
  set (sa := if negb (V =? F) then _ else st) in *.
  assert (Hfirst_a : rd32 (mapped_data_ sa) (hp + FileBlock.first_data) = 0).
  { rewrite <- Hfirst. apply (rd32_unchanged _ _ _ _ _ Hua). unfold_offsets. lia. }
  rewrite Hfirst_a, (proj2 (Z.ltb_lt 0 n)) by done. cbn [Z.eqb andb].
  destruct (allocate_block sa) as [b sb] eqn:Ealloc.
  destruct (Z.eqb_spec b 0) as [|Hb0];
    [cbn [fst]; unfold ENOSPC; lia|].
  destruct (allocate_block_footprint sa b sb) as
      (Hin & _ & _ & (ma & Esb) & Hframe & _);
    [intros x Hx; rewrite Hfree_a in Hx; by apply Hrange|done|done|].
  rewrite Hfree_a in Hin.
  assert (Hgeo_b : same_geometry st sb).
  { eapply same_geometry_trans; [exact Hgeo_a|]. rewrite Esb. by repeat split. }
  assert (Hbh : b <> h) by (intros ->; done).
  assert (Hbr : 0 <= b < 4294967296) by by apply Hrange.
  assert (Hpage_a : forall x, bitmap_page sa x -> bitmap_page st x).
  { intros x. apply bitmap_page_same_words; [done|]. intros rp i Hrp Hi.
    apply get_block_addr in Hrp. unfold BLOCK_SIZE in Hrp.
    apply (rd32_unchanged _ _ _ _ _ Hua). unfold_offsets. lia. }
  (* the header after the allocation *)
  assert (Hkeep_h : forall a, hp <= a < hp + 512 ->
            mapped_data_ sb a = mapped_data_ sa a).
  { intros a Ha. apply Hframe.
    - intros x Hx Hinx. apply Hhpage. apply Hpage_a in Hx.
      assert (Hinh : in_block h a) by (unfold in_block; lia).
      by rewrite (in_block_inj h x a Hinh Hinx).
    - unfold in_block. lia. }
  set (mc := update_checksum
               (wr32 (mapped_data_ sb) (hp + FileBlock.first_data) b) hp 5).
  set (sc := set_mem sb mc).
  assert (Hrw_c : read_only_ sc = false)
    by (destruct Hgeo_b as (_ & _ & E & _); cbn [sc read_only_ set_mem]; congruence).
  rewrite (get_block_writable_rw sc b Hrw_c).
  destruct (get_block sc b) as [db|] eqn:Hdb.
  2:{ replace (Z.to_nat (offset / 488 + 2)) with (S (S (Z.to_nat (offset / 488))))
        by (pose proof (Z.div_pos offset 488); lia).
      cbn [write_walk]. rewrite (proj2 (Z.eqb_neq b 0)), Hdb by done.
      cbn [fst]. unfold EIO. lia. }
  pose proof (get_block_addr _ _ _ Hdb) as Edb. unfold BLOCK_SIZE in Edb.
  set (md := store32 _ (db + DataBlock.next_data) 0).
  set (sd := set_mem sc md).
  assert (Hud : unchanged_outside db (db + 512) mc md)
    by (unfold md; cbn [mapped_data_ set_mem sc]; unchanged_tac).
  assert (Hoff0 : offset / 488 = 0) by (apply Z.div_small; lia).
  intros _.
  assert (Hmod : offset mod 488 + n <= 488) by (rewrite Z.mod_small; lia).
  assert (Hfirst_d : rd32 (mapped_data_ sd) (hp + FileBlock.first_data) = b).
  { cbn [sd mapped_data_ set_mem].
    rewrite (rd32_unchanged _ _ _ _ _ Hud) by (unfold_offsets; lia).
    unfold mc. unfold_offsets. rd32_skip. rewrite rd32_wr32_same.
    by apply wrap32_small. }
  assert (Hsize_d : offset + n
                    <= rd32 (mapped_data_ sd) (hp + FileBlock.file_size)).
  { cbn [sd mapped_data_ set_mem].
    rewrite (rd32_unchanged _ _ _ _ _ Hud) by (unfold_offsets; lia).
    unfold mc. unfold_offsets. rd32_skip.
    rewrite (rd32_ext _ (mapped_data_ sa)); [by rewrite Hsize_a|].
    intros a Ha. apply Hkeep_h. lia. }
  assert (Hat : data_block_at sd b (Z.to_nat (offset / 488)) = Some db).
  { rewrite Hoff0. change (Z.to_nat 0) with O. by apply data_block_at_O. }
  assert (Hhp_d : get_block sd h = Some hp).
  { change (get_block sd h) with (get_block sb h).
    by rewrite (same_geometry_get_block st sb). }
  assert (Hne : db <> hp) by lia.
  exact (proj2 (write_tail_round_trip sd now h hp data n offset db b
                  Hrw_c Hh Hhp_d Hn Hoff Hdata Hmod Hfirst_d Hsize_d Hat Hne)).
Qed.

(** X21.  The first write into a file without data blocks is read back: on
    a writable image whose free set holds 32-bit block numbers, for a header
    [h] with [first_data = 0] that is neither free, nor the root, nor a
    bitmap page, a [write_file] of [n > 0] bytes at [offset] with
    [offset + n <= 488] that returns [n] is followed by a [read_file] of the
    same range that returns the [n] bytes written. *)
Theorem first_write_read_round_trip (st : AdfImage) (now h hp : Z)
    (data : list byte) (n offset : Z) :
  read_only_ st = false -> h <> 0 -> get_block st h = Some hp ->
  rd32 (mapped_data_ st) (hp + FileBlock.first_data) = 0 ->
  0 < n -> 0 <= offset -> offset + n <= 488 ->
  n <= Z.of_nat (length data) ->
  (forall x, x ∈ free_blocks_ st -> 0 <= x < 4294967296) ->
  h ∉ free_blocks_ st -> h <> root_block_num_ st -> ~ bitmap_page st h ->
  let r := write_file st now h data n offset in
  fst r = n ->
  read_file (snd r) h offset n = take (Z.to_nat n) data.
Proof.
  intros Hrw Hh Hhp Hfirst Hn Hoff Hblock Hdata Hrange Hhfree Hhroot Hhpage.
  by apply (first_write_is_read_back st now h hp data n offset).
Qed.

Lemma free_range_check_sound st :
  free_range_check st = true ->
  forall x, x ∈ free_blocks_ st -> 0 <= x < 4294967296.
Proof.
  unfold free_range_check. rewrite forallb_forall. intros Hc x Hx.
  apply elem_of_elements, list_elem_of_In, Hc in Hx.
  apply andb_true_iff in Hx as [H0 H1]. lia.
Qed.

Lemma first_write_read_round_trip_witness :
  read_file (snd (write_file hello_created 1000000000 2 hello_bytes 13 0)) 2 0 13
  = take 13 hello_bytes.
Proof.
  refine (first_write_read_round_trip hello_created 1000000000 2 1024
            hello_bytes 13 0 _ _ _ _ _ _ _ _ _ _ _ _ _).
  - vm_compute. reflexivity.
  - lia.
  - vm_compute. reflexivity.
  - vm_compute. reflexivity.
  - lia.
  - lia.
  - lia.
  - vm_compute. discriminate.
  - apply free_range_check_sound. vm_compute. reflexivity.
  - intros Hin. apply (bool_decide_pack _) in Hin. vm_compute in Hin.
    exact Hin.
  - assert (E : root_block_num_ hello_created = 880) by (vm_compute; reflexivity).
    rewrite E. lia.
  - apply not_bitmap_page_check_sound. vm_compute. reflexivity.
  - vm_compute. reflexivity.
Defined.

(** ** Removing a directory under the root *)

#[local] Arguments seqZ : simpl never.




(** ** Create, write and read through the FUSE operations *)

#[local] Arguments seqZ : simpl never.






(** ** Creating a name that exists *)

#[local] Arguments seqZ : simpl never.


